(** * bolt.cog: agent scheduling, inference load balancing and memory store

    A shallow embedding of TypeScript classes of the repository and the
    properties its specification states about them:

    - [AdvancedAgentCoordinator]  (app/lib/cognitive/advanced-coordinator.ts)
    - [MemoryManager]             (agent-zero memory manager)
    - [InferenceCoordinator]      (inference coordinator)
    - [AgentNetworkCoordinator]   (agent network coordinator)
    - [Cache] and [memoize]       (app/utils/cache.ts), where the first
      coordinator keeps the outputs of tasks

    together with properties the code has beyond the specification:
    invariants of the runs of the coordinators, round trips of the stores
    and the behaviour at the edges.

    Conventions of the embedding.

    - A JavaScript [number] that counts things or holds a timestamp is a [Z];
      a [number] that holds a score, a confidence or a similarity is the
      rational [Q] that the binary64 number is.  The scores by which agents
      are selected and records are evicted and ranked are computed as the
      code computes them, every operation rounded to binary64 ([Binary64]:
      53 binary digits, ties to even, gradual underflow).  Infinities and
      NaN have no counterpart: the properties of these scores state the
      bounds that keep the numbers finite.  Elsewhere (the averages of the
      metrics, the share of matching words) the numbers are exact rationals.
    - A JavaScript [Map<string, V>] is an association list in insertion order,
      a [Set<string>] a duplicate-free list in insertion order: both orders
      are observable through iteration, which the code relies on.
    - [Array.prototype.sort] is stable; it is modelled by a stable insertion
      sort driven by the comparator the code passes.
    - [Date.now()], generated identifiers and the results of awaited calls are
      inputs of the functions that use them.  An [async] method is split at
      its [await]: the part that runs before it and the part that runs when
      the awaited promise settles. *)

From Stdlib Require Import String List ZArith QArith Qround Qabs Qpower.
From Stdlib Require Import Bool Lia Lqa.
From Stdlib Require Import Permutation Sorted DecimalString DecimalNat.
Import ListNotations.

Set Implicit Arguments.

(** ** JavaScript collections *)

Module JS.

Section OrderedMap.
Variable V : Type.

Definition Map := list (string * V).

Fixpoint map_get (k : string) (m : Map) : option V :=
  match m with
  | [] => None
  | (k', v) :: r => if String.eqb k k' then Some v else map_get k r
  end.

Definition map_has (k : string) (m : Map) : bool :=
  match map_get k m with Some _ => true | None => false end.

(** [m.set(k, v)]: an existing key keeps its position. *)
Fixpoint map_set (k : string) (v : V) (m : Map) : Map :=
  match m with
  | [] => [(k, v)]
  | (k', v') :: r =>
      if String.eqb k k' then (k, v) :: r else (k', v') :: map_set k v r
  end.

Definition map_delete (k : string) (m : Map) : Map :=
  filter (fun e => negb (String.eqb k (fst e))) m.

Definition map_keys (m : Map) : list string := map fst m.
Definition map_values (m : Map) : list V := map snd m.
Definition map_size (m : Map) : Z := Z.of_nat (length m).
End OrderedMap.

Definition Set_ := list string.

Definition set_has (x : string) (s : Set_) : bool := existsb (String.eqb x) s.

Definition set_add (x : string) (s : Set_) : Set_ :=
  if set_has x s then s else s ++ [x].

Definition set_delete (x : string) (s : Set_) : Set_ :=
  filter (fun y => negb (String.eqb x y)) s.

Section Sort.
Variable A : Type.
(** The comparator handed to [sort]: a negative or zero result keeps the
    first argument in front of the second. *)
Variable cmp : A -> A -> Q.

Definition keeps_before (x y : A) : bool := Qle_bool (cmp x y) 0.

Fixpoint insert (x : A) (l : list A) : list A :=
  match l with
  | [] => [x]
  | y :: r => if keeps_before x y then x :: y :: r else y :: insert x r
  end.

Definition sort (l : list A) : list A := fold_right insert [] l.
End Sort.

(** [x < y] on numbers. *)
Definition Qlt_bool (x y : Q) : bool := negb (Qle_bool y x).

(** [a.slice(0, n)] for an integer [n]: a negative [n] counts from the end. *)
Definition slice0 (A : Type) (n : Z) (l : list A) : list A :=
  if (n <? 0)%Z
  then firstn (Z.to_nat (Z.of_nat (length l) + n)) l
  else firstn (Z.to_nat n) l.

End JS.

(** ** Binary64 arithmetic *)

Module Binary64.

(** The exponent of the smallest positive binary64 number. *)
Definition emin : Z := -1074.

(** The integer part of the binary logarithm of a positive rational. *)
Definition ilog2 (q : Q) : Z :=
  let e := (Z.log2 (Qnum q) - Z.log2 (Z.pos (Qden q)))%Z in
  if Qle_bool (2 ^ e) q then e else (e - 1)%Z.

(** The exponent of the last place of the binary64 numbers around [q]: 53
    binary digits are kept, fewer below [2 ^ -1022]. *)
Definition fexp (q : Q) : Z := Z.max (ilog2 (Qabs q) - 52) emin.

(** The nearest integer, the even one of two equally near. *)
Definition rne (x : Q) : Z :=
  let f := Qfloor x in
  match Qcompare (x - inject_Z f) (1 # 2) with
  | Lt => f
  | Gt => (f + 1)%Z
  | Eq => if Z.even f then f else (f + 1)%Z
  end.

(** The binary64 number nearest to [q].  A result beyond the largest
    binary64 number, which JavaScript replaces by an infinity, is left as it
    is. *)
Definition round64 (q : Q) : Q :=
  if Qeq_bool q 0 then 0
  else Qred (inject_Z (rne (q / 2 ^ fexp q)) * 2 ^ fexp q).

(** The number a decimal literal of the source denotes. *)
Definition literal (q : Q) : Q := round64 q.

(** [x + y], [x - y], [x * y] and [x / y] on numbers.  A division by zero,
    which gives an infinity or NaN in JavaScript, has no counterpart. *)
Definition fadd (x y : Q) : Q := round64 (x + y).
Definition fsub (x y : Q) : Q := round64 (x - y).
Definition fmul (x y : Q) : Q := round64 (x * y).
Definition fdiv (x y : Q) : Q := round64 (x / y).

(** [x] lies on the grid of the binary64 numbers: it is a multiple of the
    smallest positive one. *)
Definition onGrid (x : Q) : Prop := exists k : Z, x == inject_Z k * 2 ^ emin.

End Binary64.

(** ** AdvancedAgentCoordinator (advanced-coordinator.ts) *)

Module Coordinator.
Import JS Binary64.

(** Of an [AgentCapability] the coordinator reads [name] and [confidence]. *)
Record AgentCapability := {
  cap_name : string;
  cap_confidence : Q
}.

(** Of an [Agent] the coordinator reads [id] and [capabilities]; its
    [perceive]/[reason]/[act] methods run inside the awaited [executeTask]. *)
Record Agent := {
  agent_id : string;
  capabilities : list AgentCapability
}.

(** Of a [Task] the scheduling reads [requiredSkills]; [id] tells tasks
    apart.  The tier a task is submitted with is an argument of [submitTask]
    and is not recorded in the task. *)
Record Task := {
  task_id : string;
  requiredSkills : list string
}.

Inductive Priority := high | medium | low.

Record AgentPool := {
  agents : Map Agent;
  activeAgents : Set_;
  idleAgents : Set_;
  busyAgents : Map Z             (* agentId -> taskCount *)
}.

Record TaskQueue := {
  q_high : list Task;
  q_medium : list Task;
  q_low : list Task
}.

(** [averageTaskDuration] is left out: no modelled decision reads it. *)
Record CoordinationMetrics := {
  totalTasks : Z;
  completedTasks : Z;
  failedTasks : Z;
  agentUtilization : Map Q
}.

Record State := {
  agentPool : AgentPool;
  taskQueue : TaskQueue;
  metrics : CoordinationMetrics;
  maxConcurrentTasks : Z
}.

Definition new (maxConcurrent : Z) : State :=
  {| agentPool := {| agents := []; activeAgents := []; idleAgents := [];
                     busyAgents := [] |};
     taskQueue := {| q_high := []; q_medium := []; q_low := [] |};
     metrics := {| totalTasks := 0; completedTasks := 0; failedTasks := 0;
                   agentUtilization := [] |};
     maxConcurrentTasks := maxConcurrent |}.

Definition with_pool (p : AgentPool) (c : State) : State :=
  {| agentPool := p; taskQueue := taskQueue c; metrics := metrics c;
     maxConcurrentTasks := maxConcurrentTasks c |}.

Definition with_queue (q : TaskQueue) (c : State) : State :=
  {| agentPool := agentPool c; taskQueue := q; metrics := metrics c;
     maxConcurrentTasks := maxConcurrentTasks c |}.

Definition with_metrics (m : CoordinationMetrics) (c : State) : State :=
  {| agentPool := agentPool c; taskQueue := taskQueue c; metrics := m;
     maxConcurrentTasks := maxConcurrentTasks c |}.

Definition registerAgent (a : Agent) (c : State) : State :=
  let p := agentPool c in
  let m := metrics c in
  with_metrics
    {| totalTasks := totalTasks m; completedTasks := completedTasks m;
       failedTasks := failedTasks m;
       agentUtilization := map_set (agent_id a) 0 (agentUtilization m) |}
    (with_pool
       {| agents := map_set (agent_id a) a (agents p);
          activeAgents := activeAgents p;
          idleAgents := set_add (agent_id a) (idleAgents p);
          busyAgents := busyAgents p |} c).

Definition unregisterAgent (agentId : string) (c : State) : State :=
  let p := agentPool c in
  let m := metrics c in
  with_metrics
    {| totalTasks := totalTasks m; completedTasks := completedTasks m;
       failedTasks := failedTasks m;
       agentUtilization := map_delete agentId (agentUtilization m) |}
    (with_pool
       {| agents := map_delete agentId (agents p);
          activeAgents := set_delete agentId (activeAgents p);
          idleAgents := set_delete agentId (idleAgents p);
          busyAgents := map_delete agentId (busyAgents p) |} c).

(** [Array.from(idleAgents).map(id => agents.get(id)).filter(defined)] *)
Definition availableAgents (c : State) : list Agent :=
  flat_map (fun id => match map_get id (agents (agentPool c)) with
                      | Some a => [a]
                      | None => []
                      end)
           (idleAgents (agentPool c)).

Definition hasRequiredSkills (t : Task) (a : Agent) : bool :=
  forallb (fun skill =>
             existsb (fun cap => String.eqb (cap_name cap) skill)
                     (capabilities a))
          (requiredSkills t).

Definition capabilityScore (t : Task) (a : Agent) : Q :=
  fold_left (fun sum cap => fadd sum (cap_confidence cap))
            (filter (fun cap => existsb (String.eqb (cap_name cap))
                                        (requiredSkills t))
                    (capabilities a))
            0.

Definition utilization (c : State) (a : Agent) : Q :=
  match map_get (agent_id a) (agentUtilization (metrics c)) with
  | Some u => u
  | None => 0
  end.

Definition agentScore (c : State) (t : Task) (a : Agent) : Q :=
  if negb (hasRequiredSkills t a) then -1
  else fsub (fadd 0 (capabilityScore t a))
            (fmul (utilization c a) (literal (1 # 10))).

Definition scoredAgents (c : State) (t : Task) : list (Agent * Q) :=
  map (fun a => (a, agentScore c t a)) (availableAgents c).

Definition getBestAgentForTask (c : State) (t : Task) : option Agent :=
  match availableAgents c with
  | [] => None
  | _ =>
      match sort (fun a b => fsub (snd b) (snd a)) (scoredAgents c t) with
      | (a, score) :: _ => if Qlt_bool 0 score then Some a else None
      | [] => None
      end
  end.

Definition markAgentBusy (agentId : string) (c : State) : State :=
  let p := agentPool c in
  let currentCount :=
    match map_get agentId (busyAgents p) with Some n => n | None => 0%Z end in
  with_pool
    {| agents := agents p;
       activeAgents := set_add agentId (activeAgents p);
       idleAgents := set_delete agentId (idleAgents p);
       busyAgents := map_set agentId (currentCount + 1)%Z (busyAgents p) |} c.

Definition markAgentIdle (agentId : string) (c : State) : State :=
  let p := agentPool c in
  let currentCount :=
    match map_get agentId (busyAgents p) with Some n => n | None => 0%Z end in
  if (currentCount <=? 1)%Z then
    with_pool
      {| agents := agents p;
         activeAgents := set_delete agentId (activeAgents p);
         idleAgents := set_add agentId (idleAgents p);
         busyAgents := map_delete agentId (busyAgents p) |} c
  else
    with_pool
      {| agents := agents p;
         activeAgents := activeAgents p;
         idleAgents := idleAgents p;
         busyAgents := map_set agentId (currentCount - 1)%Z (busyAgents p) |} c.

Definition updateMetrics (success : bool) (c : State) : State :=
  let m := metrics c in
  with_metrics
    {| totalTasks := totalTasks m;
       completedTasks := if success then (completedTasks m + 1)%Z
                         else completedTasks m;
       failedTasks := if success then failedTasks m
                      else (failedTasks m + 1)%Z;
       agentUtilization := agentUtilization m |} c.

(** [high.shift() || medium.shift() || low.shift()] *)
Definition shiftTask (q : TaskQueue) : option (Task * TaskQueue) :=
  match q_high q with
  | t :: r => Some (t, {| q_high := r; q_medium := q_medium q;
                          q_low := q_low q |})
  | [] =>
      match q_medium q with
      | t :: r => Some (t, {| q_high := []; q_medium := r;
                              q_low := q_low q |})
      | [] =>
          match q_low q with
          | t :: r => Some (t, {| q_high := []; q_medium := []; q_low := r |})
          | [] => None
          end
      end
  end.

Definition pushTask (p : Priority) (t : Task) (q : TaskQueue) : TaskQueue :=
  match p with
  | high => {| q_high := q_high q ++ [t]; q_medium := q_medium q;
               q_low := q_low q |}
  | medium => {| q_high := q_high q; q_medium := q_medium q ++ [t];
                 q_low := q_low q |}
  | low => {| q_high := q_high q; q_medium := q_medium q;
              q_low := q_low q ++ [t] |}
  end.

(** [processTasks] up to its [await executeTask(agent, task)]: the new state
    and, when a task was handed to an agent, that pair. *)
Definition processTasks (c : State) : State * option (Agent * Task) :=
  if (maxConcurrentTasks c <=? map_size (busyAgents (agentPool c)))%Z
  then (c, None)
  else
    match shiftTask (taskQueue c) with
    | None => (c, None)
    | Some (task, q') =>
        let c1 := with_queue q' c in
        match getBestAgentForTask c1 task with
        | None => (with_queue (pushTask medium task q') c1, None)
        | Some agent => (markAgentBusy (agent_id agent) c1, Some (agent, task))
        end
    end.

(** [processTasks] after the [await]: [success] tells whether [executeTask]
    resolved or was rejected with a value the error handler can report; the
    [finally] block frees the agent and calls [processTasks] again. *)
Definition finishTask (success : bool) (agentId : string) (c : State)
  : State * option (Agent * Task) :=
  processTasks (markAgentIdle agentId (updateMetrics success c)).

(** [processTasks] after the [await] when [executeTask] was rejected with
    [null] or [undefined]: [handleCognitiveError] reads [error.message] and
    throws, which leaves the catch block before [updateMetrics]; the
    [finally] block still frees the agent and calls [processTasks] again. *)
Definition finishTaskUncounted (agentId : string) (c : State)
  : State * option (Agent * Task) :=
  processTasks (markAgentIdle agentId c).

Definition submitTask (t : Task) (p : Priority) (c : State)
  : State * option (Agent * Task) :=
  let m := metrics c in
  processTasks
    (with_metrics
       {| totalTasks := (totalTasks m + 1)%Z;
          completedTasks := completedTasks m;
          failedTasks := failedTasks m;
          agentUtilization := agentUtilization m |}
       (with_queue (pushTask p t (taskQueue c)) c)).

End Coordinator.

(** ** MemoryManager (agent-zero memory manager) *)

Module MemoryManager.
Import JS Binary64.

Inductive MemoryType := fact | solution | instruction | experience | code.

Record MemoryMetadata := {
  source : string;
  context : list string;
  tags : list string;
  relatedMemories : list string;
  confidence : Q
}.

Record Memory := {
  mem_id : string;
  mem_type : MemoryType;
  content : string;
  embedding : option (list Q);
  metadata : MemoryMetadata;
  timestamp : Z;
  accessCount : Z;
  relevanceScore : Q
}.

(** The argument of [store]: [Omit<Memory, 'id' | 'timestamp' | 'accessCount'>]. *)
Record MemoryInput := {
  in_type : MemoryType;
  in_content : string;
  in_embedding : option (list Q);
  in_metadata : MemoryMetadata;
  in_relevanceScore : Q
}.

(** Of [MemoryConfig] the manager reads [enabled] and [maxMemories]. *)
Record MemoryConfig := {
  enabled : bool;
  maxMemories : Z
}.

Record State := {
  memories : Map Memory;
  config : MemoryConfig;
  embeddings : Map (list Q)
}.

Definition new (cfg : MemoryConfig) : State :=
  {| memories := []; config := cfg; embeddings := [] |}.

Definition with_accessCount (n : Z) (m : Memory) : Memory :=
  {| mem_id := mem_id m; mem_type := mem_type m; content := content m;
     embedding := embedding m; metadata := metadata m;
     timestamp := timestamp m; accessCount := n;
     relevanceScore := relevanceScore m |}.

Definition delete (id : string) (st : State) : State :=
  {| memories := map_delete id (memories st); config := config st;
     embeddings := map_delete id (embeddings st) |}.

Definition msPerDay : Z := 1000 * 60 * 60 * 24.

(** The score [evictLeastRelevant] sorts by,
    [relevanceScore * 0.5 + (accessCount / 100) * 0.3
     + (1 - (Date.now() - timestamp) / (1000 * 60 * 60 * 24 * 30)) * 0.2],
    [now] being [Date.now()]: the clock is read for every record of the pass
    and the readings of one pass are taken to be the same.  The last term is
    negative for a record older than thirty days. *)
Definition evictionScore (now : Z) (m : Memory) : Q :=
  fadd (fadd (fmul (relevanceScore m) (literal (5 # 10)))
             (fmul (fdiv (inject_Z (accessCount m)) 100) (literal (3 # 10))))
       (fmul (fsub 1 (fdiv (fsub (inject_Z now) (inject_Z (timestamp m)))
                           (inject_Z (msPerDay * 30))))
             (literal (2 # 10))).

(** [Math.ceil(memories.length * 0.1)].  For the sizes a [Map] can have the
    binary64 product has the same ceiling as the exact one: it is the integer
    itself on a multiple of ten and stays strictly between two integers
    otherwise. *)
Definition evictCount (n : nat) : Z :=
  Qceiling (inject_Z (Z.of_nat n) * (1 # 10)).

Definition toRemove (now : Z) (st : State) : list (Memory * Q) :=
  let ms := map_values (memories st) in
  slice0 (evictCount (length ms))
         (sort (fun a b => fsub (snd a) (snd b))
               (map (fun m => (m, evictionScore now m)) ms)).

Definition evictLeastRelevant (now : Z) (st : State) : State :=
  fold_left (fun s item => delete (mem_id (fst item)) s) (toRemove now st) st.

(** [import(memories)] *)
Definition import (ms : list Memory) (st : State) : State :=
  fold_left
    (fun s m =>
       {| memories := map_set (mem_id m) m (memories s);
          config := config s;
          embeddings := match embedding m with
                        | Some e => map_set (mem_id m) e (embeddings s)
                        | None => embeddings s
                        end |})
    ms st.

Section Numeric.
(** The numeric helpers the manager calls are binary64 computations through
    [Math.sqrt] and [Math.log]; they are taken as given functions, with
    finite values. *)
Variable generateEmbedding : string -> list Q.
Variable cosineSimilarity : list Q -> list Q -> Q.
Variable keywordSimilarity : string -> string -> Q.
Variable log : Z -> Q.                      (* Math.log on a count *)

(** [store(memory)] suspends at [await generateEmbedding(...)] when the
    store is enabled and at [await evictLeastRelevant()] when it is at
    capacity; [evictLeastRelevant] itself awaits nothing and runs when it is
    called.  The turns of a call are: [storeDraft], the record as the object
    literal builds it; [storeEmbed], what runs when the embedding has
    arrived; [storeEnforce], the capacity test and the eviction, in the same
    turn as [storeEmbed]; [storeInsert], the final [memories.set], in the
    same turn when nothing was evicted and in a later one otherwise. *)
Definition storeDraft (id : string) (now : Z) (memory : MemoryInput)
  : Memory :=
  {| mem_id := id; mem_type := in_type memory; content := in_content memory;
     embedding := in_embedding memory; metadata := in_metadata memory;
     timestamp := now; accessCount := 0;
     relevanceScore := in_relevanceScore memory |}.

Definition storeEmbed (full : Memory) (st : State) : Memory * State :=
  if enabled (config st)
  then ({| mem_id := mem_id full; mem_type := mem_type full;
           content := content full;
           embedding := Some (generateEmbedding (content full));
           metadata := metadata full; timestamp := timestamp full;
           accessCount := accessCount full;
           relevanceScore := relevanceScore full |},
        {| memories := memories st; config := config st;
           embeddings := map_set (mem_id full)
                                 (generateEmbedding (content full))
                                 (embeddings st) |})
  else (full, st).

Definition storeEnforce (now' : Z) (st : State) : State :=
  if (maxMemories (config st) <=? map_size (memories st))%Z
  then evictLeastRelevant now' st
  else st.

Definition storeInsert (full : Memory) (st : State) : State :=
  {| memories := map_set (mem_id full) full (memories st);
     config := config st; embeddings := embeddings st |}.

(** [store(memory)] when no other call runs between its turns: [id] is the
    identifier [generateId()] produced, [now] the timestamp taken for the
    record and [now'] the clock read by [evictLeastRelevant]. *)
Definition store (id : string) (now now' : Z) (memory : MemoryInput)
           (st : State) : Memory * State :=
  let fullMemory :=
    {| mem_id := id; mem_type := in_type memory;
       content := in_content memory;
       embedding := if enabled (config st)
                    then Some (generateEmbedding (in_content memory))
                    else in_embedding memory;
       metadata := in_metadata memory;
       timestamp := now; accessCount := 0;
       relevanceScore := in_relevanceScore memory |} in
  let st1 :=
    if enabled (config st)
    then {| memories := memories st; config := config st;
            embeddings := map_set id (generateEmbedding (in_content memory))
                                  (embeddings st) |}
    else st in
  let st2 :=
    if (maxMemories (config st1) <=? map_size (memories st1))%Z
    then evictLeastRelevant now' st1
    else st1 in
  (fullMemory,
   {| memories := map_set id fullMemory (memories st2);
      config := config st2; embeddings := embeddings st2 |}).

Definition similarity (query : string) (m : Memory) : Q :=
  match embedding m with
  | Some e => cosineSimilarity (generateEmbedding query) e
  | None => keywordSimilarity query (content m)
  end.

(** [1 / (1 + (Date.now() - timestamp) / (1000 * 60 * 60 * 24))]; the clock
    is read for every record of the pass and the readings of one pass are
    taken to be the same.  For a record stamped exactly one day ahead of the
    clock the code divides by zero. *)
Definition recencyBoost (now : Z) (m : Memory) : Q :=
  fdiv 1 (fadd 1 (fdiv (fsub (inject_Z now) (inject_Z (timestamp m)))
                       (inject_Z msPerDay))).

(** [Math.log(accessCount + 1) / 10]; the logarithm is not a number for a
    negative argument and infinite at 0. *)
Definition accessBoost (m : Memory) : Q :=
  fdiv (log (accessCount m + 1)) 10.

(** The score [retrieve] sorts by,
    [similarity + recencyBoost * 0.1 + accessBoost * 0.05]. *)
Definition retrieveScore (query : string) (now : Z) (m : Memory) : Q :=
  fadd (fadd (similarity query m)
             (fmul (recencyBoost now m) (literal (1 # 10))))
       (fmul (accessBoost m) (literal (5 # 100))).

(** The entries of the map with their scores, best first. *)
Definition ranked (query : string) (now : Z) (st : State)
  : list ((string * Memory) * Q) :=
  sort (fun a b => fsub (snd b) (snd a))
       (map (fun e => (e, retrieveScore query now (snd e))) (memories st)).

Definition bump (m : Memory) : Memory :=
  with_accessCount (accessCount m + 1) m.

(** [item.memory.accessCount++] on the record object the map holds under
    key [k]. *)
Definition touch (k : string) (ms : Map Memory) : Map Memory :=
  map (fun e => if String.eqb k (fst e) then (fst e, bump (snd e)) else e)
      ms.

Definition retrieve (query : string) (limit : Z) (now : Z) (st : State)
  : list Memory * State :=
  if negb (enabled (config st)) || (map_size (memories st) =? 0)%Z
  then ([], st)
  else
    let picked := slice0 limit (ranked query now st) in
    (map (fun item => bump (snd (fst item))) picked,
     {| memories := fold_left (fun ms item => touch (fst (fst item)) ms)
                              picked (memories st);
        config := config st; embeddings := embeddings st |}).
End Numeric.

End MemoryManager.

(** ** InferenceCoordinator (inference coordinator) *)

Module Inference.
Import JS.

Inductive LoadBalancing := round_robin | least_loaded | by_priority.

(** Of [CoordinatorConfig] the default quantization and backend are only
    handed to the engines and are left out. *)
Record CoordinatorConfig := {
  maxEngines : Z;
  loadBalancing : LoadBalancing;
  enableCaching : bool;
  cacheSize : Z
}.

Record InferenceRequest := {
  prompt : string;
  maxTokens : Z;
  stopSequences : option (list string);
  temperature : option Q;
  topK : option Z;
  topP : option Q;
  stream : option bool
}.

Inductive FinishReason := fr_stop | fr_length | fr_error.

(** Of an [InferenceResponse] the token counts and the other timings are
    left out: the coordinator only passes them on. *)
Record InferenceResponse := {
  text : string;
  tokens : Z;
  tokensPerSecond : Q;                        (* timings.tokensPerSecond *)
  finishReason : FinishReason
}.

Record InferenceJob := {
  job_id : string;
  request : InferenceRequest;
  priority : Z;
  createdAt : Z
}.

Inductive EngineState := idle | loading | processing | error.

Record EngineStatus := {
  es_id : string;
  modelName : string;
  status : EngineState;
  currentJob : option string;
  processedJobs : Z;
  averageLatency : Q;
  lastActive : Z
}.

Record CachedResponse := {
  response : InferenceResponse;
  cached_at : Z
}.

Record CoordinatorMetrics := {
  totalJobs : Z;
  completedJobs : Z;
  failedJobs : Z;
  cacheHits : Z;
  cacheMisses : Z;
  m_averageLatency : Q;
  m_tokensPerSecond : Q
}.

(** An engine object is known by its identity, a natural number. *)
Definition Engine := nat.

Record State := {
  config : CoordinatorConfig;
  engines : Map Engine;
  engineStatus : Map EngineStatus;
  jobQueue : list InferenceJob;
  responseCache : Map CachedResponse;
  metrics : CoordinatorMetrics;
  isRunning : bool
}.

Definition new (cfg : CoordinatorConfig) : State :=
  {| config := cfg; engines := []; engineStatus := []; jobQueue := [];
     responseCache := [];
     metrics := {| totalJobs := 0; completedJobs := 0; failedJobs := 0;
                   cacheHits := 0; cacheMisses := 0; m_averageLatency := 0;
                   m_tokensPerSecond := 0 |};
     isRunning := false |}.

Definition with_engineStatus (es : Map EngineStatus) (st : State) : State :=
  {| config := config st; engines := engines st; engineStatus := es;
     jobQueue := jobQueue st; responseCache := responseCache st;
     metrics := metrics st; isRunning := isRunning st |}.

Definition with_metrics (m : CoordinatorMetrics) (st : State) : State :=
  {| config := config st; engines := engines st;
     engineStatus := engineStatus st; jobQueue := jobQueue st;
     responseCache := responseCache st; metrics := m;
     isRunning := isRunning st |}.

Definition with_cache (c : Map CachedResponse) (st : State) : State :=
  {| config := config st; engines := engines st;
     engineStatus := engineStatus st; jobQueue := jobQueue st;
     responseCache := c; metrics := metrics st; isRunning := isRunning st |}.

Definition with_jobQueue (q : list InferenceJob) (st : State) : State :=
  {| config := config st; engines := engines st;
     engineStatus := engineStatus st; jobQueue := q;
     responseCache := responseCache st; metrics := metrics st;
     isRunning := isRunning st |}.

(** The object [getCacheKey] serializes. *)
Record CacheKeyObject := {
  k_prompt : string;
  k_maxTokens : Z;
  k_temperature : option Q;
  k_topK : option Z;
  k_topP : option Q
}.

(** [`engine_${i}`] *)
Definition engineName (i : nat) : string :=
  String.append "engine_" (NilEmpty.string_of_uint (Nat.to_uint i)).

Section Coordinator.
(** [JSON.stringify], a deterministic function of the object it is given. *)
Variable stringify : CacheKeyObject -> string.

Definition getCacheKey (r : InferenceRequest) : string :=
  stringify {| k_prompt := prompt r; k_maxTokens := maxTokens r;
               k_temperature := temperature r; k_topK := topK r;
               k_topP := topP r |}.

(** One turn of the loop of [initialize]: engine [i] is created, loaded and
    recorded as idle ([now] is the clock at that point). *)
Definition addEngine (modelPath : string) (now : Z) (i : nat) (st : State)
  : State :=
  {| config := config st;
     engines := map_set (engineName i) i (engines st);
     engineStatus :=
       map_set (engineName i)
               {| es_id := engineName i; modelName := modelPath;
                  status := idle; currentJob := None; processedJobs := 0;
                  averageLatency := 0; lastActive := now |}
               (engineStatus st);
     jobQueue := jobQueue st; responseCache := responseCache st;
     metrics := metrics st; isRunning := isRunning st |}.

Definition initialize (modelPath : string) (engineCount : Z) (now : Z)
           (st : State) : State :=
  let count := Z.min engineCount (maxEngines (config st)) in
  let st' := fold_left (fun s i => addEngine modelPath now i s)
                       (seq 0 (Z.to_nat count)) st in
  {| config := config st'; engines := engines st';
     engineStatus := engineStatus st'; jobQueue := jobQueue st';
     responseCache := responseCache st'; metrics := metrics st';
     isRunning := true |}.

(** [this.engines.get(id) || null] *)
Definition engineOf (st : State) (id : string) : option Engine :=
  map_get id (engines st).

Fixpoint findRoundRobin_loop (st : State) (es : Map EngineStatus)
  : option Engine :=
  match es with
  | [] => None
  | (id, s) :: r =>
      match status s with
      | idle => engineOf st id
      | _ => findRoundRobin_loop st r
      end
  end.

Definition findRoundRobin (st : State) : option Engine :=
  findRoundRobin_loop st (engineStatus st).

(** [lowestLoad] starts at [Infinity], here [None]. *)
Definition findLeastLoaded (st : State) : option Engine :=
  snd (fold_left
         (fun acc e =>
            match status (snd e) with
            | idle =>
                let load := processedJobs (snd e) in
                match fst acc with
                | Some lowest =>
                    if (load <? lowest)%Z
                    then (Some load, engineOf st (fst e)) else acc
                | None => (Some load, engineOf st (fst e))
                end
            | _ => acc
            end)
         (engineStatus st) (None, None)).

Definition findByPriority (st : State) : option Engine :=
  snd (fold_left
         (fun acc e =>
            match status (snd e) with
            | idle =>
                let lat := averageLatency (snd e) in
                match fst acc with
                | Some lowest =>
                    if Qlt_bool lat lowest
                    then (Some lat, engineOf st (fst e)) else acc
                | None => (Some lat, engineOf st (fst e))
                end
            | _ => acc
            end)
         (engineStatus st) (None, None)).

Definition findAvailableEngine (st : State) : option Engine :=
  match loadBalancing (config st) with
  | round_robin => findRoundRobin st
  | least_loaded => findLeastLoaded st
  | by_priority => findByPriority st
  end.

Fixpoint getEngineId_loop (e : Engine) (es : Map Engine) : string :=
  match es with
  | [] => EmptyString
  | (id, e') :: r => if Nat.eqb e' e then id else getEngineId_loop e r
  end.

Definition getEngineId (st : State) (e : Engine) : string :=
  getEngineId_loop e (engines st).

Definition updateEngineStatus (engineId : string) (s : EngineState)
           (jobId : option string) (now : Z) (st : State) : State :=
  match map_get engineId (engineStatus st) with
  | Some es =>
      with_engineStatus
        (map_set engineId
                 {| es_id := es_id es; modelName := modelName es;
                    status := s; currentJob := jobId;
                    processedJobs := processedJobs es;
                    averageLatency := averageLatency es;
                    lastActive := now |}
                 (engineStatus st))
        st
  | None => st
  end.

Definition cacheResponse (r : InferenceRequest) (resp : InferenceResponse)
           (now : Z) (st : State) : State :=
  let key := getCacheKey r in
  let cache :=
    if (cacheSize (config st) <=? map_size (responseCache st))%Z
    then match map_keys (responseCache st) with
         | oldestKey :: _ =>
             if String.eqb oldestKey EmptyString then responseCache st
             else map_delete oldestKey (responseCache st)
         | [] => responseCache st
         end
    else responseCache st in
  with_cache (map_set key {| response := resp; cached_at := now |} cache) st.

(** [executeJob] up to its [await engine.infer(...)]. *)
Definition executeJobStart (job : InferenceJob) (e : Engine) (now : Z)
           (st : State) : State :=
  updateEngineStatus (getEngineId st e) processing (Some (job_id job)) now st.

(** [executeJob] once [engine.infer] has resolved with [resp]; [latency] is
    the measured [Date.now() - startTime] and [now] the clock afterwards. *)
Definition executeJobResolved (job : InferenceJob) (e : Engine)
           (resp : InferenceResponse) (latency now : Z) (st : State)
  : State :=
  let engineId := getEngineId st e in
  let m := metrics st in
  let total := (completedJobs m + 1)%Z in
  let st1 :=
    with_metrics
      {| totalJobs := totalJobs m; completedJobs := total;
         failedJobs := failedJobs m; cacheHits := cacheHits m;
         cacheMisses := cacheMisses m;
         m_averageLatency :=
           (m_averageLatency m * inject_Z (total - 1) + inject_Z latency)
           / inject_Z total;
         m_tokensPerSecond :=
           (m_tokensPerSecond m * inject_Z (total - 1) + tokensPerSecond resp)
           / inject_Z total |} st in
  let st2 :=
    match map_get engineId (engineStatus st1) with
    | Some es =>
        let n := (processedJobs es + 1)%Z in
        with_engineStatus
          (map_set engineId
                   {| es_id := es_id es; modelName := modelName es;
                      status := status es; currentJob := currentJob es;
                      processedJobs := n;
                      averageLatency :=
                        (averageLatency es * inject_Z (n - 1)
                         + inject_Z latency) / inject_Z n;
                      lastActive := lastActive es |}
                   (engineStatus st1))
          st1
    | None => st1
    end in
  let st3 :=
    if enableCaching (config st2)
    then cacheResponse (request job) resp now st2 else st2 in
  updateEngineStatus engineId idle None now st3.

(** [executeJob] once [engine.infer] has thrown. *)
Definition executeJobRejected (job : InferenceJob) (e : Engine) (now : Z)
           (st : State) : State :=
  let m := metrics st in
  updateEngineStatus (getEngineId st e) idle None now
    (with_metrics
       {| totalJobs := totalJobs m; completedJobs := completedJobs m;
          failedJobs := (failedJobs m + 1)%Z; cacheHits := cacheHits m;
          cacheMisses := cacheMisses m;
          m_averageLatency := m_averageLatency m;
          m_tokensPerSecond := m_tokensPerSecond m |} st).

(** [enqueueJob]: in front of the first queued job of lower priority. *)
Fixpoint enqueueJob_loop (job : InferenceJob) (q : list InferenceJob)
  : list InferenceJob :=
  match q with
  | [] => [job]
  | j :: r => if (priority j <? priority job)%Z then job :: j :: r
              else j :: enqueueJob_loop job r
  end.

Definition enqueueJob (job : InferenceJob) (st : State) : State :=
  with_jobQueue (enqueueJob_loop job (jobQueue st)) st.

(** How a call of [submit] proceeds before it first suspends. *)
Inductive SubmitOutcome :=
| CacheHit (resp : InferenceResponse)       (* returns the cached response *)
| Dispatched (job : InferenceJob) (e : Engine) (* awaits [engine.infer] *)
| Queued (job : InferenceJob).              (* awaits the queue *)

Definition ttl : Z := 300000.

Definition bumpHits (st : State) : State :=
  let m := metrics st in
  with_metrics
    {| totalJobs := totalJobs m; completedJobs := completedJobs m;
       failedJobs := failedJobs m; cacheHits := (cacheHits m + 1)%Z;
       cacheMisses := cacheMisses m;
       m_averageLatency := m_averageLatency m;
       m_tokensPerSecond := m_tokensPerSecond m |} st.

Definition bumpMisses (st : State) : State :=
  let m := metrics st in
  with_metrics
    {| totalJobs := totalJobs m; completedJobs := completedJobs m;
       failedJobs := failedJobs m; cacheHits := cacheHits m;
       cacheMisses := (cacheMisses m + 1)%Z;
       m_averageLatency := m_averageLatency m;
       m_tokensPerSecond := m_tokensPerSecond m |} st.

Definition bumpTotal (st : State) : State :=
  let m := metrics st in
  with_metrics
    {| totalJobs := (totalJobs m + 1)%Z; completedJobs := completedJobs m;
       failedJobs := failedJobs m; cacheHits := cacheHits m;
       cacheMisses := cacheMisses m;
       m_averageLatency := m_averageLatency m;
       m_tokensPerSecond := m_tokensPerSecond m |} st.

(** The fresh cache entry [submit] would return for [r] at time [now]. *)
Definition cachedFor (r : InferenceRequest) (now : Z) (st : State)
  : option InferenceResponse :=
  if enableCaching (config st) then
    match map_get (getCacheKey r) (responseCache st) with
    | Some cached =>
        if (now - cached_at cached <? ttl)%Z then Some (response cached)
        else None
    | None => None
    end
  else None.

(** [submit(request, priority)]: [jobId] is the identifier [generateId()]
    produces, [now] the clock. *)
Definition submit (r : InferenceRequest) (prio : Z) (jobId : string)
           (now : Z) (st : State) : SubmitOutcome * State :=
  match cachedFor r now st with
  | Some resp => (CacheHit resp, bumpHits st)
  | None =>
      let st1 := if enableCaching (config st) then bumpMisses st else st in
      let job := {| job_id := jobId; request := r; priority := prio;
                    createdAt := now |} in
      let st2 := bumpTotal st1 in
      match findAvailableEngine st2 with
      | Some e => (Dispatched job e, executeJobStart job e now st2)
      | None => (Queued job, enqueueJob job st2)
      end
  end.
End Coordinator.

End Inference.

(** ** AgentNetworkCoordinator (agent network coordinator) *)

Module Network.
Import JS.

Inductive Urgency := u_low | u_medium | u_high | u_critical.

(** [{ critical: 4, high: 3, medium: 2, low: 1 }] *)
Definition urgencyOrder (u : Urgency) : Z :=
  match u with
  | u_critical => 4
  | u_high => 3
  | u_medium => 2
  | u_low => 1
  end.

(** The [type] and the [metadata] of a message are left out: the queue does
    not look at them. *)
Record AgentMessage := {
  msg_id : string;
  fromAgent : string;
  toAgent : string;
  content : string;
  timestamp : Z;
  urgency : Urgency
}.

(** An agent is known to the network by its [id]; what its [receiveMessage]
    does is given by [Reaction] below. *)
Record Agent := { agent_id : string }.

(** The event history and the shared knowledge are write-only for the queue
    and are left out. *)
Record State := {
  agents : Map Agent;
  messageQueue : list AgentMessage;
  isProcessing : bool
}.

Definition registerAgent (a : Agent) (st : State) : State :=
  {| agents := map_set (agent_id a) a (agents st);
     messageQueue := messageQueue st; isProcessing := isProcessing st |}.

Definition queueMessage (m : AgentMessage) (st : State) : State :=
  {| agents := agents st; messageQueue := messageQueue st ++ [m];
     isProcessing := isProcessing st |}.

Definition with_toAgent (id : string) (m : AgentMessage) : AgentMessage :=
  {| msg_id := msg_id m; fromAgent := fromAgent m; toAgent := id;
     content := content m; timestamp := timestamp m; urgency := urgency m |}.

(** What an awaited [receiveMessage] does to the coordinator: the messages
    the agent passes to [broadcastMessage] while it handles the message, and
    whether the call then throws. *)
Record Reaction := {
  broadcasts : list AgentMessage;
  throws : bool
}.

(** A delivery: the agent whose [receiveMessage] was called, and with what. *)
Definition Delivery := (string * AgentMessage)%type.

(** The calls of [receiveMessage] one queued message leads to. *)
Definition fanout (st : State) (m : AgentMessage) : list Delivery :=
  if String.eqb (toAgent m) "all" then
    flat_map (fun a => if negb (String.eqb (agent_id a) (fromAgent m))
                       then [(agent_id a, with_toAgent (agent_id a) m)]
                       else [])
             (map_values (agents st))
  else
    match map_get (toAgent m) (agents st) with
    | Some target => [(agent_id target, m)]
    | None => []
    end.

Definition byUrgency (a b : AgentMessage) : Q :=
  inject_Z (urgencyOrder (urgency b) - urgencyOrder (urgency a)).

Section Handlers.
(** What the agents remember from one call of [receiveMessage] to the
    next. *)
Variable World : Type.
Variable receiveMessage :
  World -> string -> AgentMessage -> World * Reaction.

(** What a run leaves: the agents' memory, the coordinator and the calls of
    [receiveMessage] made, in order. *)
Definition Run := (World * State * list Delivery)%type.

Section Loop.
(** [processMessageQueue] as the handlers reach it through
    [broadcastMessage]; [None] when the call budget is used up. *)
Variable processMessageQueue_rec : World -> State -> option Run.

Definition broadcastMessage_in (m : AgentMessage) (w : World) (st : State)
  : option Run :=
  processMessageQueue_rec w (queueMessage m st).

Fixpoint runBroadcasts (ms : list AgentMessage) (w : World) (st : State)
  : option Run :=
  match ms with
  | [] => Some (w, st, [])
  | m :: r =>
      match broadcastMessage_in m w st with
      | None => None
      | Some (w1, st1, log1) =>
          match runBroadcasts r w1 st1 with
          | None => None
          | Some (w2, st2, log2) => Some (w2, st2, log1 ++ log2)
          end
      end
  end.

(** The deliveries of the loop body in order; the boolean tells whether
    a [receiveMessage] threw, which ends the loop. *)
Fixpoint deliverAll (ds : list Delivery) (w : World) (st : State)
  : option (Run * bool) :=
  match ds with
  | [] => Some (w, st, [], false)
  | d :: r =>
      let (w0, reaction) := receiveMessage w (fst d) (snd d) in
      match runBroadcasts (broadcasts reaction) w0 st with
      | None => None
      | Some (w1, st1, log1) =>
          if throws reaction then Some (w1, st1, d :: log1, true)
          else
            match deliverAll r w1 st1 with
            | None => None
            | Some (w2, st2, log2, thrown) =>
                Some (w2, st2, d :: log1 ++ log2, thrown)
            end
      end
  end.

Fixpoint dispatchLoop (sortedMessages : list AgentMessage) (w : World)
         (st : State) : option (Run * bool) :=
  match sortedMessages with
  | [] => Some (w, st, [], false)
  | m :: r =>
      match deliverAll (fanout st m) w st with
      | None => None
      | Some (w1, st1, log1, true) => Some (w1, st1, log1, true)
      | Some (w1, st1, log1, false) =>
          match dispatchLoop r w1 st1 with
          | None => None
          | Some (w2, st2, log2, thrown) =>
              Some (w2, st2, log1 ++ log2, thrown)
          end
      end
  end.
End Loop.

(** [processMessageQueue]: what the call leaves.  [fuel] bounds the depth of
    calls of [processMessageQueue] from within handlers. *)
Fixpoint processMessageQueue (fuel : nat) (w : World) (st : State)
  : option Run :=
  match fuel with
  | O => None
  | S fuel' =>
      if isProcessing st || (length (messageQueue st) =? 0)%nat
      then Some (w, st, [])
      else
        let sortedMessages := sort byUrgency (messageQueue st) in
        let st1 := {| agents := agents st; messageQueue := [];
                      isProcessing := true |} in
        match dispatchLoop (processMessageQueue fuel') sortedMessages w st1
        with
        | None => None
        | Some (w2, st2, log, _) =>
            Some (w2,
                  {| agents := agents st2; messageQueue := messageQueue st2;
                     isProcessing := false |}, log)
        end
  end.

Definition broadcastMessage (fuel : nat) (m : AgentMessage) (w : World)
           (st : State) : option Run :=
  processMessageQueue fuel w (queueMessage m st).
End Handlers.

End Network.

(** ** Coordinator: invariant, runs and the selection rule of the specification *)

Module CoordinatorSpec.
Import JS Coordinator.

(** The idle and the active set split the registered agents. *)
Definition partitioned (c : State) : Prop :=
  let p := agentPool c in
  (forall id, In id (idleAgents p) -> ~ In id (activeAgents p))
  /\ (forall id, In id (idleAgents p) \/ In id (activeAgents p)
                 <-> In id (map_keys (agents p))).

(** Every agent is stored under its own [id]. *)
Definition keyed (c : State) : Prop :=
  forall k a, In (k, a) (agents (agentPool c)) -> agent_id a = k.

Definition started (d : option (Agent * Task)) : list string :=
  match d with
  | Some (a, _) => [agent_id a]
  | None => []
  end.

Fixpoint remove_first (id : string) (l : list string) : list string :=
  match l with
  | [] => []
  | x :: r => if String.eqb id x then r else x :: remove_first id r
  end.

(** [reachable c running]: the coordinator can be in state [c] between two
    turns, [running] being the agents whose [executeTask] is pending.  An
    agent is registered only while it is not active and unregistered only
    while it runs no task.  An execution ends counted as completed or failed,
    or uncounted. *)
Inductive reachable : State -> list string -> Prop :=
| reach_new n : reachable (new n) []
| reach_register c running a :
    reachable c running ->
    ~ In (agent_id a) (activeAgents (agentPool c)) ->
    reachable (registerAgent a c) running
| reach_unregister c running id :
    reachable c running ->
    ~ In id running ->
    reachable (unregisterAgent id c) running
| reach_submit c running t p :
    reachable c running ->
    reachable (fst (submitTask t p c))
              (started (snd (submitTask t p c)) ++ running)
| reach_finish c running ok id :
    reachable c running ->
    In id running ->
    reachable (fst (finishTask ok id c))
              (started (snd (finishTask ok id c)) ++ remove_first id running)
| reach_uncounted c running id :
    reachable c running ->
    In id running ->
    reachable (fst (finishTaskUncounted id c))
              (started (snd (finishTaskUncounted id c))
               ++ remove_first id running).

(** What holds of every reachable state together with the agents running. *)
Definition coherent (c : State) (running : list string) : Prop :=
  partitioned c /\ keyed c
  /\ forall id, In id running -> In id (map_keys (agents (agentPool c))).

(** The confidences and utilizations the idle agents are scored with lie
    between 0 and 1, so that no score leaves the range of binary64. *)
Definition unitRange (c : State) : Prop :=
  forall a, In a (availableAgents c) ->
    (forall cap, In cap (capabilities a) -> 0 <= cap_confidence cap <= 1)
    /\ 0 <= utilization c a <= 1.

(** Idle agents in the order of their registration. *)
Definition idleByRegistration (c : State) : list Agent :=
  filter (fun a => set_has (agent_id a) (idleAgents (agentPool c)))
         (map_values (agents (agentPool c))).

(** The selection rule as the specification words it: the highest
    non-negative score wins, the earliest registered agent on a tie. *)
Definition specSelectAgent (c : State) (t : Task) : option Agent :=
  fold_left
    (fun best a =>
       if Qle_bool 0 (agentScore c t a) then
         match best with
         | None => Some a
         | Some b => if Qlt_bool (agentScore c t b) (agentScore c t a)
                     then Some a else best
         end
       else best)
    (idleByRegistration c) None.

(** Agents and tasks of the scenarios. *)
Definition skilled (id : string) (conf : Q) : Agent :=
  {| agent_id := id;
     capabilities := [{| cap_name := "x"; cap_confidence := conf |}] |}.

Definition agentA : Agent := skilled "A" (9 # 10).
Definition agentB : Agent := skilled "B" (9 # 10).
Definition agentZ : Agent := skilled "Z" 0.

Definition needs_x (id : string) : Task :=
  {| task_id := id; requiredSkills := ["x"%string] |}.

(** Two agents for a task that needs x and y: the confidences 0.1 and 0.2 of
    the first add up, in binary64, to the 0.30000000000000004 of the
    second. *)
Definition addsUp : Agent :=
  {| agent_id := "P";
     capabilities :=
       [{| cap_name := "x"; cap_confidence := Binary64.literal (1 # 10) |};
        {| cap_name := "y"; cap_confidence := Binary64.literal (2 # 10) |}] |}.

Definition holdsSum : Agent :=
  {| agent_id := "R";
     capabilities :=
       [{| cap_name := "x";
           cap_confidence :=
             Binary64.literal (30000000000000004 # 100000000000000000) |};
        {| cap_name := "y"; cap_confidence := 0 |}] |}.

Definition needs_xy (id : string) : Task :=
  {| task_id := id; requiredSkills := ["x"; "y"]%string |}.

(** Agent A is busy with [t0] when a medium and then a high task arrive. *)
Definition busyA : State :=
  fst (submitTask (needs_x "t0") medium (registerAgent agentA (new 10))).

Definition queuedBehind : State :=
  fst (submitTask (needs_x "h1") high
         (fst (submitTask (needs_x "m1") medium busyA))).

(** A and B registered in this order; A has run a task and is idle again. *)
Definition afterOneTask : State :=
  fst (finishTask true "A"
         (fst (submitTask (needs_x "t0") medium
                 (registerAgent agentB (registerAgent agentA (new 10)))))).

End CoordinatorSpec.

(** ** Memory store: invariants, runs and the ranking of the specification *)

Module MemorySpec.
Import JS Binary64 MemoryManager.

(** Every record is stored under its own [id]. *)
Definition keyed (st : State) : Prop :=
  forall k m, In (k, m) (memories st) -> mem_id m = k.

(** A [Map] holds one entry per key. *)
Definition unique (st : State) : Prop := NoDup (map_keys (memories st)).



(** The records [evictLeastRelevant] removes. *)
Definition victims (now : Z) (st : State) : list Memory :=
  map fst (toRemove now st).

(** The entries [evictLeastRelevant] leaves when it removes [ids]. *)
Definition survives (ids : list string) (e : string * Memory) : bool :=
  negb (existsb (fun id => String.eqb id (fst e)) ids).


Section SpecRanking.
Variable generateEmbedding : string -> list Q.
Variable cosineSimilarity : list Q -> list Q -> Q.
Variable keywordSimilarity : string -> string -> Q.
Variable log : Z -> Q.


End SpecRanking.




(** The records and helper values of the scenarios: two records without
    embedding, so that the keyword overlap is used; the query shares no word
    with either. *)
Definition plain (id text : string) (ts ac : Z) : Memory :=
  {| mem_id := id; mem_type := fact; content := text; embedding := None;
     metadata := {| source := "test"; context := []; tags := [];
                    relatedMemories := []; confidence := 1 |};
     timestamp := ts; accessCount := ac; relevanceScore := 1 # 2 |}.

Definition clock : Z := 86400000.
Definition fresh : Memory := plain "m1" "alpha" clock 0.
Definition older : Memory := plain "m2" "beta" (clock - 21600000) 1.

Definition noEmbedding (text : string) : list Q := [].
Definition noCosine (a b : list Q) : Q := 0.
(** Two records whose scores tie in binary64: a similarity of 1/12, two
    days old, and a similarity of 1/10, five days old. *)
Definition twelfth : Memory := plain "f" "twelfth" (clock - 2 * msPerDay) 0.
Definition tenth : Memory := plain "g" "tenth" (clock - 5 * msPerDay) 0.

Definition shares (query text : string) : Q :=
  if String.eqb text "twelfth" then Binary64.literal (1 # 12)
  else Binary64.literal (1 # 10).

(** [Math.log] at the counts that occur: [Math.log(1)] is 0 and
    [Math.log(2)] the binary64 number 0.6931471805599453. *)
Definition logTable (n : Z) : Q :=
  if (n =? 2)%Z then 6243314768165359 # 9007199254740992 else 0.

Definition someInput (text : string) : MemoryInput :=
  {| in_type := fact; in_content := text; in_embedding := None;
     in_metadata := {| source := "test"; context := []; tags := [];
                       relatedMemories := []; confidence := 1 |};
     in_relevanceScore := 1 # 2 |}.






End MemorySpec.

(** ** Inference coordinator: completed calls and scenario data *)

Module InferenceSpec.
Import JS Inference.

Section Completion.
Variable stringify : CacheKeyObject -> string.

(** [completed r resp tc st]: in state [st] a call [submit(r)] has just
    completed with the response [resp], which was put into the cache at time
    [tc]: either the call was answered from the cache, or its job was run by
    an engine and [executeJob] has finished. *)
Inductive completed (r : InferenceRequest) (resp : InferenceResponse)
          (tc : Z) : State -> Prop :=
| completed_from_cache st0 prio jobId now cached :
    map_get (getCacheKey stringify r) (responseCache st0) = Some cached ->
    response cached = resp ->
    cached_at cached = tc ->
    fst (submit stringify r prio jobId now st0) = CacheHit resp ->
    completed r resp tc (snd (submit stringify r prio jobId now st0))
| completed_by_engine st0 job e latency :
    request job = r ->
    completed r resp tc
              (executeJobResolved stringify job e resp latency tc st0).
(** The cache holds for [r] the response [resp], put there at time [tc]. *)
Definition remembers (r : InferenceRequest) (resp : InferenceResponse)
           (tc : Z) (st : State) : Prop :=
  map_get (getCacheKey stringify r) (responseCache st)
  = Some {| response := resp; cached_at := tc |}.
End Completion.

(** The next response cached drops the entry under [key]: the cache is full
    and the entry is its oldest. *)
Definition atRisk (key : string) (st : State) : Prop :=
  (cacheSize (config st) <= map_size (responseCache st))%Z
  /\ hd_error (map_keys (responseCache st)) = Some key.

(** The processed-job counts of the engines, in registration order. *)
Definition processedCounts (st : State) : list (string * Z) :=
  map (fun p => (fst p, processedJobs (snd p))) (engineStatus st).

(** Scenario data: the cache key is taken to be the prompt followed by the
    token limit. *)
Definition promptKey (k : CacheKeyObject) : string :=
  String.append (k_prompt k)
    (String.append ":" (NilEmpty.string_of_int (Z.to_int (k_maxTokens k)))).

Definition ask (text : string) : InferenceRequest :=
  {| prompt := text; maxTokens := 64; stopSequences := None;
     temperature := None; topK := None; topP := None; stream := None |}.

Definition answer (text : string) : InferenceResponse :=
  {| text := text; tokens := 3; tokensPerSecond := 10;
     finishReason := fr_stop |}.

Definition roundRobin3 : CoordinatorConfig :=
  {| maxEngines := 3; loadBalancing := round_robin; enableCaching := true;
     cacheSize := 1000 |}.

Definition threeIdle : State :=
  initialize "model.gguf" 3 0 (new roundRobin3).

Definition jobFor (r : InferenceRequest) (prio : Z) (jobId : string)
           (now : Z) : InferenceJob :=
  {| job_id := jobId; request := r; priority := prio; createdAt := now |}.

(** The engine record once a job has been handed to the engine. *)
Definition busyWith (jobId : string) (now : Z) (es : EngineStatus)
  : EngineStatus :=
  {| es_id := es_id es; modelName := modelName es; status := processing;
     currentJob := Some jobId; processedJobs := processedJobs es;
     averageLatency := averageLatency es; lastActive := now |}.

(** Job j1 for the request "a" has been run by engine 0 and its response
    cached at time 30. *)
Definition answeredOnce : State :=
  executeJobResolved promptKey (jobFor (ask "a") 5 "j1" 1) 0%nat
    (answer "ok") 20 30
    (snd (submit promptKey (ask "a") 5 "j1" 1 threeIdle)).

(** A cache with room for one response: "a" and "b" are submitted and run by
    engines 0 and 1; "a" is answered at time 30, "b" at time 40. *)
Definition oneSlot : CoordinatorConfig :=
  {| maxEngines := 3; loadBalancing := round_robin; enableCaching := true;
     cacheSize := 1 |}.

Definition twoPending : State :=
  snd (submit promptKey (ask "b") 5 "j2" 2
         (snd (submit promptKey (ask "a") 5 "j1" 1
                 (initialize "model.gguf" 3 0 (new oneSlot))))).

Definition aAnswered : State :=
  executeJobResolved promptKey (jobFor (ask "a") 5 "j1" 1) 0%nat
    (answer "ok") 20 30 twoPending.

Definition bAnswered : State :=
  executeJobResolved promptKey (jobFor (ask "b") 5 "j2" 2) 1%nat
    (answer "fine") 20 40 aAnswered.

End InferenceSpec.

(** ** Message router: derived notions and scenario data *)

Module NetworkSpec.
Import JS Network.

(** The state once [ms] have been appended to the queue. *)
Definition enqueued (ms : list AgentMessage) (st : State) : State :=
  {| agents := agents st; messageQueue := messageQueue st ++ ms;
     isProcessing := isProcessing st |}.

(** The agents' memory after the deliveries [ds] and the messages broadcast
    in their course, in order. *)
Fixpoint repliesAlong (World : Type)
         (receiveMessage : World -> string -> AgentMessage -> World * Reaction)
         (ds : list Delivery) (w : World) : World * list AgentMessage :=
  match ds with
  | [] => (w, [])
  | d :: r =>
      let (w1, reaction) := receiveMessage w (fst d) (snd d) in
      let (w2, ms) := repliesAlong receiveMessage r w1 in
      (w2, broadcasts reaction ++ ms)
  end.


Definition note (id from to text : string) (u : Urgency) : AgentMessage :=
  {| msg_id := id; fromAgent := from; toAgent := to; content := text;
     timestamp := 0; urgency := u |}.



Definition twoAgents : State :=
  {| agents := [("a1"%string, {| agent_id := "a1" |});
                ("a2"%string, {| agent_id := "a2" |})];
     messageQueue := [note "m1" "a2" "a1" "hello" u_low;
                      note "m2" "a1" "all" "ping" u_critical];
     isProcessing := false |}.

End NetworkSpec.

(** ** Cache (app/utils/cache.ts) *)

Module ResultCache.
Import JS.

Section Cache.
Variable T : Type.

Record CacheEntry := {
  value : T;
  timestamp : Z;
  accessCount : Z;
  lastAccessed : Z
}.

(** [persistent] is an argument of [create] below: the storage is only
    written to, except by the constructor.  [onEvict] is kept as the list of
    its calls. *)
Record CacheOptions := {
  ttl : Z;
  maxSize : Z
}.

Record State := {
  cache : Map CacheEntry;
  options : CacheOptions;
  evictions : list (string * T)          (* the calls of [onEvict], in order *)
}.

(** The cache the constructor builds before it looks at the storage. *)
Definition new (opts : CacheOptions) : State :=
  {| cache := []; options := opts; evictions := [] |}.

Definition with_cache (c : Map CacheEntry) (st : State) : State :=
  {| cache := c; options := options st; evictions := evictions st |}.

Definition isExpired (now : Z) (st : State) (e : CacheEntry) : bool :=
  (ttl (options st) <? now - timestamp e)%Z.

(** [loadFromStorage()]: [stored] is the array of entries parsed from the
    storage, empty when there is none; the entries that have not expired are
    put into the map, however many they are.  The clock is read for every
    entry and the readings are taken to be the same. *)
Definition loadFromStorage (stored : list (string * CacheEntry)) (now : Z)
           (st : State) : State :=
  fold_left
    (fun s e => if isExpired now s (snd e) then s
                else with_cache (map_set (fst e) (snd e) (cache s)) s)
    stored st.

(** [new Cache(name, options)] with the option [persistent]. *)
Definition create (persistent : bool) (opts : CacheOptions)
           (stored : list (string * CacheEntry)) (now : Z) : State :=
  if persistent then loadFromStorage stored now (new opts) else new opts.

(** [delete(key)]: the result of [cache.delete(key)] and the new state. *)
Definition delete (key : string) (st : State) : bool * State :=
  match map_get key (cache st) with
  | Some entry =>
      (true, {| cache := map_delete key (cache st); options := options st;
                evictions := evictions st ++ [(key, value entry)] |})
  | None => (false, st)
  end.

(** The loop of [evictLRU]: [oldestTime] starts at [Infinity], here [None]. *)
Fixpoint oldest_loop (es : Map CacheEntry) (oldestKey : option string)
         (oldestTime : option Z) : option string :=
  match es with
  | [] => oldestKey
  | (key, entry) :: r =>
      match oldestTime with
      | Some t =>
          if (lastAccessed entry <? t)%Z
          then oldest_loop r (Some key) (Some (lastAccessed entry))
          else oldest_loop r oldestKey oldestTime
      | None => oldest_loop r (Some key) (Some (lastAccessed entry))
      end
  end.

(** [if (oldestKey)] fails for [null] and for the empty string. *)
Definition evictLRU (st : State) : State :=
  match oldest_loop (cache st) None None with
  | Some key => if String.eqb key EmptyString then st else snd (delete key st)
  | None => st
  end.

(** [set] reads the clock for [timestamp] and again for [lastAccessed], [get]
    for the expiry test and again for [lastAccessed]: the two readings of a
    call are taken to be the same. *)
Definition set (key : string) (v : T) (now : Z) (st : State) : State :=
  let st1 := if (maxSize (options st) <=? map_size (cache st))%Z
             then evictLRU st else st in
  with_cache (map_set key {| value := v; timestamp := now; accessCount := 0;
                             lastAccessed := now |} (cache st1)) st1.

Definition get (key : string) (now : Z) (st : State) : option T * State :=
  match map_get key (cache st) with
  | None => (None, st)
  | Some entry =>
      if isExpired now st entry then (None, snd (delete key st))
      else (Some (value entry),
            with_cache (map_set key {| value := value entry;
                                       timestamp := timestamp entry;
                                       accessCount := accessCount entry + 1;
                                       lastAccessed := now |} (cache st)) st)
  end.

Definition has (key : string) (now : Z) (st : State) : bool * State :=
  match map_get key (cache st) with
  | None => (false, st)
  | Some entry =>
      if isExpired now st entry then (false, snd (delete key st))
      else (true, st)
  end.

Definition clear (st : State) : State :=
  {| cache := []; options := options st;
     evictions := evictions st
                  ++ map (fun e => (fst e, value (snd e))) (cache st) |}.

(** [prune()]: the loop runs over the entries and deletes the expired ones
    as it meets them; the result counts them. *)
Definition prune (now : Z) (st : State) : Z * State :=
  fold_left
    (fun acc e =>
       if (ttl (options st) <? now - timestamp (snd e))%Z
       then ((fst acc + 1)%Z, snd (delete (fst e) (snd acc)))
       else acc)
    (cache st) (0%Z, st).

(** The calls a user of the cache can make. *)
Inductive Op :=
| OpSet (key : string) (v : T) (now : Z)
| OpGet (key : string) (now : Z)
| OpHas (key : string) (now : Z)
| OpDelete (key : string)
| OpPrune (now : Z)
| OpClear.

Definition step (st : State) (op : Op) : State :=
  match op with
  | OpSet key v now => set key v now st
  | OpGet key now => snd (get key now st)
  | OpHas key now => snd (has key now st)
  | OpDelete key => snd (delete key st)
  | OpPrune now => snd (prune now st)
  | OpClear => clear st
  end.

Definition run (ops : list Op) (st : State) : State := fold_left step ops st.

(** What the size bound needs of a state: it is within the bound and holds
    no entry under the empty key. *)
Definition bounded (st : State) : Prop :=
  (map_size (cache st) <= maxSize (options st))%Z
  /\ ~ In EmptyString (map_keys (cache st)).

(** A [set] under the empty key, which [evictLRU] cannot evict. *)
Definition setsEmptyKey (op : Op) : bool :=
  match op with
  | OpSet key _ _ => String.eqb key EmptyString
  | _ => false
  end.

(** A lookup or an insertion under another key than [key]. *)
Definition besides (key : string) (op : Op) : bool :=
  match op with
  | OpSet k _ _ | OpGet k _ | OpHas k _ => negb (String.eqb k key)
  | OpDelete _ | OpPrune _ | OpClear => false
  end.
End Cache.

(** [executeTask] of the coordinator, which keeps the outputs of tasks in a
    cache with a lifetime of ten minutes and room for a hundred entries:
    [outcome] is what the agent's perceive, reason and act chain gives when
    it is run ([None] when it throws); [now] and [now'] are the clock at the
    lookup and at the insertion.  The result tells whether the agent was
    run. *)
Definition coordinationOptions : CacheOptions :=
  {| ttl := 600000; maxSize := 100 |}.

Definition taskKey (taskId : string) : string :=
  String.append "task_" taskId.

Inductive Execution := Skipped | Completed | Threw.

Definition executeTask (Output : Type) (taskId : string)
           (outcome : option Output) (now now' : Z) (st : State Output)
  : Execution * State Output :=
  match has (taskKey taskId) now st with
  | (true, st1) => (Skipped, st1)
  | (false, st1) =>
      match outcome with
      | Some output => (Completed, set (taskKey taskId) output now' st1)
      | None => (Threw, st1)
      end
  end.

End ResultCache.

(** ** Accounts of the coordinator *)

Module CoordinatorAccounts.
Import JS Coordinator CoordinatorSpec.

(** The tasks waiting in the three tiers, the sum of what [getQueueStatus]
    reports. *)
Definition waiting (c : State) : Z :=
  (Z.of_nat (length (q_high (taskQueue c)))
   + Z.of_nat (length (q_medium (taskQueue c)))
   + Z.of_nat (length (q_low (taskQueue c))))%Z.

(** The agents whose [executeTask] is pending are the active ones, the keys
    of [busyAgents], and each of them runs one task. *)
Definition exclusive (c : State) (running : list string) : Prop :=
  NoDup running
  /\ (forall id, In id running <-> In id (activeAgents (agentPool c)))
  /\ (forall id, In id running <-> In id (map_keys (busyAgents (agentPool c))))
  /\ (forall id n, In (id, n) (busyAgents (agentPool c)) -> n = 1%Z).

(** The invariant behind the bound on concurrent tasks. *)
Definition metered (c : State) (running : list string) : Prop :=
  exclusive c running
  /\ (map_size (busyAgents (agentPool c))
      <= Z.max 0 (maxConcurrentTasks c))%Z.

(** [ledger c running lost]: the state [c] is reached, with [running], by a
    run in which [lost] executions ended uncounted. *)
Inductive ledger : State -> list string -> Z -> Prop :=
| ledger_new n : ledger (new n) [] 0
| ledger_register c running lost a :
    ledger c running lost ->
    ~ In (agent_id a) (activeAgents (agentPool c)) ->
    ledger (registerAgent a c) running lost
| ledger_unregister c running lost id :
    ledger c running lost ->
    ~ In id running ->
    ledger (unregisterAgent id c) running lost
| ledger_submit c running lost t p :
    ledger c running lost ->
    ledger (fst (submitTask t p c))
           (started (snd (submitTask t p c)) ++ running) lost
| ledger_finish c running lost ok id :
    ledger c running lost ->
    In id running ->
    ledger (fst (finishTask ok id c))
           (started (snd (finishTask ok id c)) ++ remove_first id running)
           lost
| ledger_uncounted c running lost id :
    ledger c running lost ->
    In id running ->
    ledger (fst (finishTaskUncounted id c))
           (started (snd (finishTaskUncounted id c))
            ++ remove_first id running)
           (lost + 1).

(** Agent A is busy with [t0]; the execution is rejected with [null]. *)
Definition lostOne : State := fst (finishTaskUncounted "A" busyA).

End CoordinatorAccounts.

(** ** Runs of the inference coordinator *)

Module InferenceRuns.
Import JS Inference.
Import CoordinatorSpec (remove_first).

(** [dequeueJob]: [jobQueue.shift()]. *)
Definition dequeueJob (st : State) : option InferenceJob * State :=
  match jobQueue st with
  | [] => (None, st)
  | j :: r => (Some j, with_jobQueue r st)
  end.

(** Jobs enqueued one after the other. *)
Definition enqueueAll (js : list InferenceJob) (st : State) : State :=
  fold_left (fun s j => enqueueJob j s) js st.

Definition hasPriority (p : Z) (j : InferenceJob) : bool :=
  (priority j =? p)%Z.

(** Higher priorities first. *)
Definition falling (a b : InferenceJob) : Prop :=
  (priority b <= priority a)%Z.

(** One turn of the loop of [processQueue] that does not sleep: with the
    coordinator running, a job waiting and an engine available, the first
    job is taken from the queue and handed to the engine; the result names
    the job and the engine whose [infer] is now awaited. *)
Definition processQueueTurn (now : Z) (st : State)
  : option (InferenceJob * Engine) * State :=
  if isRunning st then
    match jobQueue st with
    | [] => (None, st)
    | _ :: _ =>
        match findAvailableEngine st with
        | None => (None, st)
        | Some e =>
            match dequeueJob st with
            | (Some job, st1) => (Some (job, e), executeJobStart job e now st1)
            | (None, st1) => (None, st1)
            end
        end
    end
  else (None, st).

(** The engine a call hands its job to, by its identifier. *)
Definition handedTo (st : State) (d : option (InferenceJob * Engine))
  : list string :=
  match d with
  | Some (_, e) => [getEngineId st e]
  | None => []
  end.

Definition dispatched (o : SubmitOutcome) : option (InferenceJob * Engine) :=
  match o with
  | Dispatched job e => Some (job, e)
  | _ => None
  end.

Section Runs.
Variable stringify : CacheKeyObject -> string.

(** [reachable st pending]: the coordinator can be in state [st] between two
    turns, [pending] being the identifiers of the engines whose [infer] is
    awaited by [executeJob].  The coordinator is initialized once; jobs are
    submitted, taken from the queue, and their executions resolve or
    throw. *)
Inductive reachable : State -> list string -> Prop :=
| reach_new cfg : reachable (new cfg) []
| reach_initialize st pending modelPath engineCount now :
    reachable st pending ->
    engines st = [] ->
    reachable (initialize modelPath engineCount now st) pending
| reach_submit st pending r prio jobId now :
    reachable st pending ->
    reachable (snd (submit stringify r prio jobId now st))
              (handedTo st (dispatched (fst (submit stringify r prio jobId
                                                    now st)))
               ++ pending)
| reach_turn st pending now :
    reachable st pending ->
    reachable (snd (processQueueTurn now st))
              (handedTo st (fst (processQueueTurn now st)) ++ pending)
| reach_resolved st pending job e resp latency now :
    reachable st pending ->
    In (getEngineId st e) pending ->
    reachable (executeJobResolved stringify job e resp latency now st)
              (remove_first (getEngineId st e) pending)
| reach_rejected st pending job e now :
    reachable st pending ->
    In (getEngineId st e) pending ->
    reachable (executeJobRejected job e now st)
              (remove_first (getEngineId st e) pending).
End Runs.

(** The engines and their records go together: the same identifiers in the
    same order, no identifier and no engine twice. *)
Definition paired (st : State) : Prop :=
  map_keys (engineStatus st) = map_keys (engines st)
  /\ NoDup (map_keys (engines st))
  /\ NoDup (map_values (engines st)).

(** [framed st st']: the step from [st] to [st'] keeps the engines, the
    identifiers of their records and the configuration. *)
Definition framed (st st' : State) : Prop :=
  engines st' = engines st
  /\ map_keys (engineStatus st') = map_keys (engineStatus st)
  /\ config st' = config st.

(** The jobs neither completed nor failed. *)
Definition outstanding (st : State) : Z :=
  (totalJobs (metrics st) - completedJobs (metrics st)
   - failedJobs (metrics st))%Z.

Definition statusOf (st : State) (id : string) : option EngineState :=
  option_map status (map_get id (engineStatus st)).

(** The pending engines are the ones recorded as processing. *)
Definition engaged (st : State) (pending : list string) : Prop :=
  NoDup pending
  /\ forall id, In id pending <-> statusOf st id = Some processing.

(** The response cache holds no entry under the empty key and no more
    entries than [cacheSize], one at least. *)
Definition cacheBounded (st : State) : Prop :=
  ~ In EmptyString (map_keys (responseCache st))
  /\ (map_size (responseCache st) <= Z.max 1 (cacheSize (config st)))%Z.

(** What a strategy looks at in an idle engine: the smaller the better. *)
Definition load (lb : LoadBalancing) (s : EngineStatus) : Q :=
  match lb with
  | round_robin => 0
  | least_loaded => inject_Z (processedJobs s)
  | by_priority => averageLatency s
  end.

(** The loop of [findLeastLoaded] and of [findByPriority], for a measure
    [key] compared by [ltb]. *)
Definition lowest_loop (M : Type) (key : EngineStatus -> M)
           (ltb : M -> M -> bool) (st : State) (es : Map EngineStatus)
           (acc : option M * option Engine) : option M * option Engine :=
  fold_left
    (fun acc e =>
       match status (snd e) with
       | idle =>
           match fst acc with
           | Some lowest =>
               if ltb (key (snd e)) lowest
               then (Some (key (snd e)), engineOf st (fst e)) else acc
           | None => (Some (key (snd e)), engineOf st (fst e))
           end
       | _ => acc
       end)
    es acc.

End InferenceRuns.

(** ** More of the memory manager *)

Module MemoryOps.
Import JS MemoryManager.

(** [export()] *)
Definition export (st : State) : list Memory := map_values (memories st).

(** The result of [delete(id)], which is that of [memories.delete(id)]. *)
Definition deleted (id : string) (st : State) : bool :=
  map_has id (memories st).

(** [Partial<Memory>], the argument of [update]: [None] for a field that is
    absent. *)
Record MemoryUpdates := {
  up_id : option string;
  up_type : option MemoryType;
  up_content : option string;
  up_embedding : option (list Q);
  up_metadata : option MemoryMetadata;
  up_timestamp : option Z;
  up_accessCount : option Z;
  up_relevanceScore : option Q
}.

Definition override (A : Type) (o : option A) (a : A) : A :=
  match o with
  | Some x => x
  | None => a
  end.

(** [{ ...memory, ...updates }] *)
Definition spread (memory : Memory) (u : MemoryUpdates) : Memory :=
  {| mem_id := override (up_id u) (mem_id memory);
     mem_type := override (up_type u) (mem_type memory);
     content := override (up_content u) (content memory);
     embedding := match up_embedding u with
                  | Some e => Some e
                  | None => embedding memory
                  end;
     metadata := override (up_metadata u) (metadata memory);
     timestamp := override (up_timestamp u) (timestamp memory);
     accessCount := override (up_accessCount u) (accessCount memory);
     relevanceScore := override (up_relevanceScore u)
                                (relevanceScore memory) |}.

Definition with_embedding (e : list Q) (m : Memory) : Memory :=
  {| mem_id := mem_id m; mem_type := mem_type m; content := content m;
     embedding := Some e; metadata := metadata m;
     timestamp := timestamp m; accessCount := accessCount m;
     relevanceScore := relevanceScore m |}.

(** The content whose embedding [update] computes: [updates.content] when
    it is there, not the empty string, and the store is enabled. *)
Definition regenerated (u : MemoryUpdates) (st : State) : option string :=
  match up_content u with
  | Some c => if negb (String.eqb c EmptyString) && enabled (config st)
              then Some c else None
  | None => None
  end.

Section Numeric.
Variable generateEmbedding : string -> list Q.
Variable cosineSimilarity : list Q -> list Q -> Q.

(** [update(id, updates)], taken as one step like [store]. *)
Definition update (id : string) (u : MemoryUpdates) (st : State)
  : option Memory * State :=
  match map_get id (memories st) with
  | None => (None, st)
  | Some memory =>
      match regenerated u st with
      | Some c =>
          let updated := with_embedding (generateEmbedding c)
                                        (spread memory u) in
          (Some updated,
           {| memories := map_set id updated (memories st);
              config := config st;
              embeddings := map_set id (generateEmbedding c)
                                    (embeddings st) |})
      | None =>
          (Some (spread memory u),
           {| memories := map_set id (spread memory u) (memories st);
              config := config st; embeddings := embeddings st |})
      end
  end.

(** The binary64 number the literal [0.8] denotes. *)
Definition threshold : Q := 3602879701896397 # 4503599627370496.

(** The inner loop of [clusterMemories]: the records not yet assigned that
    are similar to [memory] join its cluster. *)
Fixpoint gather (memory : Memory) (others : list Memory)
         (cluster : list Memory) (assigned : Set_) : list Memory * Set_ :=
  match others with
  | [] => (cluster, assigned)
  | other :: r =>
      if set_has (mem_id other) assigned
      then gather memory r cluster assigned
      else
        match embedding memory, embedding other with
        | Some a, Some b =>
            if Qlt_bool threshold (cosineSimilarity a b)
            then gather memory r (cluster ++ [other])
                        (set_add (mem_id other) assigned)
            else gather memory r cluster assigned
        | _, _ => gather memory r cluster assigned
        end
  end.

(** The outer loop, over the records still to visit. *)
Fixpoint cluster_loop (todo all : list Memory)
         (clusters : list (list Memory)) (assigned : Set_)
  : list (list Memory) :=
  match todo with
  | [] => clusters
  | memory :: r =>
      if set_has (mem_id memory) assigned
      then cluster_loop r all clusters assigned
      else
        let ca := gather memory all [memory]
                         (set_add (mem_id memory) assigned) in
        cluster_loop r all (clusters ++ [fst ca]) (snd ca)
  end.

Definition clusterMemories (st : State) : list (list Memory) :=
  cluster_loop (map_values (memories st)) (map_values (memories st)) [] [].

(** What puts [other] into the cluster of [seed]. *)
Definition alike (seed other : Memory) : Prop :=
  exists a b, embedding seed = Some a /\ embedding other = Some b
              /\ threshold < cosineSimilarity a b.
(** A cluster is its seed followed by records alike it. *)
Definition seeded (c : list Memory) : Prop :=
  exists seed rest, c = seed :: rest /\ forall o, In o rest -> alike seed o.

(** No record of a later cluster is alike the seed of an earlier one. *)
Definition greedy (clusters : list (list Memory)) : Prop :=
  forall l1 c l2 seed,
    clusters = l1 ++ c :: l2 -> hd_error c = Some seed ->
    forall o, In o (concat l2) -> ~ alike seed o.

(** What holds of the clusters and the assigned identifiers while the
    records [all] are visited. *)
Definition clustering (all : list Memory) (clusters : list (list Memory))
           (assigned : Set_) : Prop :=
  (forall x, In x assigned <-> In x (map mem_id (concat clusters)))
  /\ NoDup (map mem_id (concat clusters))
  /\ Forall seeded clusters
  /\ (forall m, In m (concat clusters) -> In m all)
  /\ (forall c seed, In c clusters -> hd_error c = Some seed ->
        forall o, In o all -> In (mem_id o) assigned \/ ~ alike seed o)
  /\ greedy clusters.
End Numeric.

(** *** [hashString] *)

(** [ToInt32]: the integer modulo 2^32 in the signed range. *)
Definition toInt32 (z : Z) : Z := ((z + 2 ^ 31) mod 2 ^ 32 - 2 ^ 31)%Z.

(** One turn of the loop, [char] being a UTF-16 code unit. *)
Definition hashStep (hash char : Z) : Z :=
  let hash1 := (toInt32 (Z.shiftl (toInt32 hash) 5) - hash + char)%Z in
  Z.land (toInt32 hash1) (toInt32 hash1).

Definition hashString (str : list Z) : Z :=
  Z.abs (fold_left hashStep str 0%Z).

(** The code units of a string of one-byte characters. *)
Definition codes (s : string) : list Z :=
  map (fun c => Z.of_nat (Ascii.nat_of_ascii c)) (list_ascii_of_string s).

(** c0 * 31^(n-1) + ... + c(n-1), on top of [acc] * 31^n. *)
Definition poly31 (acc : Z) (str : list Z) : Z :=
  fold_left (fun h c => (31 * h + c)%Z) str acc.

End MemoryOps.

(** ** A flush in which handlers throw *)

Module NetworkFlush.
Import JS Network.

Section Handlers.
Variable World : Type.
Variable receiveMessage :
  World -> string -> AgentMessage -> World * Reaction.

(** Of the deliveries [ds] the ones made, in order: those up to the first
    whose [receiveMessage] throws, that one included; the boolean tells
    whether one threw. *)
Fixpoint upToThrow (ds : list Delivery) (w : World)
  : list Delivery * bool :=
  match ds with
  | [] => ([], false)
  | d :: r =>
      let (w0, reaction) := receiveMessage w (fst d) (snd d) in
      if throws reaction then ([d], true)
      else let (made, thrown) := upToThrow r w0 in (d :: made, thrown)
  end.
End Handlers.

End NetworkFlush.

(** ** [memoize] (app/utils/cache.ts) *)

Module Memoize.
Import JS ResultCache.

Section Memoized.
Variables A T : Type.
Variable fn : A -> T.
(** [JSON.stringify] on argument lists. *)
Variable stringify : A -> string.

(** A call of the memoized function: [tHas], [tGet] and [tSet] are the clock
    as [has], [get] and [set] read it.  The result is what the call returns
    ([None] for [undefined]) and whether [fn] was called. *)
Definition memoized (args : A) (tHas tGet tSet : Z) (st : State T)
  : option T * bool * State T :=
  let key := stringify args in
  match has key tHas st with
  | (true, st1) =>
      let (v, st2) := get key tGet st1 in (v, false, st2)
  | (false, st1) =>
      let result := fn args in
      (Some result, true, set key result tSet st1)
  end.
End Memoized.

End Memoize.

(** ** [keywordSimilarity] of the memory manager *)

Module Keywords.
Import JS.

(** [new Set(array)] *)
Definition setOf (l : list string) : Set_ :=
  fold_left (fun s x => set_add x s) l [].

Section Words.
(** [text.toLowerCase().split(/\s+/)], which gives one word at least. *)
Variable words : string -> list string.

Definition matches (queryWords contentWords : Set_) : Z :=
  fold_left (fun n word => if set_has word contentWords then (n + 1)%Z else n)
            queryWords 0%Z.

Definition keywordSimilarity (query content : string) : Q :=
  let queryWords := setOf (words query) in
  let contentWords := setOf (words content) in
  inject_Z (matches queryWords contentWords)
  / inject_Z (Z.of_nat (length queryWords)).
End Words.

End Keywords.

(** ** [consolidate] of the memory manager *)

Module Consolidation.
Import JS MemoryManager MemoryOps Keywords.

(** [Math.max] of two numbers. *)
Definition max2 (a b : Q) : Q := if Qle_bool a b then b else a.

(** The separator of the merged contents: a line feed, three dashes, a line
    feed. *)
Definition separator : string :=
  String (Ascii.ascii_of_nat 10)
         (String.append "---" (String (Ascii.ascii_of_nat 10) EmptyString)).

(** [mergeMemories(memories)] for the records [first :: others]. *)
Definition mergeMemories (first : Memory) (others : list Memory)
  : MemoryInput :=
  let ms := first :: others in
  {| in_type := mem_type first;
     in_content := String.concat separator (map content ms);
     in_embedding := None;
     in_metadata :=
       {| source := "consolidation";
          context := flat_map (fun m => context (metadata m)) ms;
          tags := setOf (flat_map (fun m => tags (metadata m)) ms);
          relatedMemories :=
            setOf (flat_map (fun m => relatedMemories (metadata m)) ms);
          confidence :=
            fold_left (fun total m => total + confidence (metadata m)) ms 0
            / inject_Z (Z.of_nat (length ms)) |};
     in_relevanceScore :=
       fold_left (fun best m => max2 best (relevanceScore m)) others
                 (relevanceScore first) |}.

(** [cluster.forEach((m) => this.delete(m.id))] *)
Definition deleteAll (cluster : list Memory) (st : State) : State :=
  fold_left (fun s m => delete (mem_id m) s) cluster st.

Section Numeric.
Variable generateEmbedding : string -> list Q.
Variable cosineSimilarity : list Q -> list Q -> Q.
(** [fresh k]: the identifier generated by the [k]-th call of [store] and
    the two readings of the clock in it. *)
Variable fresh : nat -> string * Z * Z.

(** One turn of the loop of [consolidate]: the count so far, the number of
    calls of [store] so far and the store. *)
Definition consolidateStep (acc : Z * nat * State) (cluster : list Memory)
  : Z * nat * State :=
  match cluster with
  | first :: (_ :: _ :: _) as others =>
      let st1 := deleteAll cluster (snd acc) in
      let st2 := snd (store generateEmbedding
                            (fst (fst (fresh (snd (fst acc)))))
                            (snd (fst (fresh (snd (fst acc)))))
                            (snd (fresh (snd (fst acc))))
                            (mergeMemories first others) st1) in
      ((fst (fst acc) + (Z.of_nat (length cluster) - 1))%Z,
       S (snd (fst acc)), st2)
  | _ => acc
  end.

(** [consolidate()]: the number it returns and the store it leaves. *)
Definition consolidate (st : State) : Z * State :=
  let acc := fold_left consolidateStep
                       (clusterMemories cosineSimilarity st)
                       (0%Z, 0%nat, st) in
  (fst (fst acc), snd acc).

(** What a run of the loop keeps, [todo] being the clusters still to
    visit and [st0] the store at the start. *)
Definition consolidating (st0 : State) (acc : Z * nat * State)
           (todo : list (list Memory)) : Prop :=
  let st := snd acc in
  MemorySpec.keyed st /\ MemorySpec.unique st
  /\ (0 <= fst (fst acc))%Z
  /\ map_size (memories st)
     = (map_size (memories st0) - fst (fst acc))%Z
  /\ config st = config st0
  /\ (forall c m, In c todo -> In m c -> In (mem_id m) (map_keys (memories st)))
  /\ (forall id, In id (map_keys (memories st)) ->
        In id (map_keys (memories st0))
        \/ exists j, (j < snd (fst acc))%nat /\ fst (fst (fresh j)) = id)
  /\ NoDup (map mem_id (concat todo)).
End Numeric.

(** Scenario data: three records with the same embedding, which any two
    of them are similar by, and the identifiers [mem_0], [mem_1], ... for
    the merged records. *)
Definition embedded (id text : string) : Memory :=
  {| mem_id := id; mem_type := fact; content := text;
     embedding := Some [1];
     metadata := {| source := "test"; context := []; tags := [text];
                    relatedMemories := []; confidence := 1 |};
     timestamp := 0; accessCount := 0; relevanceScore := 1 # 2 |}.

Definition alwaysAlike (a b : list Q) : Q := 1.

Definition mergedId (k : nat) : string * Z * Z :=
  (String.append "mem_" (NilEmpty.string_of_uint (Nat.to_uint k)), 0%Z, 0%Z).

Definition threeAlike : State :=
  import [embedded "a" "x"; embedded "b" "y"; embedded "c" "z"]
         (new {| enabled := false; maxMemories := 10 |}).

End Consolidation.

(** * Properties *)

(** ** Binary64 arithmetic *)

Section Binary64Facts.
Import Binary64.

Lemma pow2_pos (e : Z) : 0 < 2 ^ e.
Proof. apply Qpower_0_lt. reflexivity. Qed.

Lemma pow2_add (a b : Z) : 2 ^ (a + b) == 2 ^ a * 2 ^ b.
Proof. apply Qpower_plus. discriminate. Qed.

Lemma pow2_Z (k : Z) : (0 <= k)%Z -> 2 ^ k == inject_Z (2 ^ k).
Proof. intro H. symmetry. exact (Zpower_Qpower 2 k H). Qed.

Lemma pow2_le (a b : Z) : (a <= b)%Z -> 2 ^ a <= 2 ^ b.
Proof. intro H. apply Qpower_le_compat_l; [exact H|discriminate]. Qed.

Lemma pow2_lt_inv (a b : Z) : 2 ^ a < 2 ^ b -> (a < b)%Z.
Proof. intro H. apply (Qpower_lt_compat_l_inv 2); [exact H|reflexivity]. Qed.

Lemma pow2_split (a b : Z) : 2 ^ a == 2 ^ (a - b) * 2 ^ b.
Proof. rewrite <- pow2_add. now replace (a - b + b)%Z with a by lia. Qed.

Lemma Z_lt_Q (a b : Z) : (a < b)%Z -> inject_Z a < inject_Z b.
Proof. now rewrite <- Zlt_Qlt. Qed.

Lemma Z_le_Q (a b : Z) : (a <= b)%Z -> inject_Z a <= inject_Z b.
Proof. now rewrite <- Zle_Qle. Qed.

Lemma Qabs_lt0 (x : Q) : ~ x == 0 -> 0 < Qabs x.
Proof.
intro N. destruct (Q_dec x 0) as [[L|G]|E]; [| |contradiction].
- rewrite Qabs_neg by lra. lra.
- rewrite Qabs_pos by lra. lra.
Qed.

(** *** The binary logarithm *)

Lemma ilog2_spec (q : Q) :
  0 < q -> 2 ^ ilog2 q <= q /\ q < 2 ^ (ilog2 q + 1).
Proof.
intro Hq. unfold ilog2.
set (n := Qnum q). set (d := Z.pos (Qden q)).
assert (Hn : (0 < n)%Z).
{ unfold n. destruct q as [qn qd]. unfold Qlt in Hq. simpl in *. lia. }
assert (Hd : (0 < d)%Z) by (unfold d; lia).
set (a := Z.log2 n). set (b := Z.log2 d).
destruct (Z.log2_spec n Hn) as [Ha1 Ha2]. fold a in Ha1, Ha2.
destruct (Z.log2_spec d Hd) as [Hb1 Hb2]. fold b in Hb1, Hb2.
assert (Ha0 : (0 <= a)%Z) by apply Z.log2_nonneg.
assert (Hb0 : (0 <= b)%Z) by apply Z.log2_nonneg.
assert (Eq : q * inject_Z d == inject_Z n).
{ unfold n, d. destruct q as [qn qd]. unfold Qeq. simpl. lia. }
apply Z_le_Q in Ha1, Hb1. apply Z_lt_Q in Ha2, Hb2.
rewrite <- pow2_Z in Ha1, Hb1 by lia. rewrite <- pow2_Z in Ha2, Hb2 by lia.
replace (Z.succ a) with (a + 1)%Z in Ha2 by lia.
replace (Z.succ b) with (b + 1)%Z in Hb2 by lia.
rewrite pow2_add in Ha2, Hb2. change (2 ^ 1) with 2 in Ha2, Hb2.
pose proof (pow2_pos a) as Pa. pose proof (pow2_pos b) as Pb.
pose proof (pow2_pos (a - b)) as Pab.
pose proof (pow2_split a b) as Eab.
assert (Hup : q < 2 ^ (a - b) * 2).
{ apply Qnot_le_lt. intro L.
  assert (inject_Z n >= 2 ^ a * 2); [|lra].
  rewrite <- Eq, Eab. nra. }
assert (Hlo : 2 ^ (a - b) < q * 2).
{ apply Qnot_le_lt. intro L.
  assert (inject_Z n < 2 ^ a); [|lra].
  rewrite <- Eq, Eab. nra. }
destruct (Qle_bool (2 ^ (a - b)) q) eqn:E.
- apply Qle_bool_iff in E. split; [exact E|].
  rewrite pow2_add. exact Hup.
- assert (L : q < 2 ^ (a - b)).
  { apply Qnot_le_lt. intro L. apply Qle_bool_iff in L. congruence. }
  replace (a - b - 1 + 1)%Z with (a - b)%Z by lia. split; [|exact L].
  rewrite (pow2_split (a - b) (a - b - 1)) in Hlo.
  replace (a - b - (a - b - 1))%Z with 1%Z in Hlo by lia.
  change (2 ^ 1) with 2 in Hlo. lra.
Qed.

Lemma ilog2_unique (q : Q) (a : Z) :
  2 ^ a <= q -> q < 2 ^ (a + 1) -> ilog2 q = a.
Proof.
intros H1 H2.
assert (Hq : 0 < q) by (pose proof (pow2_pos a); lra).
destruct (ilog2_spec Hq) as [S1 S2].
assert (L1 : (a < ilog2 q + 1)%Z) by (apply pow2_lt_inv; lra).
assert (L2 : (ilog2 q < a + 1)%Z) by (apply pow2_lt_inv; lra).
lia.
Qed.

Lemma ilog2_comp (x y : Q) : 0 < x -> x == y -> ilog2 x = ilog2 y.
Proof.
intros Hx E. destruct (ilog2_spec Hx) as [S1 S2].
symmetry. apply ilog2_unique; rewrite <- E; assumption.
Qed.

Lemma fexp_comp (x y : Q) : ~ x == 0 -> x == y -> fexp x = fexp y.
Proof.
intros Hx E. unfold fexp. f_equal. f_equal. apply ilog2_comp.
- now apply Qabs_lt0.
- now rewrite E.
Qed.

Lemma fexp_emin (q : Q) : (emin <= fexp q)%Z.
Proof. unfold fexp. lia. Qed.

(** *** Rounding to an integer *)

Lemma rne_comp (x y : Q) : x == y -> rne x = rne y.
Proof.
intro E. unfold rne. rewrite (Qfloor_comp x y E).
assert (C : Qcompare (x - inject_Z (Qfloor y)) (1 # 2)
            = Qcompare (y - inject_Z (Qfloor y)) (1 # 2)).
{ apply Qcompare_comp; [now rewrite E|reflexivity]. }
now rewrite C.
Qed.

Lemma rne_bounds (x : Q) : (Qfloor x <= rne x <= Qfloor x + 1)%Z.
Proof.
unfold rne. destruct (_ ?= _); [destruct (Z.even _)|..]; lia.
Qed.

Lemma rne_Z (z : Z) : rne (inject_Z z) = z.
Proof.
unfold rne. rewrite Qfloor_Z.
assert (C : Qcompare (inject_Z z - inject_Z z) (1 # 2) = Lt)
  by (apply (proj1 (Qlt_alt _ _)); ring_simplify (inject_Z z - inject_Z z);
      reflexivity).
now rewrite C.
Qed.

Lemma rne_nonneg (x : Q) : 0 <= x -> (0 <= rne x)%Z.
Proof.
intro H. pose proof (rne_bounds x).
apply Qfloor_resp_le in H. change (Qfloor 0) with 0%Z in H. lia.
Qed.

Lemma rne_pos (x : Q) : 1 <= x -> (1 <= rne x)%Z.
Proof.
intro H. pose proof (rne_bounds x).
apply Qfloor_resp_le in H. change (Qfloor 1) with 1%Z in H. lia.
Qed.

Lemma rne_nonpos (x : Q) : x <= 0 -> (rne x <= 0)%Z.
Proof.
intro H. pose proof (Qfloor_resp_le _ _ H) as F.
change (Qfloor 0) with 0%Z in F.
destruct (Z.eq_dec (Qfloor x) 0) as [E|N].
- assert (x == 0).
  { pose proof (Qfloor_le x) as L. rewrite E in L.
    change (inject_Z 0) with 0 in L. lra. }
  rewrite (rne_comp H0). pose proof (rne_Z 0) as R.
  change (inject_Z 0) with 0 in R. rewrite R. lia.
- pose proof (rne_bounds x). lia.
Qed.

(** *** Rounding to binary64 *)

Lemma round64_comp (x y : Q) : x == y -> round64 x = round64 y.
Proof.
intro E. unfold round64. rewrite <- (Qeqb_comp x y E 0 0 (Qeq_refl 0)).
destruct (Qeq_bool x 0) eqn:Z0; [reflexivity|].
apply Qeq_bool_neq in Z0. rewrite <- (fexp_comp Z0 E).
assert (R : rne (x / 2 ^ fexp x) = rne (y / 2 ^ fexp x)).
{ apply rne_comp. unfold Qdiv. apply Qmult_comp; [exact E|reflexivity]. }
now rewrite R.
Qed.

Lemma round64_form (q : Q) :
  ~ q == 0 ->
  round64 q == inject_Z (rne (q / 2 ^ fexp q)) * 2 ^ fexp q.
Proof.
intro H. unfold round64. destruct (Qeq_bool q 0) eqn:E.
- apply Qeq_bool_eq in E. contradiction.
- apply Qred_correct.
Qed.

Lemma round64_zero (q : Q) : q == 0 -> round64 q = 0.
Proof.
intro H. unfold round64. apply Qeq_eq_bool in H. now rewrite H.
Qed.

Lemma round64_onGrid (q : Q) : onGrid (round64 q).
Proof.
destruct (Qeq_dec q 0) as [E|N].
- rewrite (round64_zero E). exists 0%Z. change (inject_Z 0) with 0. ring.
- exists (rne (q / 2 ^ fexp q) * 2 ^ (fexp q - emin))%Z.
  rewrite (round64_form N), inject_Z_mult.
  rewrite (pow2_split (fexp q) emin) at 2.
  rewrite <- pow2_Z by (pose proof (fexp_emin q); lia). ring.
Qed.

Lemma round64_nonneg (q : Q) : 0 <= q -> 0 <= round64 q.
Proof.
intro H. destruct (Qeq_dec q 0) as [E|N].
- rewrite (round64_zero E). lra.
- rewrite (round64_form N). pose proof (pow2_pos (fexp q)) as P.
  assert (0 <= q / 2 ^ fexp q).
  { apply Qle_shift_div_l; [exact P|]. lra. }
  apply rne_nonneg in H0. apply Z_le_Q in H0.
  change (inject_Z 0) with 0 in H0. nra.
Qed.

Lemma round64_nonpos (q : Q) : q <= 0 -> round64 q <= 0.
Proof.
intro H. destruct (Qeq_dec q 0) as [E|N].
- rewrite (round64_zero E). lra.
- rewrite (round64_form N). pose proof (pow2_pos (fexp q)) as P.
  assert (q / 2 ^ fexp q <= 0).
  { apply Qle_shift_div_r; [exact P|]. lra. }
  apply rne_nonpos in H0. apply Z_le_Q in H0.
  change (inject_Z 0) with 0 in H0. nra.
Qed.

(** A positive number of the grid does not round to zero. *)
Lemma round64_pos (q : Q) : onGrid q -> 0 < q -> 0 < round64 q.
Proof.
intros [k Hk] H.
assert (N : ~ q == 0) by lra.
rewrite (round64_form N). pose proof (pow2_pos (fexp q)) as P.
assert (L : 1 <= q / 2 ^ fexp q).
{ apply Qle_shift_div_l; [exact P|]. rewrite Qmult_1_l.
  assert (Aq : Qabs q == q) by (apply Qabs_pos; lra).
  assert (Ha : 0 < Qabs q) by lra.
  destruct (ilog2_spec Ha) as [S0 _].
  assert (S1 : 2 ^ ilog2 (Qabs q) <= q) by lra.
  unfold fexp.
  destruct (Z.max_spec (ilog2 (Qabs q) - 52) emin) as [[Hm ->]|[Hm ->]].
  - (* subnormal: q is a positive multiple of [2 ^ emin] *)
    pose proof (pow2_pos emin) as Pe.
    assert (Hk1 : (1 <= k)%Z).
    { assert (K : inject_Z 0 < inject_Z k).
      { change (inject_Z 0) with 0. rewrite Hk in H. nra. }
      rewrite <- Zlt_Qlt in K. lia. }
    apply Z_le_Q in Hk1. change (inject_Z 1) with 1 in Hk1.
    rewrite Hk. nra.
  - apply Qle_trans with (2 ^ ilog2 (Qabs q)); [|exact S1].
    apply pow2_le. lia. }
apply rne_pos in L. apply Z_le_Q in L. change (inject_Z 1) with 1 in L.
nra.
Qed.

Lemma onGrid_sub (x y : Q) : onGrid x -> onGrid y -> onGrid (x - y).
Proof.
intros [k Hk] [j Hj]. exists (k - j)%Z.
unfold Zminus. rewrite inject_Z_plus, inject_Z_opp, Hk, Hj. ring.
Qed.

Lemma onGrid_Z (z : Z) : onGrid (inject_Z z).
Proof.
exists (z * 2 ^ 1074)%Z. rewrite inject_Z_mult.
rewrite <- (@pow2_Z 1074) by lia.
transitivity (inject_Z z * (2 ^ 1074 * 2 ^ emin)); [|ring].
rewrite <- pow2_add. change (2 ^ (1074 + emin)) with 1. ring.
Qed.

Lemma onGrid_comp (x y : Q) : x == y -> onGrid x -> onGrid y.
Proof. intros E [k Hk]. exists k. now rewrite <- E. Qed.

(** The sign of a binary64 difference is the sign of the exact one. *)
Lemma fsub_sign (x y : Q) :
  onGrid x -> onGrid y -> (fsub x y <= 0 <-> x <= y).
Proof.
intros Gx Gy. unfold fsub. split.
- intro H. apply Qnot_lt_le. intro L.
  assert (P : 0 < round64 (x - y)).
  { apply round64_pos; [now apply onGrid_sub|lra]. }
  lra.
- intro H. apply round64_nonpos. lra.
Qed.

(** *** The binary64 numbers are left as they are *)

Lemma round64_exact (m e : Z) :
  (emin <= e)%Z -> (Z.abs m < 2 ^ 53)%Z ->
  round64 (inject_Z m * 2 ^ e) == inject_Z m * 2 ^ e.
Proof.
intros He Hm. set (x := inject_Z m * 2 ^ e).
pose proof (pow2_pos e) as Pe.
destruct (Z.eq_dec m 0) as [->|Nm].
- assert (E : x == 0) by (unfold x; change (inject_Z 0) with 0; ring).
  rewrite (round64_zero E). now rewrite E.
- assert (N : ~ x == 0).
  { unfold x. intro E. apply Qmult_integral in E. destruct E as [E|E].
    - apply Nm. revert E. unfold Qeq. simpl. lia.
    - lra. }
  assert (Ax : 0 < Qabs x) by now apply Qabs_lt0.
  assert (Bx : Qabs x < 2 ^ (53 + e)).
  { unfold x. rewrite Qabs_Qmult, (Qabs_pos (2 ^ e)) by lra.
    rewrite pow2_add, (@pow2_Z 53) by lia.
    apply Qmult_lt_r; [exact Pe|].
    change (Qabs (inject_Z m)) with (inject_Z (Z.abs m)).
    apply Z_lt_Q. exact Hm. }
  assert (Hf : (fexp x <= e)%Z).
  { unfold fexp. destruct (ilog2_spec Ax) as [S1 _].
    assert ((ilog2 (Qabs x) < 53 + e)%Z) by (apply pow2_lt_inv; lra).
    lia. }
  rewrite (round64_form N).
  set (f := fexp x) in *.
  pose proof (pow2_pos f) as Pf.
  assert (D : x / 2 ^ f == inject_Z (m * 2 ^ (e - f))).
  { rewrite inject_Z_mult, <- pow2_Z by lia.
    unfold x. rewrite (pow2_split e f). field. lra. }
  rewrite (rne_comp D), rne_Z, inject_Z_mult, <- pow2_Z by lia.
  unfold x. rewrite (pow2_split e f). ring.
Qed.

Lemma round64_idem (q : Q) : round64 (round64 q) == round64 q.
Proof.
destruct (Qeq_dec q 0) as [E|N].
- rewrite (round64_zero E). now rewrite (round64_zero (Qeq_refl 0)).
- set (e := fexp q). set (m := rne (q / 2 ^ e)).
  assert (F : round64 q == inject_Z m * 2 ^ e) by exact (round64_form N).
  rewrite (round64_comp F), F.
  pose proof (pow2_pos e) as Pe.
  assert (Ax : 0 < Qabs q) by now apply Qabs_lt0.
  (* the scaled number lies strictly between -2^53 and 2^53 *)
  assert (B : Qabs (q / 2 ^ e) < inject_Z (2 ^ 53)).
  { unfold Qdiv. rewrite Qabs_Qmult, (Qabs_pos (/ 2 ^ e)).
    2:{ apply Qlt_le_weak, Qinv_lt_0_compat, Pe. }
    apply Qlt_shift_div_r; [exact Pe|].
    rewrite <- (@pow2_Z 53), <- pow2_add by lia.
    destruct (ilog2_spec Ax) as [_ S2].
    eapply Qlt_le_trans; [exact S2|]. apply pow2_le.
    unfold e, fexp. lia. }
  apply Qabs_Qlt_condition in B. destruct B as [B1 B2].
  assert (Hm : (- 2 ^ 53 <= m <= 2 ^ 53)%Z).
  { pose proof (rne_bounds (q / 2 ^ e)) as R. fold m in R.
    assert (F1 : (- 2 ^ 53 <= Qfloor (q / 2 ^ e))%Z).
    { change (- 2 ^ 53)%Z with (Qfloor (inject_Z (- 2 ^ 53))).
      apply Qfloor_resp_le. rewrite inject_Z_opp. lra. }
    assert (F2 : (Qfloor (q / 2 ^ e) < 2 ^ 53)%Z).
    { rewrite Zlt_Qlt. eapply Qle_lt_trans; [apply Qfloor_le|exact B2]. }
    lia. }
  assert (He : (emin <= e)%Z) by apply fexp_emin.
  destruct (Z.eq_dec (Z.abs m) (2 ^ 53)) as [Em|Nm].
  + (* the rounding reached the next power of two *)
    assert (S : inject_Z m * 2 ^ e == inject_Z (m / 2) * 2 ^ (e + 1)).
    { rewrite pow2_add. change (2 ^ 1) with 2.
      assert (M : (m = 2 * (m / 2))%Z).
      { destruct (Z.abs_eq_or_opp m) as [A|A]; rewrite A in Em.
        - rewrite Em. reflexivity.
        - assert (m = - 2 ^ 53)%Z as -> by lia. reflexivity. }
      rewrite M at 1. rewrite inject_Z_mult.
      change (inject_Z 2) with 2. ring. }
    rewrite (round64_comp S), S. apply round64_exact; [lia|].
    destruct (Z.abs_eq_or_opp m) as [A|A]; rewrite A in Em.
    * rewrite Em. reflexivity.
    * assert (m = - 2 ^ 53)%Z as -> by lia. reflexivity.
  + apply round64_exact; [exact He|]. lia.
Qed.

End Binary64Facts.

(** ** The stable sort *)

Section SortFacts.
Variable A : Type.
Variable cmp : A -> A -> Q.
(** [R x y]: the comparator lets [x] stay in front of [y]. *)
Variable R : A -> A -> Prop.
Hypothesis keeps_iff : forall x y, JS.keeps_before cmp x y = true <-> R x y.
Hypothesis R_trans : forall x y z, R x y -> R y z -> R x z.
Hypothesis R_total : forall x y, R x y \/ R y x.

Lemma insert_perm (x : A) (l : list A) :
  Permutation (JS.insert cmp x l) (x :: l).
Proof.
  induction l as [|y r IH]; simpl; [reflexivity|].
  destruct (JS.keeps_before cmp x y); [reflexivity|].
  rewrite IH. apply perm_swap.
Qed.

Lemma sort_perm (l : list A) : Permutation (JS.sort cmp l) l.
Proof.
  induction l as [|x l IH]; simpl; [constructor|].
  rewrite insert_perm. now constructor.
Qed.


Lemma insert_sorted (x : A) (l : list A) :
  StronglySorted R l -> StronglySorted R (JS.insert cmp x l).
Proof.
  induction 1 as [|y r Hs IH Hall]; simpl.
  - constructor; constructor.
  - destruct (JS.keeps_before cmp x y) eqn:E.
    + apply keeps_iff in E.
      constructor; [now constructor|].
      constructor; [exact E|].
      eapply Forall_impl; [|exact Hall]. intros z Hz. eauto.
    + constructor; [exact IH|].
      assert (Ryx : R y x).
      { destruct (R_total x y) as [H|H]; [|exact H].
        apply keeps_iff in H. congruence. }
      eapply Permutation_Forall.
      * symmetry. apply insert_perm.
      * now constructor.
Qed.

Lemma sort_sorted (l : list A) : StronglySorted R (JS.sort cmp l).
Proof.
  induction l as [|x l IH]; simpl; [constructor|].
  now apply insert_sorted.
Qed.

(** The head of the sorted list is the first element of the input that no
    other element beats. *)
Lemma sort_head_split (l : list A) (b : A) (rest : list A) :
  JS.sort cmp l = b :: rest ->
  exists l1 l2, l = l1 ++ b :: l2
                /\ (forall y, In y l1 -> ~ R y b)
                /\ (forall y, In y l2 -> R b y).
Proof.
  revert b rest. induction l as [|x l IH]; intros b rest; simpl.
  - discriminate.
  - destruct (JS.sort cmp l) as [|y s] eqn:Es; simpl.
    + intros [= <- <-].
      assert (l = []) as ->.
      { apply Permutation_nil. rewrite <- Es. apply sort_perm. }
      exists [], []. repeat split; simpl; tauto.
    + destruct (JS.keeps_before cmp x y) eqn:E.
      * intros [= <- <-]. exists [], l. split; [reflexivity|].
        split; [simpl; tauto|]. intros z Hz.
        apply keeps_iff in E.
        assert (Hin : In z (y :: s)).
        { rewrite <- Es.
          eapply Permutation_in; [symmetry; apply sort_perm|exact Hz]. }
        pose proof (sort_sorted l) as Hs. rewrite Es in Hs.
        inversion Hs as [|? ? _ Hall]; subst.
        destruct Hin as [<-|Hin]; [exact E|].
        rewrite Forall_forall in Hall. eauto.
      * intros [= <- <-].
        destruct (IH y s eq_refl) as (l1 & l2 & -> & H1 & H2).
        exists (x :: l1), l2. split; [reflexivity|]. split; [|exact H2].
        intros z [<-|Hz]; [|now apply H1].
        intro H. apply keeps_iff in H. congruence.
Qed.

Lemma sort_head_of_split (l1 l2 : list A) (b : A) :
  (forall y, In y l1 -> ~ R y b) ->
  (forall y, In y l2 -> R b y) ->
  exists rest, JS.sort cmp (l1 ++ b :: l2) = b :: rest.
Proof.
  intros H1 H2. induction l1 as [|x l1 IH]; simpl.
  - destruct (JS.sort cmp l2) as [|y s] eqn:Es; simpl; [now eexists|].
    assert (Hy : In y l2).
    { eapply Permutation_in; [apply sort_perm|]. rewrite Es. now left. }
    apply H2, keeps_iff in Hy. rewrite Hy. now eexists.
  - destruct IH as [rest ->]; [intros; apply H1; now right|]. simpl.
    destruct (JS.keeps_before cmp x b) eqn:E; [|now eexists].
    apply keeps_iff in E. exfalso. exact (H1 x (or_introl eq_refl) E).
Qed.
End SortFacts.

(** Comparators of the two shapes the code uses. *)
Lemma keeps_descending (A : Type) (f : A -> Q) (x y : A) :
  JS.keeps_before (fun a b => f b - f a) x y = true <-> f y <= f x.
Proof.
  unfold JS.keeps_before. rewrite Qle_bool_iff. split; intro H; lra.
Qed.

Lemma keeps_ascending (A : Type) (f : A -> Q) (x y : A) :
  JS.keeps_before (fun a b => f a - f b) x y = true <-> f x <= f y.
Proof.
  unfold JS.keeps_before. rewrite Qle_bool_iff. split; intro H; lra.
Qed.

Section SortByKey.
Variable A : Type.
Variable f : A -> Q.

Lemma falling_trans (x y z : A) : f y <= f x -> f z <= f y -> f z <= f x.
Proof. intros. lra. Qed.

Lemma falling_total (x y : A) : f y <= f x \/ f x <= f y.
Proof. destruct (Qlt_le_dec (f x) (f y)); [right|left]; lra. Qed.

Lemma rising_trans (x y z : A) : f x <= f y -> f y <= f z -> f x <= f z.
Proof. intros. lra. Qed.

Lemma rising_total (x y : A) : f x <= f y \/ f y <= f x.
Proof. destruct (Qlt_le_dec (f x) (f y)); [left|right]; lra. Qed.

Lemma sort_desc_sorted (l : list A) :
  StronglySorted (fun x y => f y <= f x) (JS.sort (fun a b => f b - f a) l).
Proof.
exact (sort_sorted (fun a b => f b - f a) (fun x y => f y <= f x)
                   (keeps_descending f) falling_trans falling_total l).
Qed.

Lemma sort_asc_sorted (l : list A) :
  StronglySorted (fun x y => f x <= f y) (JS.sort (fun a b => f a - f b) l).
Proof.
exact (sort_sorted (fun a b => f a - f b) (fun x y => f x <= f y)
                   (keeps_ascending f) rising_trans rising_total l).
Qed.

Lemma sort_desc_head_split (l : list A) (b : A) (rest : list A) :
  JS.sort (fun a b => f b - f a) l = b :: rest ->
  exists l1 l2, l = l1 ++ b :: l2
                /\ (forall y, In y l1 -> f y < f b)
                /\ (forall y, In y l2 -> f y <= f b).
Proof.
intro Hs.
destruct (sort_head_split (fun a b => f b - f a) (fun x y => f y <= f x)
            (keeps_descending f) falling_trans falling_total l Hs)
  as (l1 & l2 & E & H1 & H2).
exists l1, l2. split; [exact E|]. split; [|exact H2].
intros y Hy. apply Qnot_le_lt. exact (H1 y Hy).
Qed.

Lemma sort_desc_head_of_split (l1 l2 : list A) (b : A) :
  (forall y, In y l1 -> f y < f b) ->
  (forall y, In y l2 -> f y <= f b) ->
  exists rest, JS.sort (fun a b => f b - f a) (l1 ++ b :: l2) = b :: rest.
Proof.
intros H1 H2.
apply (sort_head_of_split (fun a b => f b - f a) (fun x y => f y <= f x)
                          (keeps_descending f)); [|exact H2].
intros y Hy L. specialize (H1 y Hy). simpl in L. lra.
Qed.
End SortByKey.

(** Sorting the images of a list is sorting the list. *)
Lemma insert_map (A B : Type) (h : A -> B) (cmp : B -> B -> Q) (x : A)
      (l : list A) :
  JS.insert cmp (h x) (map h l)
  = map h (JS.insert (fun a b => cmp (h a) (h b)) x l).
Proof.
induction l as [|y r IH]; simpl; [reflexivity|].
unfold JS.keeps_before.
destruct (Qle_bool (cmp (h x) (h y)) 0); simpl; [reflexivity|].
now rewrite IH.
Qed.

Lemma sort_map (A B : Type) (h : A -> B) (cmp : B -> B -> Q) (l : list A) :
  JS.sort cmp (map h l) = map h (JS.sort (fun a b => cmp (h a) (h b)) l).
Proof.
induction l as [|x l IH]; simpl; [reflexivity|].
now rewrite IH, insert_map.
Qed.


(** Sorting by a binary64 key with the comparators [b.score - a.score] and
    [a.score - b.score]. *)
Section SortByScore.
Import Binary64.
Variable A : Type.
Variable f : A -> Q.
Hypothesis f_onGrid : forall x, onGrid (f x).

Lemma keeps_falling (x y : A) :
  JS.keeps_before (fun a b => fsub (f b) (f a)) x y = true <-> f y <= f x.
Proof.
unfold JS.keeps_before. rewrite Qle_bool_iff. now apply fsub_sign.
Qed.


Lemma sort_falling_sorted (l : list A) :
  StronglySorted (fun x y => f y <= f x)
                 (JS.sort (fun a b => fsub (f b) (f a)) l).
Proof.
exact (sort_sorted (fun a b => fsub (f b) (f a)) (fun x y => f y <= f x)
                   keeps_falling (@falling_trans _ f) (@falling_total _ f) l).
Qed.


Lemma sort_falling_head_split (l : list A) (b : A) (rest : list A) :
  JS.sort (fun a b => fsub (f b) (f a)) l = b :: rest ->
  exists l1 l2, l = l1 ++ b :: l2
                /\ (forall y, In y l1 -> f y < f b)
                /\ (forall y, In y l2 -> f y <= f b).
Proof.
intro Hs.
destruct (sort_head_split (fun a b => fsub (f b) (f a))
            (fun x y => f y <= f x) keeps_falling
            (@falling_trans _ f) (@falling_total _ f) l Hs)
  as (l1 & l2 & E & H1 & H2).
exists l1, l2. split; [exact E|]. split; [|exact H2].
intros y Hy. apply Qnot_le_lt. exact (H1 y Hy).
Qed.

Lemma sort_falling_head_of_split (l1 l2 : list A) (b : A) :
  (forall y, In y l1 -> f y < f b) ->
  (forall y, In y l2 -> f y <= f b) ->
  exists rest,
    JS.sort (fun a b => fsub (f b) (f a)) (l1 ++ b :: l2) = b :: rest.
Proof.
intros H1 H2.
apply (sort_head_of_split (fun a b => fsub (f b) (f a))
                          (fun x y => f y <= f x) keeps_falling);
  [|exact H2].
intros y Hy L. specialize (H1 y Hy). simpl in L. lra.
Qed.
End SortByScore.

(** ** Membership in the ordered collections *)

Lemma set_has_In (x : string) (s : JS.Set_) : JS.set_has x s = true <-> In x s.
Proof.
  unfold JS.set_has. rewrite existsb_exists. split.
  - intros (y & Hy & E). apply String.eqb_eq in E. now subst.
  - intro H. exists x. split; [exact H|apply String.eqb_refl].
Qed.

Lemma set_add_In (x y : string) (s : JS.Set_) :
  In x (JS.set_add y s) <-> x = y \/ In x s.
Proof.
  unfold JS.set_add. destruct (JS.set_has y s) eqn:E.
  - apply set_has_In in E. split; [now right|]. intros [->|H]; assumption.
  - rewrite in_app_iff. simpl. intuition congruence.
Qed.

Lemma set_delete_In (x y : string) (s : JS.Set_) :
  In x (JS.set_delete y s) <-> x <> y /\ In x s.
Proof.
  unfold JS.set_delete. rewrite filter_In, negb_true_iff, String.eqb_neq.
  intuition congruence.
Qed.

Lemma map_set_keys_In (V : Type) (x k : string) (v : V) (m : JS.Map V) :
  In x (JS.map_keys (JS.map_set k v m)) <-> x = k \/ In x (JS.map_keys m).
Proof.
  induction m as [|[k' v'] r IH]; simpl.
  - intuition congruence.
  - destruct (String.eqb k k') eqn:E; simpl.
    + apply String.eqb_eq in E. subst. intuition congruence.
    + unfold JS.map_keys in IH. rewrite IH. intuition congruence.
Qed.

Lemma map_delete_keys_In (V : Type) (x k : string) (m : JS.Map V) :
  In x (JS.map_keys (JS.map_delete k m)) <-> x <> k /\ In x (JS.map_keys m).
Proof.
  unfold JS.map_keys, JS.map_delete.
  induction m as [|[k' v'] r IH]; simpl; [tauto|].
  destruct (String.eqb k k') eqn:E; simpl.
  - apply String.eqb_eq in E. subst. rewrite IH. intuition congruence.
  - apply String.eqb_neq in E. rewrite IH. intuition congruence.
Qed.

Lemma map_get_Some_In (V : Type) (k : string) (v : V) (m : JS.Map V) :
  JS.map_get k m = Some v -> In (k, v) m.
Proof.
  induction m as [|[k' v'] r IH]; simpl; [discriminate|].
  destruct (String.eqb k k') eqn:E.
  - apply String.eqb_eq in E. intros [= ->]. left. now subst.
  - intro H. right. now apply IH.
Qed.

Lemma map_get_None_keys (V : Type) (k : string) (m : JS.Map V) :
  JS.map_get k m = None <-> ~ In k (JS.map_keys m).
Proof.
  induction m as [|[k' v'] r IH]; simpl; [tauto|].
  destruct (String.eqb k k') eqn:E.
  - apply String.eqb_eq in E. subst. split; [discriminate|]. intro H.
    exfalso. apply H. now left.
  - apply String.eqb_neq in E. unfold JS.map_keys in IH. rewrite IH.
    intuition congruence.
Qed.

Lemma map_get_set_same (V : Type) (k : string) (v : V) (m : JS.Map V) :
  JS.map_get k (JS.map_set k v m) = Some v.
Proof.
  induction m as [|[k' v'] r IH]; simpl.
  - now rewrite String.eqb_refl.
  - destruct (String.eqb k k') eqn:E; simpl.
    + now rewrite String.eqb_refl.
    + now rewrite E.
Qed.

Lemma map_get_set_other (V : Type) (k k' : string) (v : V) (m : JS.Map V) :
  k' <> k -> JS.map_get k' (JS.map_set k v m) = JS.map_get k' m.
Proof.
  intro Hne. induction m as [|[k0 v0] r IH]; simpl.
  - apply String.eqb_neq in Hne. now rewrite Hne.
  - destruct (String.eqb k k0) eqn:E; simpl.
    + apply String.eqb_eq in E. subst k0.
      apply String.eqb_neq in Hne. now rewrite Hne.
    + now rewrite IH.
Qed.

Lemma map_get_delete_same (V : Type) (k : string) (m : JS.Map V) :
  JS.map_get k (JS.map_delete k m) = None.
Proof.
apply map_get_None_keys. rewrite map_delete_keys_In. tauto.
Qed.

Lemma map_get_delete_other (V : Type) (k k' : string) (m : JS.Map V) :
  k' <> k -> JS.map_get k' (JS.map_delete k m) = JS.map_get k' m.
Proof.
intro Hne. unfold JS.map_delete. induction m as [|[k0 v0] r IH]; simpl.
- reflexivity.
- destruct (String.eqb k k0) eqn:E; simpl.
  + apply String.eqb_eq in E. subst k0.
    apply String.eqb_neq in Hne. now rewrite Hne.
  + now rewrite IH.
Qed.

Lemma map_set_fresh (V : Type) (k : string) (v : V) (m : JS.Map V) :
  ~ In k (JS.map_keys m) -> JS.map_set k v m = m ++ [(k, v)].
Proof.
induction m as [|[k' v'] r IH]; simpl; [reflexivity|]. intro H.
destruct (String.eqb_spec k k') as [->|Hne]; [tauto|].
rewrite IH; tauto.
Qed.

(** ** AdvancedAgentCoordinator *)

Section CoordinatorFacts.
Import JS Binary64 Coordinator CoordinatorSpec.

(** Whatever its tier, the task at the head of the queues goes to the end of
    the medium tier when no idle agent scores above zero for it. *)
Lemma processTasks_requeues_into_medium (c : State) (t : Task)
      (q' : TaskQueue) :
  (map_size (busyAgents (agentPool c)) < maxConcurrentTasks c)%Z ->
  shiftTask (taskQueue c) = Some (t, q') ->
  getBestAgentForTask c t = None ->
  processTasks c
  = (with_queue {| q_high := q_high q'; q_medium := q_medium q' ++ [t];
                   q_low := q_low q' |} c, None).
Proof.
intros Hcap Hshift Hnone. unfold processTasks.
apply Z.leb_gt in Hcap. rewrite Hcap, Hshift.
change (getBestAgentForTask (with_queue q' c) t)
  with (getBestAgentForTask c t).
rewrite Hnone. reflexivity.
Qed.

(** C1 (code defect).  The specification promises that a high-priority task
    submitted while no agent is idle is dispatched, once an agent is free,
    before any medium or low task queued earlier.  In the run below agent A
    is busy when first the medium task m1 and then the high task h1 are
    submitted: [processTasks] takes h1 out of the high tier, finds no agent
    and pushes it to the END OF THE MEDIUM tier, behind m1; when A finishes,
    m1 is dispatched and h1 still waits. *)
Theorem C1_requeued_high_task_is_overtaken :
  idleAgents (agentPool (fst (submitTask (needs_x "m1") medium busyA))) = []
  /\ snd (submitTask (needs_x "h1") high
            (fst (submitTask (needs_x "m1") medium busyA))) = None
  /\ q_high (taskQueue queuedBehind) = []
  /\ q_medium (taskQueue queuedBehind) = [needs_x "m1"; needs_x "h1"]
  /\ snd (finishTask true "A" queuedBehind) = Some (agentA, needs_x "m1")
  /\ q_medium (taskQueue (fst (finishTask true "A" queuedBehind)))
     = [needs_x "h1"].
Proof. vm_compute. repeat split. Qed.

(** *** Selecting an agent *)

Lemma availableAgents_registered (c : State) (a : Agent) :
  In a (availableAgents c) ->
  exists id, In id (idleAgents (agentPool c))
             /\ In (id, a) (agents (agentPool c)).
Proof.
  unfold availableAgents. rewrite in_flat_map. intros (id & Hid & Ha).
  exists id. split; [exact Hid|].
  destruct (map_get id (agents (agentPool c))) as [a'|] eqn:E; [|contradiction].
  destruct Ha as [<-|[]]. now apply map_get_Some_In.
Qed.

Lemma agentScore_onGrid (c : State) (t : Task) (a : Agent) :
  onGrid (agentScore c t a).
Proof.
  unfold agentScore. destruct (negb (hasRequiredSkills t a)).
  - exact (onGrid_Z (-1)).
  - apply round64_onGrid.
Qed.

Lemma getBest_unfold (c : State) (t : Task) :
  getBestAgentForTask c t =
  match sort (fun a b => fsub (agentScore c t b) (agentScore c t a))
             (availableAgents c) with
  | a :: _ => if Qlt_bool 0 (agentScore c t a) then Some a else None
  | [] => None
  end.
Proof.
  unfold getBestAgentForTask, scoredAgents.
  rewrite (sort_map (fun a => (a, agentScore c t a))
                    (fun a b : Agent * Q => fsub (snd b) (snd a))).
  cbn beta. cbn [snd].
  destruct (availableAgents c) as [|a0 l]; [reflexivity|].
  destruct (sort _ (a0 :: l)); reflexivity.
Qed.

Lemma Qlt_bool_iff (x y : Q) : Qlt_bool x y = true <-> x < y.
Proof.
  unfold Qlt_bool. rewrite negb_true_iff. split.
  - intro H. apply Qnot_le_lt. intro L. apply Qle_bool_iff in L. congruence.
  - intro H. destruct (Qle_bool y x) eqn:E; [|reflexivity].
    apply Qle_bool_iff in E. lra.
Qed.

Lemma getBest_Some_split (c : State) (t : Task) (a : Agent) :
  getBestAgentForTask c t = Some a <->
  exists l1 l2, availableAgents c = l1 ++ a :: l2
    /\ 0 < agentScore c t a
    /\ (forall b, In b l1 -> agentScore c t b < agentScore c t a)
    /\ (forall b, In b l2 -> agentScore c t b <= agentScore c t a).
Proof.
  rewrite getBest_unfold. split.
  - destruct (sort _ (availableAgents c)) as [|b rest] eqn:Es;
      [discriminate|].
    destruct (Qlt_bool 0 (agentScore c t b)) eqn:Epos; [|discriminate].
    intros [= ->]. apply Qlt_bool_iff in Epos.
    destruct (@sort_falling_head_split _ (agentScore c t)
                (agentScore_onGrid c t) _ _ _ Es)
      as (l1 & l2 & Hav & H1 & H2).
    exists l1, l2. now repeat split.
  - intros (l1 & l2 & Hav & Hpos & H1 & H2).
    destruct (@sort_falling_head_of_split _ (agentScore c t)
                (agentScore_onGrid c t) l1 l2 a H1 H2) as [rest Hs].
    rewrite Hav, Hs. apply Qlt_bool_iff in Hpos. now rewrite Hpos.
Qed.

Lemma getBest_None_iff (c : State) (t : Task) :
  getBestAgentForTask c t = None <->
  forall a, In a (availableAgents c) -> agentScore c t a <= 0.
Proof.
  split.
  - intros Hnone a Ha.
    destruct (Qlt_le_dec 0 (agentScore c t a)) as [Hpos|]; [|assumption].
    exfalso.
    (* some agent scores above zero, hence so does the first best one *)
    revert Hnone. rewrite getBest_unfold.
    pose proof (@sort_falling_sorted _ (agentScore c t)
                  (agentScore_onGrid c t) (availableAgents c)) as Hs.
    pose proof (sort_perm
                  (fun a b => fsub (agentScore c t b) (agentScore c t a))
                  (availableAgents c)) as Hp.
    assert (Hin : In a (sort (fun a b => fsub (agentScore c t b)
                                              (agentScore c t a))
                             (availableAgents c))).
    { eapply Permutation_in; [symmetry; exact Hp|exact Ha]. }
    destruct (sort _ (availableAgents c)) as [|b rest]; [contradiction|].
    assert (Hle : agentScore c t a <= agentScore c t b).
    { destruct Hin as [->|Hin]; [lra|].
      inversion Hs as [|? ? _ Hall]; subst.
      rewrite Forall_forall in Hall. exact (Hall _ Hin). }
    assert (E : Qlt_bool 0 (agentScore c t b) = true)
      by (apply Qlt_bool_iff; lra).
    rewrite E. discriminate.
  - intro Hall. destruct (getBestAgentForTask c t) as [a|] eqn:E;
      [|reflexivity].
    apply getBest_Some_split in E.
    destruct E as (l1 & l2 & Hav & Hpos & _).
    assert (Ha : In a (availableAgents c))
      by (rewrite Hav; apply in_elt).
    specialize (Hall a Ha). lra.
Qed.

(** A sum of binary64 numbers built from 0 is a binary64 number. *)
Lemma fold_fadd_rounded (A : Type) (g : A -> Q) (l : list A) (init : Q) :
  round64 init == init ->
  round64 (fold_left (fun sum x => fadd sum (g x)) l init)
  == fold_left (fun sum x => fadd sum (g x)) l init.
Proof.
  revert init. induction l as [|x l IH]; intros init H; simpl; [exact H|].
  apply IH. apply round64_idem.
Qed.

Lemma capabilityScore_rounded (t : Task) (a : Agent) :
  round64 (capabilityScore t a) == capabilityScore t a.
Proof.
  unfold capabilityScore. apply fold_fadd_rounded.
  now rewrite (round64_zero (Qeq_refl 0)).
Qed.

(** The leading [0 +] of the score changes nothing. *)
Lemma agentScore_formula (c : State) (t : Task) (a : Agent) :
  agentScore c t a
  == if hasRequiredSkills t a
     then fsub (capabilityScore t a)
               (fmul (utilization c a) (literal (1 # 10)))
     else -1.
Proof.
  unfold agentScore. destruct (hasRequiredSkills t a); simpl negb; cbv iota;
    [|reflexivity].
  unfold fsub, fadd.
  assert (E : round64 (0 + capabilityScore t a)
              - fmul (utilization c a) (literal (1 # 10))
              == capabilityScore t a
                 - fmul (utilization c a) (literal (1 # 10))).
  { rewrite (round64_comp (Qplus_0_l (capabilityScore t a))).
    now rewrite capabilityScore_rounded. }
  now rewrite (round64_comp E).
Qed.

(** C2 (amended).  For binary64 confidences and utilizations between 0 and
    1: every idle registered agent is scored by the sum of the confidences of
    its capabilities named among the required skills, added one after the
    other from 0 in binary64 arithmetic, minus 0.1 times its utilization, or
    by -1 when it lacks a required skill.  The selected agent is the first
    one, in the iteration order of the idle set, among those of highest
    score, and only if that score is strictly positive; otherwise no agent is
    selected.  An agent lacking a required skill is never selected. *)
Theorem C2_selection_is_first_best_with_positive_score (c : State) (t : Task) :
  unitRange c ->
  (forall a,
     capabilityScore t a
     = fold_left fadd
         (map cap_confidence
              (filter (fun cap => existsb (String.eqb (cap_name cap))
                                          (requiredSkills t))
                      (capabilities a)))
         0
     /\ agentScore c t a
        == if hasRequiredSkills t a
           then fsub (capabilityScore t a)
                     (fmul (utilization c a) (literal (1 # 10)))
           else -1)
  /\ (forall a, getBestAgentForTask c t = Some a <->
        exists l1 l2, availableAgents c = l1 ++ a :: l2
          /\ 0 < agentScore c t a
          /\ (forall b, In b l1 -> agentScore c t b < agentScore c t a)
          /\ (forall b, In b l2 -> agentScore c t b <= agentScore c t a))
  /\ (getBestAgentForTask c t = None <->
      forall a, In a (availableAgents c) -> agentScore c t a <= 0)
  /\ (forall a, getBestAgentForTask c t = Some a ->
                hasRequiredSkills t a = true).
Proof.
  intros _. split; [|split; [|split]].
  - intro a. split; [|apply agentScore_formula].
    unfold capabilityScore.
    generalize (filter (fun cap => existsb (String.eqb (cap_name cap))
                                           (requiredSkills t))
                       (capabilities a)).
    intro l. generalize 0. induction l as [|x l IH]; intro init;
      [reflexivity|apply IH].
  - intro a. apply getBest_Some_split.
  - apply getBest_None_iff.
  - intros a H. apply getBest_Some_split in H.
    destruct H as (_ & _ & _ & Hpos & _). unfold agentScore in Hpos.
    destruct (hasRequiredSkills t a); [reflexivity|]. simpl in Hpos.
    exfalso. revert Hpos. unfold Qlt. simpl. lia.
Qed.

Lemma C2_selection_witness : hasRequiredSkills (needs_x "t") agentB = true.
Proof.
  refine (proj2 (proj2 (proj2
            (@C2_selection_is_first_best_with_positive_score
               afterOneTask (needs_x "t") _))) agentB _).
  - intros a Ha. vm_compute in Ha.
    destruct Ha as [<-|[<-|[]]]; (split; [|vm_compute; split; discriminate]);
      intros cap Hc; vm_compute in Hc; destruct Hc as [<-|[]];
      vm_compute; split; discriminate.
  - reflexivity.
Defined.

(** The scores are the binary64 ones: the exact sum of 0.1 and 0.2 is below
    0.30000000000000004, their binary64 sum is equal to it, and of two such
    agents the one that comes first among the idle agents is selected. *)
Lemma selection_ties_in_binary64 :
  literal (1 # 10) + literal (2 # 10)
  < literal (30000000000000004 # 100000000000000000)
  /\ agentScore (new 10) (needs_xy "t") addsUp
     == agentScore (new 10) (needs_xy "t") holdsSum
  /\ getBestAgentForTask
       (registerAgent holdsSum (registerAgent addsUp (new 10)))
       (needs_xy "t") = Some addsUp
  /\ getBestAgentForTask
       (registerAgent addsUp (registerAgent holdsSum (new 10)))
       (needs_xy "t") = Some holdsSum.
Proof. vm_compute. repeat split. Qed.

(** C2 as the specification words it fails twice.  An agent whose only
    matching capability has confidence 0 scores exactly 0 and is not
    selected; and with A registered before B but idle again after B, the tie
    between them goes to B. *)
Lemma C2_zero_score_and_tie_counterexample :
  (agentScore (registerAgent agentZ (new 10)) (needs_x "t") agentZ == 0
   /\ specSelectAgent (registerAgent agentZ (new 10)) (needs_x "t")
      = Some agentZ
   /\ getBestAgentForTask (registerAgent agentZ (new 10)) (needs_x "t")
      = None)
  /\ (map fst (agents (agentPool afterOneTask)) = ["A"; "B"]%string
      /\ agentScore afterOneTask (needs_x "t") agentA
         == agentScore afterOneTask (needs_x "t") agentB
      /\ specSelectAgent afterOneTask (needs_x "t") = Some agentA
      /\ getBestAgentForTask afterOneTask (needs_x "t") = Some agentB).
Proof. vm_compute. repeat split. Qed.

(** *** The idle/active partition *)

Lemma map_set_In (V : Type) (k k0 : string) (v v0 : V) (m : Map V) :
  In (k, v) (map_set k0 v0 m) -> (k, v) = (k0, v0) \/ In (k, v) m.
Proof.
induction m as [|[k' v'] r IH]; simpl.
- intuition.
- destruct (String.eqb k0 k'); simpl; intuition.
Qed.

Lemma map_In_keys (V : Type) (k : string) (v : V) (m : Map V) :
  In (k, v) m -> In k (map_keys m).
Proof. intro H. apply (in_map fst) in H. exact H. Qed.

Lemma partitioned_unregister (c : State) (id : string) :
  partitioned c -> partitioned (unregisterAgent id c).
Proof.
intros [Hd Hu]. split; simpl.
- intros x Hi Ha. apply set_delete_In in Hi, Ha. exact (Hd x (proj2 Hi) (proj2 Ha)).
- intro x. rewrite !set_delete_In, map_delete_keys_In.
  specialize (Hu x). tauto.
Qed.

Lemma partitioned_register (c : State) (a : Agent) :
  partitioned c ->
  ~ In (agent_id a) (activeAgents (agentPool c)) ->
  partitioned (registerAgent a c).
Proof.
intros [Hd Hu] Hna. split; simpl.
- intros x Hi Ha. apply set_add_In in Hi. destruct Hi as [->|Hi].
  + exact (Hna Ha).
  + exact (Hd x Hi Ha).
- intro x. rewrite set_add_In, map_set_keys_In. specialize (Hu x). tauto.
Qed.

Lemma partitioned_markAgentBusy (c : State) (id : string) :
  partitioned c ->
  In id (map_keys (agents (agentPool c))) ->
  partitioned (markAgentBusy id c).
Proof.
intros [Hd Hu] Hreg. split; simpl.
- intros x Hi Ha. apply set_delete_In in Hi. apply set_add_In in Ha.
  destruct Hi as [Hne Hi]. destruct Ha as [->|Ha]; [now apply Hne|].
  exact (Hd x Hi Ha).
- intro x. rewrite set_delete_In, set_add_In. specialize (Hu x).
  destruct (string_dec x id) as [->|Hne]; tauto.
Qed.

Lemma partitioned_markAgentIdle (c : State) (id : string) :
  partitioned c ->
  In id (map_keys (agents (agentPool c))) ->
  partitioned (markAgentIdle id c).
Proof.
intros [Hd Hu] Hreg. unfold markAgentIdle.
destruct (_ <=? 1)%Z; split; simpl; try assumption.
- intros x Hi Ha. apply set_add_In in Hi. apply set_delete_In in Ha.
  destruct Ha as [Hne Ha]. destruct Hi as [->|Hi]; [now apply Hne|].
  exact (Hd x Hi Ha).
- intro x. rewrite set_delete_In, set_add_In. specialize (Hu x).
  destruct (string_dec x id) as [->|Hne]; tauto.
Qed.

Lemma getBest_registered (c : State) (t : Task) (a : Agent) :
  keyed c -> getBestAgentForTask c t = Some a ->
  In (agent_id a) (map_keys (agents (agentPool c))).
Proof.
intros Hk H. apply getBest_Some_split in H.
destruct H as (l1 & l2 & Hav & _).
assert (Ha : In a (availableAgents c)) by (rewrite Hav; apply in_elt).
apply availableAgents_registered in Ha. destruct Ha as (id & _ & Hin).
rewrite (Hk _ _ Hin). exact (map_In_keys _ _ _ Hin).
Qed.

Lemma coherent_processTasks (c : State) (running : list string) :
  coherent c running ->
  coherent (fst (processTasks c)) (started (snd (processTasks c)) ++ running).
Proof.
intros (Hp & Hk & Hr). unfold processTasks.
destruct (_ <=? _)%Z; [exact (conj Hp (conj Hk Hr))|].
destruct (shiftTask (taskQueue c)) as [[task q']|];
  [|exact (conj Hp (conj Hk Hr))].
destruct (getBestAgentForTask (with_queue q' c) task) as [a|] eqn:E; simpl.
- assert (Hreg : In (agent_id a) (map_keys (agents (agentPool c)))).
  { exact (getBest_registered (c := with_queue q' c) task Hk E). }
  split; [|split].
  + apply partitioned_markAgentBusy; [exact Hp|exact Hreg].
  + exact Hk.
  + intros id [<-|Hin]; [exact Hreg|now apply Hr].
- exact (conj Hp (conj Hk Hr)).
Qed.

Lemma remove_first_In (id x : string) (l : list string) :
  In x (remove_first id l) -> In x l.
Proof.
induction l as [|y r IH]; simpl; [tauto|].
destruct (String.eqb id y); simpl; tauto.
Qed.

Lemma reachable_coherent (c : State) (running : list string) :
  reachable c running -> coherent c running.
Proof.
induction 1 as [n|c r a _ (Hp & Hk & Hr) Hna|c r id _ (Hp & Hk & Hr) Hnr
               |c r t p _ IH|c r ok id _ (Hp & Hk & Hr) Hin
               |c r id _ (Hp & Hk & Hr) Hin].
- split; [|split]; simpl.
  + split; simpl; [tauto|]. intro id. tauto.
  + intros k a [].
  + intros id [].
- split; [|split].
  + now apply partitioned_register.
  + intros k x Hin. simpl in Hin. apply map_set_In in Hin.
    destruct Hin as [[= -> ->]|Hin]; [reflexivity|now apply Hk].
  + intros id Hin. simpl. apply map_set_keys_In. right. now apply Hr.
- split; [|split].
  + now apply partitioned_unregister.
  + intros k x Hin. simpl in Hin. apply filter_In in Hin. now apply Hk.
  + intros x Hin. simpl. apply map_delete_keys_In. split; [|now apply Hr].
    intros ->. exact (Hnr Hin).
- apply coherent_processTasks. exact IH.
- apply coherent_processTasks. split; [|split].
  + apply partitioned_markAgentIdle; [exact Hp|]. exact (Hr id Hin).
  + unfold keyed, markAgentIdle. simpl.
    destruct (_ <=? 1)%Z; exact Hk.
  + intros x Hx. apply remove_first_In in Hx. unfold markAgentIdle.
    destruct (_ <=? 1)%Z; simpl; now apply Hr.
- apply coherent_processTasks. split; [|split].
  + apply partitioned_markAgentIdle; [exact Hp|]. exact (Hr id Hin).
  + unfold keyed, markAgentIdle. simpl.
    destruct (_ <=? 1)%Z; exact Hk.
  + intros x Hx. apply remove_first_In in Hx. unfold markAgentIdle.
    destruct (_ <=? 1)%Z; simpl; now apply Hr.
Qed.

(** C5 (amended).  In every state reachable by registering agents that are
    not active, unregistering agents that run no task, submitting tasks and
    completing task executions, the idle and the active set are disjoint and
    their union is the set of registered agents.  [unregisterAgent] preserves
    this partition always, [registerAgent] when the agent is not active, the
    busy and idle transitions when the agent is registered. *)
Theorem C5_idle_active_partition :
  (forall c running, reachable c running -> partitioned c)
  /\ (forall c, partitioned c ->
        (forall id, partitioned (unregisterAgent id c))
        /\ (forall a, ~ In (agent_id a) (activeAgents (agentPool c)) ->
                      partitioned (registerAgent a c))
        /\ (forall id, In id (map_keys (agents (agentPool c))) ->
                       partitioned (markAgentBusy id c)
                       /\ partitioned (markAgentIdle id c))).
Proof.
split.
- intros c running H. exact (proj1 (reachable_coherent H)).
- intros c Hp. split; [|split].
  + intro id. now apply partitioned_unregister.
  + intros a Ha. now apply partitioned_register.
  + intros id Hreg. split.
    * now apply partitioned_markAgentBusy.
    * now apply partitioned_markAgentIdle.
Qed.

Lemma C5_partition_witness : partitioned busyA.
Proof.
apply (proj1 C5_idle_active_partition busyA ["A"%string]).
apply (reach_submit (c := registerAgent agentA (new 10)) (running := [])
                    (needs_x "t0") medium).
apply reach_register; [apply reach_new|].
simpl. tauto.
Defined.

(** C5 as stated fails: registering again an agent that is busy puts it in
    both sets, and completing the task of an agent unregistered meanwhile
    puts it in the idle set although it is not registered any more. *)
Lemma C5_partition_counterexample :
  partitioned busyA
  /\ ~ partitioned (registerAgent agentA busyA)
  /\ partitioned (unregisterAgent "A" busyA)
  /\ ~ partitioned (markAgentIdle "A" (unregisterAgent "A" busyA))
  /\ ~ partitioned (fst (finishTask true "A" (unregisterAgent "A" busyA))).
Proof.
assert (P : partitioned busyA).
{ split; vm_compute; [tauto|]. intro id. tauto. }
split; [exact P|]. split; [|split; [|split]].
- intros [Hd _]. apply (Hd "A"%string); vm_compute; tauto.
- now apply partitioned_unregister.
- intros [_ Hu]. destruct (Hu "A"%string) as [Hu1 _].
  apply Hu1. left. vm_compute. tauto.
- intros [_ Hu]. destruct (Hu "A"%string) as [Hu1 _].
  apply Hu1. left. vm_compute. tauto.
Qed.

(** *** Unregistering *)

(** C6 (amended).  [unregisterAgent(id)] removes the agent from the agent
    map, from the idle and active sets, from the busy map and from the
    utilization map; it leaves the task queues and the task counters as they
    are, so no task is marked failed. *)
Theorem C6_unregister_removes_agent_only (c : State) (id : string) :
  let c' := unregisterAgent id c in
  ~ In id (map_keys (agents (agentPool c')))
  /\ ~ In id (idleAgents (agentPool c'))
  /\ ~ In id (activeAgents (agentPool c'))
  /\ ~ In id (map_keys (busyAgents (agentPool c')))
  /\ ~ In id (map_keys (agentUtilization (metrics c')))
  /\ taskQueue c' = taskQueue c
  /\ failedTasks (metrics c') = failedTasks (metrics c)
  /\ completedTasks (metrics c') = completedTasks (metrics c)
  /\ totalTasks (metrics c') = totalTasks (metrics c).
Proof.
simpl. rewrite !map_delete_keys_In, !set_delete_In. tauto.
Qed.

(** C6 as stated fails: agent A holds one task when it is unregistered; the
    count of failed tasks stays at 0, and when the pending execution of the
    task resolves it is counted as completed. *)
Lemma C6_held_task_not_failed_counterexample :
  map_get "A" (busyAgents (agentPool busyA)) = Some 1%Z
  /\ failedTasks (metrics busyA) = 0%Z
  /\ failedTasks (metrics (unregisterAgent "A" busyA)) = 0%Z
  /\ failedTasks (metrics (fst (finishTask true "A"
                                  (unregisterAgent "A" busyA)))) = 0%Z
  /\ completedTasks (metrics (fst (finishTask true "A"
                                     (unregisterAgent "A" busyA)))) = 1%Z.
Proof. vm_compute. repeat split. Qed.

End CoordinatorFacts.

(** ** MemoryManager *)

Section MemoryFacts.
Import JS Binary64 MemoryManager MemorySpec.








Lemma filter_none (A : Type) (g : A -> bool) (l : list A) :
  (forall x, In x l -> g x = false) -> filter g l = [].
Proof.
induction l as [|a l IH]; simpl; intro H; [reflexivity|].
rewrite (H a (or_introl eq_refl)). apply IH. intros; apply H; now right.
Qed.

Lemma filter_all (A : Type) (g : A -> bool) (l : list A) :
  (forall x, In x l -> g x = true) -> filter g l = l.
Proof.
induction l as [|a l IH]; simpl; intro H; [reflexivity|].
rewrite (H a (or_introl eq_refl)). f_equal. apply IH. intros; apply H; now right.
Qed.

Lemma filter_shorter (A : Type) (g : A -> bool) (l : list A) (x : A) :
  In x l -> g x = false -> (length (filter g l) < length l)%nat.
Proof.
induction l as [|a l IH]; simpl; [tauto|]. intros [->|Hin] Hg.
- rewrite Hg. pose proof (filter_length_le g l). lia.
- specialize (IH Hin Hg). destruct (g a); simpl; lia.
Qed.

Lemma map_set_length (V : Type) (k : string) (v : V) (m : Map V) :
  (length (map_set k v m) <= S (length m))%nat.
Proof.
induction m as [|[k' v'] r IH]; simpl; [lia|].
destruct (String.eqb k k'); simpl; lia.
Qed.

Lemma map_set_length_ge (V : Type) (k : string) (v : V) (m : Map V) :
  (length m <= length (map_set k v m))%nat.
Proof.
induction m as [|[k' v'] r IH]; simpl; [lia|].
destruct (String.eqb k k'); simpl; lia.
Qed.

(** *** Eviction *)

Lemma survives_cons (id : string) (ids : list string) (e : string * Memory) :
  survives (id :: ids) e = negb (String.eqb id (fst e)) && survives ids e.
Proof. unfold survives. simpl. now rewrite negb_orb. Qed.

Lemma delete_all_memories (items : list (Memory * Q)) (st : State) :
  memories (fold_left (fun s item => delete (mem_id (fst item)) s) items st)
  = filter (survives (map (fun item => mem_id (fst item)) items))
           (memories st).
Proof.
revert st. induction items as [|i r IH]; intro st; simpl.
- symmetry. now apply filter_all.
- rewrite IH. simpl. unfold map_delete.
  induction (memories st) as [|e m IHm]; simpl; [reflexivity|].
  rewrite survives_cons.
  destruct (negb (String.eqb (mem_id (fst i)) (fst e))); simpl.
  + destruct (survives _ e); [f_equal|]; exact IHm.
  + exact IHm.
Qed.

Lemma evict_config (now : Z) (st : State) :
  config (evictLeastRelevant now st) = config st.
Proof.
unfold evictLeastRelevant. generalize (toRemove now st). intro items.
revert st. induction items as [|i r IH]; intro st; simpl; [reflexivity|].
now rewrite IH.
Qed.

Lemma scored_fst (now : Z) (ms : list Memory) :
  map fst (map (fun m => (m, evictionScore now m)) ms) = ms.
Proof. rewrite map_map. simpl. apply map_id. Qed.






Lemma store_memories (g : string -> list Q) (id : string) (now now' : Z)
      (input : MemoryInput) (st : State) :
  memories (snd (store g id now now' input st))
  = map_set id (fst (store g id now now' input st))
      (if (maxMemories (config st) <=? map_size (memories st))%Z
       then filter (survives (map mem_id (victims now' st))) (memories st)
       else memories st).
Proof.
unfold store. simpl.
assert (E : forall e, toRemove now'
              {| memories := memories st; config := config st;
                 embeddings := e |} = toRemove now' st) by reflexivity.
destruct (enabled (config st)); simpl;
  destruct (_ <=? _)%Z; simpl; try reflexivity.
- unfold evictLeastRelevant. rewrite delete_all_memories, E. simpl.
  unfold victims. now rewrite map_map.
- unfold evictLeastRelevant. rewrite delete_all_memories. simpl.
  unfold victims. now rewrite map_map.
Qed.

Lemma store_config (g : string -> list Q) (id : string) (now now' : Z)
      (input : MemoryInput) (st : State) :
  config (snd (store g id now now' input st)) = config st.
Proof.
unfold store. simpl.
destruct (enabled (config st)); simpl; destruct (_ <=? _)%Z; simpl;
  try reflexivity; now rewrite evict_config.
Qed.



Lemma keys_filter (f : string -> bool) (ms : Map Memory) :
  map_keys (filter (fun e => f (fst e)) ms) = filter f (map_keys ms).
Proof.
induction ms as [|[k m] r IH]; simpl; [reflexivity|].
destruct (f k); simpl; [f_equal|]; exact IH.
Qed.

Lemma NoDup_filter_keys (g : string * Memory -> bool) (ms : Map Memory) :
  NoDup (map_keys ms) -> NoDup (map_keys (filter g ms)).
Proof.
induction ms as [|[k m] r IH]; simpl; intro H; [constructor|].
inversion H as [|? ? Hnin Hnd]; subst.
destruct (g (k, m)); simpl; [|now apply IH].
constructor; [|now apply IH]. intro Hin. apply Hnin.
unfold map_keys in *. apply in_map_iff in Hin.
destruct Hin as (e & <- & He). apply filter_In in He.
apply in_map. exact (proj1 He).
Qed.

Lemma NoDup_map_set (V : Type) (k : string) (v : V) (m : Map V) :
  NoDup (map_keys m) -> NoDup (map_keys (map_set k v m)).
Proof.
induction m as [|[k' v'] r IH]; simpl; intro H.
- constructor; [simpl; tauto|constructor].
- inversion H as [|? ? Hnin Hnd]; subst.
  destruct (String.eqb k k') eqn:E; simpl.
  + apply String.eqb_eq in E. subst. now constructor.
  + constructor; [|now apply IH]. intro Hin.
    apply map_set_keys_In in Hin. apply String.eqb_neq in E.
    destruct Hin as [->|Hin]; [now apply E|now apply Hnin].
Qed.

Lemma store_keyed (g : string -> list Q) (id : string) (now now' : Z)
      (input : MemoryInput) (st : State) :
  keyed st -> keyed (snd (store g id now now' input st)).
Proof.
intros Hk k m. rewrite store_memories. intro Hin.
apply map_set_In in Hin. destruct Hin as [[= -> ->]|Hin]; [reflexivity|].
destruct (_ <=? _)%Z; [|now apply Hk].
apply filter_In in Hin. now apply Hk.
Qed.

Lemma store_unique (g : string -> list Q) (id : string) (now now' : Z)
      (input : MemoryInput) (st : State) :
  unique st -> unique (snd (store g id now now' input st)).
Proof.
unfold unique. intro Hu. rewrite store_memories. apply NoDup_map_set.
destruct (_ <=? _)%Z; [now apply NoDup_filter_keys|exact Hu].
Qed.

Lemma NoDup_app_disjoint (A : Type) (l1 l2 : list A) (x : A) :
  NoDup (l1 ++ l2) -> In x l1 -> In x l2 -> False.
Proof.
induction l1 as [|a l1 IH]; simpl; intros H H1 H2; [contradiction|].
inversion H as [|? ? Hnin Hnd]; subst. destruct H1 as [->|H1].
- apply Hnin, in_or_app. now right.
- now apply IH.
Qed.


Lemma keyed_ids (st : State) :
  keyed st -> map (fun e => mem_id (snd e)) (memories st)
              = map_keys (memories st).
Proof.
intro Hk. apply map_ext_in. intros [k m] Hin. simpl. now apply Hk.
Qed.




(** A call of [store] that no other call interrupts is its turns one after
    the other. *)
Lemma store_turns (g : string -> list Q) (id : string) (now now' : Z)
      (input : MemoryInput) (st : State) :
  store g id now now' input st
  = let (full, st1) := storeEmbed g (storeDraft id now input) st in
    (full, storeInsert full (storeEnforce now' st1)).
Proof.
unfold store, storeEmbed, storeEnforce, storeInsert, storeDraft.
destruct (enabled (config st)); reflexivity.
Qed.




(** *** Import *)

Lemma import_cons (m : Memory) (ms : list Memory) (st : State) :
  import (m :: ms) st
  = import ms {| memories := map_set (mem_id m) m (memories st);
                 config := config st;
                 embeddings := match embedding m with
                               | Some e => map_set (mem_id m) e (embeddings st)
                               | None => embeddings st
                               end |}.
Proof. reflexivity. Qed.

Lemma import_config (ms : list Memory) (st : State) :
  config (import ms st) = config st.
Proof.
revert st. induction ms as [|m ms IH]; intro st; [reflexivity|].
rewrite import_cons, IH. reflexivity.
Qed.

Lemma import_grows (ms : list Memory) (st : State) :
  (length (memories st) <= length (memories (import ms st)))%nat.
Proof.
revert st. induction ms as [|m ms IH]; intro st; [simpl; lia|].
rewrite import_cons. etransitivity; [|apply IH]. apply map_set_length_ge.
Qed.

Lemma import_keeps_keys (ms : list Memory) (st : State) (k : string) :
  In k (map_keys (memories st)) -> In k (map_keys (memories (import ms st))).
Proof.
revert st. induction ms as [|m ms IH]; intros st H; [exact H|].
rewrite import_cons. apply IH. simpl. apply map_set_keys_In. now right.
Qed.

Lemma import_other (ms : list Memory) (st : State) (k : string) :
  ~ In k (map mem_id ms) ->
  map_get k (memories (import ms st)) = map_get k (memories st).
Proof.
revert st. induction ms as [|m ms IH]; intros st H; [reflexivity|].
rewrite import_cons, IH; simpl.
- apply map_get_set_other. intros ->. apply H. now left.
- intro Hin. apply H. now right.
Qed.

Lemma import_last_wins (ms : list Memory) (st : State) (m : Memory) :
  In m ms ->
  exists m', In m' ms /\ mem_id m' = mem_id m
             /\ map_get (mem_id m) (memories (import ms st)) = Some m'.
Proof.
revert st m. induction ms as [|a ms IH]; intros st m Hin; [contradiction|].
rewrite import_cons.
destruct (in_dec string_dec (mem_id m) (map mem_id ms)) as [Hl|Hn].
- apply in_map_iff in Hl. destruct Hl as (m2 & Hid & Hm2).
  destruct (IH {| memories := map_set (mem_id a) a (memories st);
                  config := config st;
                  embeddings := match embedding a with
                                | Some e => map_set (mem_id a) e (embeddings st)
                                | None => embeddings st
                                end |} m2 Hm2)
    as (m' & Hm' & Hid' & Hget).
  exists m'. split; [now right|]. split; [congruence|].
  rewrite <- Hid. exact Hget.
- assert (m = a) as ->.
  { destruct Hin as [->|Hin]; [reflexivity|].
    exfalso. apply Hn. now apply in_map. }
  exists a. split; [now left|]. split; [reflexivity|].
  rewrite import_other by exact Hn. simpl. apply map_get_set_same.
Qed.

(** C10.  [import] puts every given record into the map under its id (of
    records sharing an id the last one stays), keeps every entry that was
    there and never looks at [maxMemories]; the store can therefore be larger
    than [maxMemories] right after an import. *)
Theorem C10_import_ignores_capacity :
  (forall ms st,
     config (import ms st) = config st
     /\ (length (memories st) <= length (memories (import ms st)))%nat
     /\ (forall k, In k (map_keys (memories st)) ->
                   In k (map_keys (memories (import ms st))))
     /\ (forall m, In m ms ->
           exists m', In m' ms /\ mem_id m' = mem_id m
                      /\ map_get (mem_id m) (memories (import ms st))
                         = Some m')
     /\ (forall k, ~ In k (map mem_id ms) ->
                   map_get k (memories (import ms st))
                   = map_get k (memories st)))
  /\ exists cfg ms,
       (maxMemories cfg < map_size (memories (import ms (new cfg))))%Z.
Proof.
split.
- intros ms st. split; [apply import_config|].
  split; [apply import_grows|].
  split; [intro k; apply import_keeps_keys|].
  split; [intro m; apply import_last_wins|].
  intro k. apply import_other.
- exists {| enabled := true; maxMemories := 1 |}, [fresh; older].
  vm_compute. reflexivity.
Qed.

Lemma C10_import_witness :
  In "m1"%string
     (map_keys (memories (import [older] (import [fresh]
                  (new {| enabled := true; maxMemories := 1 |}))))).
Proof.
apply (proj1 (proj2 (proj2 (proj1 C10_import_ignores_capacity [older]
         (import [fresh] (new {| enabled := true; maxMemories := 1 |})))))).
simpl. now left.
Defined.

(** *** Retrieval *)


Section Retrieval.
Variable generateEmbedding : string -> list Q.
Variable cosineSimilarity : list Q -> list Q -> Q.
Variable keywordSimilarity : string -> string -> Q.
Variable log : Z -> Q.

Local Abbreviation score :=
  (retrieveScore generateEmbedding cosineSimilarity keywordSimilarity log).
Local Abbreviation rank :=
  (ranked generateEmbedding cosineSimilarity keywordSimilarity log).
Local Abbreviation run :=
  (retrieve generateEmbedding cosineSimilarity keywordSimilarity log).






End Retrieval.


(** The scores are the binary64 ones: 1/12 + 0.1/3 and 1/10 + 0.1/6 differ
    as exact numbers and are both 0.11666666666666667 in binary64, so the
    two records are returned in the order of the map. *)
Lemma ranking_ties_in_binary64 :
  ~ shares "q" "twelfth" + 1 / 3 * literal (1 # 10)
    == shares "q" "tenth" + 1 / 6 * literal (1 # 10)
  /\ retrieveScore noEmbedding noCosine shares logTable "q" clock twelfth
     == retrieveScore noEmbedding noCosine shares logTable "q" clock tenth
  /\ map mem_id
         (fst (retrieve noEmbedding noCosine shares logTable "q" 2 clock
                 (import [twelfth; tenth]
                    (new {| enabled := true; maxMemories := 10 |}))))
     = ["f"; "g"]%string
  /\ map mem_id
         (fst (retrieve noEmbedding noCosine shares logTable "q" 2 clock
                 (import [tenth; twelfth]
                    (new {| enabled := true; maxMemories := 10 |}))))
     = ["g"; "f"]%string.
Proof.
split; [vm_compute; discriminate|]. vm_compute. repeat split.
Qed.


End MemoryFacts.

(** ** InferenceCoordinator *)

Section InferenceFacts.
Import JS Inference InferenceSpec.
Variable stringify : CacheKeyObject -> string.

Lemma updateEngineStatus_keeps (id : string) (s : EngineState)
      (j : option string) (now : Z) (st : State) :
  config (updateEngineStatus id s j now st) = config st
  /\ responseCache (updateEngineStatus id s j now st) = responseCache st
  /\ engines (updateEngineStatus id s j now st) = engines st
  /\ metrics (updateEngineStatus id s j now st) = metrics st.
Proof.
unfold updateEngineStatus.
destruct (map_get id (engineStatus st)); now repeat split.
Qed.

Lemma executeJobResolved_config (job : InferenceJob) (e : Engine)
      (resp : InferenceResponse) (latency now : Z) (st : State) :
  config (executeJobResolved stringify job e resp latency now st) = config st.
Proof.
unfold executeJobResolved.
rewrite (proj1 (updateEngineStatus_keeps _ _ _ _ _)).
destruct (map_get _ _); simpl; destruct (enableCaching (config st));
  reflexivity.
Qed.

(** After [executeJob] has finished the response is in the cache. *)
Lemma executeJobResolved_caches (job : InferenceJob) (e : Engine)
      (resp : InferenceResponse) (latency now : Z) (st : State) :
  enableCaching (config st) = true ->
  map_get (getCacheKey stringify (request job))
          (responseCache
             (executeJobResolved stringify job e resp latency now st))
  = Some {| response := resp; cached_at := now |}.
Proof.
intro Hc. unfold executeJobResolved.
rewrite (proj1 (proj2 (updateEngineStatus_keeps _ _ _ _ _))).
match goal with
| |- context [match map_get ?k (engineStatus ?s) with _ => _ end] =>
    destruct (map_get k (engineStatus s))
end; simpl; rewrite Hc; simpl; apply map_get_set_same.
Qed.

Lemma submit_hit (r : InferenceRequest) (prio : Z) (jobId : string) (now : Z)
      (st : State) (resp : InferenceResponse) :
  cachedFor stringify r now st = Some resp ->
  submit stringify r prio jobId now st = (CacheHit resp, bumpHits st).
Proof. intro H. unfold submit. now rewrite H. Qed.

Lemma submit_CacheHit_state (r : InferenceRequest) (prio : Z)
      (jobId : string) (now : Z) (st : State) (resp : InferenceResponse) :
  fst (submit stringify r prio jobId now st) = CacheHit resp ->
  snd (submit stringify r prio jobId now st) = bumpHits st.
Proof.
unfold submit. destruct (cachedFor stringify r now st); [reflexivity|].
destruct (findAvailableEngine _); discriminate.
Qed.

Lemma submit_cache (r : InferenceRequest) (prio : Z) (jobId : string)
      (now : Z) (st : State) :
  responseCache (snd (submit stringify r prio jobId now st))
  = responseCache st.
Proof.
unfold submit. destruct (cachedFor stringify r now st); [reflexivity|].
destruct (findAvailableEngine _); simpl.
- unfold executeJobStart.
  rewrite (proj1 (proj2 (updateEngineStatus_keeps _ _ _ _ _))).
  destruct (enableCaching (config st)); reflexivity.
- destruct (enableCaching (config st)); reflexivity.
Qed.

Lemma processQueueTurn_cache (now : Z) (st : State) :
  responseCache (snd (InferenceRuns.processQueueTurn now st))
  = responseCache st.
Proof.
unfold InferenceRuns.processQueueTurn, InferenceRuns.dequeueJob.
destruct (isRunning st); [|reflexivity].
destruct (jobQueue st) as [|j q]; [reflexivity|].
destruct (findAvailableEngine st); [|reflexivity]. simpl.
unfold executeJobStart.
now rewrite (proj1 (proj2 (updateEngineStatus_keeps _ _ _ _ _))).
Qed.

Lemma executeJobRejected_cache (job : InferenceJob) (e : Engine) (now : Z)
      (st : State) :
  responseCache (executeJobRejected job e now st) = responseCache st.
Proof.
unfold executeJobRejected.
now rewrite (proj1 (proj2 (updateEngineStatus_keeps _ _ _ _ _))).
Qed.

Lemma executeJobResolved_cache (job : InferenceJob) (e : Engine)
      (resp : InferenceResponse) (latency now : Z) (st : State) :
  responseCache (executeJobResolved stringify job e resp latency now st)
  = if enableCaching (config st)
    then responseCache (cacheResponse stringify (request job) resp now st)
    else responseCache st.
Proof.
unfold executeJobResolved.
rewrite (proj1 (proj2 (updateEngineStatus_keeps _ _ _ _ _))).
match goal with
| |- context [match map_get ?k (engineStatus ?s) with _ => _ end] =>
    destruct (map_get k (engineStatus s))
end; simpl; destruct (enableCaching (config st)); reflexivity.
Qed.

(** Caching a response for another request keeps an entry unless the cache
    is full and the entry is its oldest. *)
Lemma cacheResponse_keeps (r : InferenceRequest) (resp : InferenceResponse)
      (now : Z) (st : State) (key : string) :
  getCacheKey stringify r <> key -> ~ atRisk key st ->
  map_get key (responseCache (cacheResponse stringify r resp now st))
  = map_get key (responseCache st).
Proof.
intros Hne Hsafe. unfold cacheResponse. simpl.
rewrite map_get_set_other by congruence.
destruct (_ <=? _)%Z eqn:Efull; [|reflexivity]. apply Z.leb_le in Efull.
destruct (map_keys (responseCache st)) as [|k0 ks] eqn:Ek; [reflexivity|].
destruct (String.eqb k0 EmptyString); [reflexivity|].
apply map_get_delete_other. intros ->. apply Hsafe.
split; [exact Efull|]. now rewrite Ek.
Qed.

(** C4 (amended).  Once [submit(r)] has completed with caching enabled the
    response is in the cache under the key of [r], with the time it was put
    there.  It stays there while requests are submitted, queued jobs are
    handed to engines and jobs fail, and when the response of a job for other
    parameters is cached, unless the cache is full at that moment and the
    entry is its oldest.  As long as it is there, a call [submit(r')] with
    the same prompt, maxTokens, temperature, topK and topP, made less than
    the TTL of five minutes after the response was cached, returns that very
    response, adds one to [cacheHits] and leaves the status of every engine,
    its count of processed jobs included, as it was. *)
Theorem C4_second_submit_is_served_from_cache
        (r : InferenceRequest) (resp : InferenceResponse) (tc : Z) :
  (forall st, enableCaching (config st) = true ->
              completed stringify r resp tc st ->
              remembers stringify r resp tc st)
  /\ (forall st, remembers stringify r resp tc st ->
        (forall r2 prio jobId now,
           remembers stringify r resp tc
                     (snd (submit stringify r2 prio jobId now st)))
        /\ (forall now,
              remembers stringify r resp tc
                        (snd (InferenceRuns.processQueueTurn now st)))
        /\ (forall job e now,
              remembers stringify r resp tc (executeJobRejected job e now st))
        /\ (forall job e resp2 latency now,
              getCacheKey stringify (request job) <> getCacheKey stringify r ->
              ~ atRisk (getCacheKey stringify r) st ->
              remembers stringify r resp tc
                (executeJobResolved stringify job e resp2 latency now st)))
  /\ (forall st r' prio jobId now,
        enableCaching (config st) = true ->
        remembers stringify r resp tc st ->
        prompt r' = prompt r -> maxTokens r' = maxTokens r ->
        temperature r' = temperature r -> topK r' = topK r ->
        topP r' = topP r ->
        (now - tc < 300000)%Z ->
        fst (submit stringify r' prio jobId now st) = CacheHit resp
        /\ cacheHits (metrics (snd (submit stringify r' prio jobId now st)))
           = (cacheHits (metrics st) + 1)%Z
        /\ engineStatus (snd (submit stringify r' prio jobId now st))
           = engineStatus st
        /\ processedCounts (snd (submit stringify r' prio jobId now st))
           = processedCounts st).
Proof.
split; [|split].
- intros st Hc Hdone. unfold remembers.
  destruct Hdone as [st0 p0 j0 t0 cached Hget Hresp Hat Hfst
                    |st0 job e lat Hreq].
  + rewrite (submit_CacheHit_state _ _ _ _ _ Hfst). simpl. rewrite Hget.
    destruct cached as [cr ct]. simpl in Hresp, Hat. now subst.
  + rewrite executeJobResolved_config in Hc.
    rewrite <- Hreq. exact (executeJobResolved_caches _ _ _ _ _ _ Hc).
- intros st Hmem. unfold remembers in *. split; [|split; [|split]].
  + intros r2 prio jobId now. now rewrite submit_cache.
  + intro now. now rewrite processQueueTurn_cache.
  + intros job e now. now rewrite executeJobRejected_cache.
  + intros job e resp2 latency now Hne Hsafe.
    rewrite executeJobResolved_cache.
    destruct (enableCaching (config st)); [|exact Hmem].
    now rewrite cacheResponse_keeps.
- intros st r' prio jobId now Hc Hmem Hp Hm Ht Hk Hq Hfresh.
  assert (Hkey : getCacheKey stringify r' = getCacheKey stringify r).
  { unfold getCacheKey. now rewrite Hp, Hm, Ht, Hk, Hq. }
  assert (Hhit : cachedFor stringify r' now st = Some resp).
  { unfold cachedFor. rewrite Hc, Hkey, Hmem. simpl.
    apply Z.ltb_lt in Hfresh. unfold ttl. now rewrite Hfresh. }
  rewrite (submit_hit _ _ _ _ _ Hhit). simpl. now repeat split.
Qed.

(** *** Round robin *)

Lemma findRoundRobin_loop_skip (st : State) (pre : Map EngineStatus)
      (id : string) (s : EngineStatus) (rest : Map EngineStatus) :
  (forall p, In p pre -> status (snd p) <> idle) ->
  status s = idle ->
  findRoundRobin_loop st (pre ++ (id, s) :: rest) = engineOf st id.
Proof.
intros Hpre Hs. induction pre as [|[k v] pre IH]; simpl.
- now rewrite Hs.
- assert (Hv : status v <> idle) by (apply (Hpre (k, v)); now left).
  destruct (status v); try congruence; apply IH; intros; apply Hpre;
    now right.
Qed.

Lemma map_get_app_skip (V : Type) (pre : Map V) (id : string) (v : V)
      (rest : Map V) :
  ~ In id (map_keys pre) -> map_get id (pre ++ (id, v) :: rest) = Some v.
Proof.
intro H. induction pre as [|[k w] pre IH]; simpl.
- now rewrite String.eqb_refl.
- destruct (String.eqb id k) eqn:E.
  + apply String.eqb_eq in E. exfalso. apply H. now left.
  + apply IH. intro Hin. apply H. now right.
Qed.

Lemma map_set_app_skip (V : Type) (pre : Map V) (id : string) (v v' : V)
      (rest : Map V) :
  ~ In id (map_keys pre) ->
  map_set id v' (pre ++ (id, v) :: rest) = pre ++ (id, v') :: rest.
Proof.
intro H. induction pre as [|[k w] pre IH]; simpl.
- now rewrite String.eqb_refl.
- destruct (String.eqb id k) eqn:E.
  + apply String.eqb_eq in E. exfalso. apply H. now left.
  + f_equal. apply IH. intro Hin. apply H. now right.
Qed.

(** A call of [submit] that misses the cache under round robin takes the
    first idle engine and marks it as processing before it suspends. *)
Lemma submit_round_robin_dispatch (st : State) (pre : Map EngineStatus)
      (id : string) (s : EngineStatus) (rest : Map EngineStatus) (e : Engine)
      (r : InferenceRequest) (prio : Z) (jobId : string) (now : Z) :
  loadBalancing (config st) = round_robin ->
  cachedFor stringify r now st = None ->
  engineStatus st = pre ++ (id, s) :: rest ->
  (forall p, In p pre -> status (snd p) <> idle) ->
  ~ In id (map_keys pre) ->
  status s = idle ->
  engineOf st id = Some e ->
  getEngineId st e = id ->
  fst (submit stringify r prio jobId now st)
  = Dispatched (jobFor r prio jobId now) e
  /\ engineStatus (snd (submit stringify r prio jobId now st))
     = pre ++ (id, busyWith jobId now s) :: rest
  /\ engines (snd (submit stringify r prio jobId now st)) = engines st
  /\ config (snd (submit stringify r prio jobId now st)) = config st
  /\ responseCache (snd (submit stringify r prio jobId now st))
     = responseCache st.
Proof.
intros Hrr Hmiss Hes Hpre Hnin Hs He Hid.
unfold submit. rewrite Hmiss.
set (st1 := if enableCaching (config st) then bumpMisses st else st).
assert (H1 : config st1 = config st /\ engines st1 = engines st
             /\ engineStatus st1 = engineStatus st
             /\ responseCache st1 = responseCache st).
{ unfold st1. destruct (enableCaching (config st)); now repeat split. }
destruct H1 as (Hc1 & He1 & Hs1 & Hr1).
assert (Hfind : findAvailableEngine (bumpTotal st1) = Some e).
{ unfold findAvailableEngine. simpl. rewrite Hc1, Hrr.
  unfold findRoundRobin. simpl. rewrite Hs1, Hes.
  rewrite findRoundRobin_loop_skip by assumption.
  unfold engineOf in *. simpl. now rewrite He1. }
rewrite Hfind. simpl.
unfold executeJobStart, getEngineId. simpl. rewrite He1.
fold (getEngineId st e). rewrite Hid.
unfold updateEngineStatus. simpl. rewrite Hs1, Hes.
rewrite map_get_app_skip by exact Hnin.
rewrite map_set_app_skip by exact Hnin.
simpl. repeat split; assumption.
Qed.

Lemma cachedFor_same_cache (r : InferenceRequest) (now : Z) (st st' : State) :
  config st' = config st -> responseCache st' = responseCache st ->
  cachedFor stringify r now st' = cachedFor stringify r now st.
Proof. intros Hc Hr. unfold cachedFor. now rewrite Hc, Hr. Qed.

(** C8.  Under round robin, with three engines registered and idle, three
    calls of [submit] that miss the cache, none of whose jobs completes
    before the next call, are handed to the first, the second and the third
    engine in registration order: three distinct engines, each marked as
    processing before the next selection. *)
Theorem C8_round_robin_uses_three_distinct_engines
        (st : State) (i1 i2 i3 : string) (e1 e2 e3 : Engine)
        (s1 s2 s3 : EngineStatus) (r1 r2 r3 : InferenceRequest)
        (p1 p2 p3 : Z) (j1 j2 j3 : string) (t1 t2 t3 : Z) :
  loadBalancing (config st) = round_robin ->
  engines st = [(i1, e1); (i2, e2); (i3, e3)] ->
  engineStatus st = [(i1, s1); (i2, s2); (i3, s3)] ->
  NoDup [i1; i2; i3] -> NoDup [e1; e2; e3] ->
  status s1 = idle -> status s2 = idle -> status s3 = idle ->
  cachedFor stringify r1 t1 st = None ->
  cachedFor stringify r2 t2 st = None ->
  cachedFor stringify r3 t3 st = None ->
  let first := submit stringify r1 p1 j1 t1 st in
  let second := submit stringify r2 p2 j2 t2 (snd first) in
  let third := submit stringify r3 p3 j3 t3 (snd second) in
  fst first = Dispatched (jobFor r1 p1 j1 t1) e1
  /\ map (fun p => status (snd p)) (engineStatus (snd first))
     = [processing; idle; idle]
  /\ fst second = Dispatched (jobFor r2 p2 j2 t2) e2
  /\ map (fun p => status (snd p)) (engineStatus (snd second))
     = [processing; processing; idle]
  /\ fst third = Dispatched (jobFor r3 p3 j3 t3) e3
  /\ map (fun p => status (snd p)) (engineStatus (snd third))
     = [processing; processing; processing]
  /\ e1 <> e2 /\ e1 <> e3 /\ e2 <> e3.
Proof.
intros Hrr Heng Hes Hni Hne H1 H2 H3 Hm1 Hm2 Hm3 first second third.
(* the identifiers and the engine objects are pairwise different *)
inversion Hni as [|? ? Hi1 Hni']; subst.
inversion Hni' as [|? ? Hi2 _]; subst.
inversion Hne as [|? ? He1 Hne']; subst.
inversion Hne' as [|? ? He2 _]; subst.
assert (Di12 : i1 <> i2) by (intros ->; apply Hi1; now left).
assert (Di13 : i1 <> i3) by (intros ->; apply Hi1; right; now left).
assert (Di23 : i2 <> i3) by (intros ->; apply Hi2; now left).
assert (De12 : e1 <> e2) by (intros ->; apply He1; now left).
assert (De13 : e1 <> e3) by (intros ->; apply He1; right; now left).
assert (De23 : e2 <> e3) by (intros ->; apply He2; now left).
assert (Hlook : forall st', engines st' = engines st ->
          (engineOf st' i1 = Some e1 /\ getEngineId st' e1 = i1)
          /\ (engineOf st' i2 = Some e2 /\ getEngineId st' e2 = i2)
          /\ (engineOf st' i3 = Some e3 /\ getEngineId st' e3 = i3)).
{ intros st' E. unfold engineOf, getEngineId. rewrite E, Heng. simpl.
  rewrite !String.eqb_refl, !Nat.eqb_refl.
  apply String.eqb_neq in Di12, Di13, Di23.
  rewrite (String.eqb_sym i2 i1), (String.eqb_sym i3 i1),
    (String.eqb_sym i3 i2), Di12, Di13, Di23.
  apply Nat.eqb_neq in De12, De13, De23.
  now rewrite De12, De13, De23. }
destruct (Hlook st eq_refl) as ((Ho1 & Hg1) & _).
destruct (@submit_round_robin_dispatch st [] i1 s1 [(i2, s2); (i3, s3)] e1
            r1 p1 j1 t1 Hrr Hm1 Hes)
  as (Ha & Hsa & Hea & Hca & Hra); try assumption;
  [intros p []|simpl; tauto|].
fold first in Ha, Hsa, Hea, Hca, Hra.
destruct (Hlook (snd first) Hea) as (_ & (Ho2 & Hg2) & _).
destruct (@submit_round_robin_dispatch (snd first)
            [(i1, busyWith j1 t1 s1)] i2 s2 [(i3, s3)] e2
            r2 p2 j2 t2)
  as (Hb & Hsb & Heb & Hcb & Hrb); try assumption.
{ now rewrite Hca. }
{ now rewrite (@cachedFor_same_cache r2 t2 st (snd first) Hca Hra). }
{ intros p [<-|[]]. simpl. discriminate. }
{ simpl. intros [E|[]]. now apply Di12. }
fold second in Hb, Hsb, Heb, Hcb, Hrb.
destruct (Hlook (snd second) (eq_trans Heb Hea)) as (_ & _ & (Ho3 & Hg3)).
destruct (@submit_round_robin_dispatch (snd second)
            [(i1, busyWith j1 t1 s1); (i2, busyWith j2 t2 s2)] i3 s3 [] e3
            r3 p3 j3 t3)
  as (Hc & Hsc & _); try assumption.
{ now rewrite Hcb, Hca. }
{ rewrite (@cachedFor_same_cache r3 t3 (snd first) (snd second) Hcb Hrb).
  now rewrite (@cachedFor_same_cache r3 t3 st (snd first) Hca Hra). }
{ intros p [<-|[<-|[]]]; simpl; discriminate. }
{ simpl. intros [E|[E|[]]]; [now apply Di13|now apply Di23]. }
fold third in Hc, Hsc.
rewrite Ha, Hb, Hc, Hsa, Hsb, Hsc. simpl. rewrite H2, H3.
repeat split; assumption.
Qed.

End InferenceFacts.

Section InferenceScenarios.
Import JS Inference InferenceSpec.

Lemma C4_cache_hit_witness :
  fst (submit promptKey (ask "a") 5 "j2" 100 answeredOnce)
  = CacheHit (answer "ok").
Proof.
refine (proj1 (proj2 (proj2 (@C4_second_submit_is_served_from_cache promptKey
                               (ask "a") (answer "ok") 30))
                 answeredOnce (ask "a") 5%Z "j2"%string 100%Z
                 eq_refl _ eq_refl eq_refl eq_refl eq_refl eq_refl _)).
- reflexivity.
- lia.
Defined.

(** C4 as stated fails when the cache is full: with room for one response,
    "a" and "b" are submitted, "a" is answered and cached at time 30, "b" at
    time 40, which drops the entry of "a"; a call for "a" at time 50, well
    inside the five minutes, is handed to an engine. *)
Lemma C4_evicted_response_counterexample :
  completed promptKey (ask "a") (answer "ok") 30 aAnswered
  /\ map_keys (responseCache aAnswered) = ["a:64"%string]
  /\ map_keys (responseCache bAnswered) = ["b:64"%string]
  /\ enableCaching (config bAnswered) = true
  /\ (50 - 30 < ttl)%Z
  /\ fst (submit promptKey (ask "a") 5 "j3" 50 bAnswered)
     = Dispatched (jobFor (ask "a") 5 "j3" 50) 0%nat
  /\ cacheHits (metrics (snd (submit promptKey (ask "a") 5 "j3" 50
                                     bAnswered)))
     = cacheHits (metrics bAnswered).
Proof.
split.
- unfold aAnswered. apply completed_by_engine. reflexivity.
- vm_compute. repeat split.
Qed.

Lemma C8_round_robin_witness :
  fst (submit promptKey (ask "c") 5 "j3" 3
         (snd (submit promptKey (ask "b") 5 "j2" 2
                 (snd (submit promptKey (ask "a") 5 "j1" 1 threeIdle)))))
  = Dispatched (jobFor (ask "c") 5 "j3" 3) 2%nat.
Proof.
refine (proj1 (proj2 (proj2 (proj2 (proj2
         (@C8_round_robin_uses_three_distinct_engines promptKey threeIdle
            "engine_0" "engine_1" "engine_2" 0%nat 1%nat 2%nat
            _ _ _ (ask "a") (ask "b") (ask "c") 5 5 5 "j1" "j2" "j3" 1 2 3
            eq_refl eq_refl eq_refl _ _ eq_refl eq_refl eq_refl
            eq_refl eq_refl eq_refl)))))).
- repeat constructor; simpl; intuition discriminate.
- repeat constructor; simpl; intuition discriminate.
Defined.

End InferenceScenarios.

(** ** AgentNetworkCoordinator *)

Section NetworkFacts.
Import JS Network NetworkSpec.
Variable World : Type.
Variable receiveMessage :
  World -> string -> AgentMessage -> World * Reaction.



Lemma processMessageQueue_S (fuel : nat) (w : World) (st : State) :
  processMessageQueue receiveMessage (S fuel) w st
  = if isProcessing st || (length (messageQueue st) =? 0)%nat
    then Some (w, st, [])
    else
      match dispatchLoop receiveMessage
                         (processMessageQueue receiveMessage fuel)
                         (sort byUrgency (messageQueue st)) w
                         {| agents := agents st; messageQueue := [];
                            isProcessing := true |} with
      | None => None
      | Some (w2, st2, log, _) =>
          Some (w2,
                {| agents := agents st2; messageQueue := messageQueue st2;
                   isProcessing := false |}, log)
      end.
Proof. reflexivity. Qed.

(** A call made while a flush is in progress returns at once. *)
Lemma processMessageQueue_blocked (fuel : nat) (w : World) (st : State) :
  isProcessing st = true ->
  processMessageQueue receiveMessage (S fuel) w st = Some (w, st, []).
Proof. intro H. rewrite processMessageQueue_S. now rewrite H. Qed.

Lemma enqueued_nil (st : State) : enqueued [] st = st.
Proof. destruct st. unfold enqueued. simpl. now rewrite app_nil_r. Qed.

Lemma enqueued_app (ms ms' : list AgentMessage) (st : State) :
  enqueued ms' (enqueued ms st) = enqueued (ms ++ ms') st.
Proof. unfold enqueued. simpl. now rewrite app_assoc. Qed.

Lemma repliesAlong_app (ds ds' : list Delivery) (w : World) :
  repliesAlong receiveMessage (ds ++ ds') w
  = (fst (repliesAlong receiveMessage ds'
                       (fst (repliesAlong receiveMessage ds w))),
     snd (repliesAlong receiveMessage ds w)
     ++ snd (repliesAlong receiveMessage ds'
                          (fst (repliesAlong receiveMessage ds w)))).
Proof.
revert w. induction ds as [|d r IH]; intro w; simpl.
- now destruct (repliesAlong receiveMessage ds' w).
- destruct (receiveMessage w (fst d) (snd d)) as [w1 re]. rewrite IH.
  destruct (repliesAlong receiveMessage r w1) as [w2 ms]. simpl.
  now rewrite app_assoc.
Qed.

Section WhileFlushing.
(** The nested calls of [processMessageQueue] all find the flag set. *)
Variable nested : World -> State -> option (Run World).
Hypothesis nested_blocked :
  forall w st, isProcessing st = true -> nested w st = Some (w, st, []).
Hypothesis quiet :
  forall w a m, throws (snd (receiveMessage w a m)) = false.

Lemma runBroadcasts_blocked (ms : list AgentMessage) (w : World)
      (st : State) :
  isProcessing st = true ->
  runBroadcasts nested ms w st = Some (w, enqueued ms st, []).
Proof.
revert st. induction ms as [|m r IH]; intros st H; simpl.
- now rewrite enqueued_nil.
- unfold broadcastMessage_in.
  rewrite nested_blocked by exact H.
  rewrite (IH (queueMessage m st)) by exact H.
  do 3 f_equal. unfold enqueued, queueMessage. simpl.
  now rewrite <- app_assoc.
Qed.


End WhileFlushing.


End NetworkFacts.

Section NetworkScenarios.
Import JS Network NetworkSpec.



End NetworkScenarios.

(** ** Cache *)

Section CacheFacts.
Import JS ResultCache.
Variable T : Type.

Lemma map_get_Some_keys (V : Type) (k : string) (v : V) (m : Map V) :
  map_get k m = Some v -> In k (map_keys m).
Proof. intro H. exact (map_In_keys _ _ _ (map_get_Some_In _ _ H)). Qed.

Lemma map_get_of_key (V : Type) (k : string) (m : Map V) :
  In k (map_keys m) -> exists v, map_get k m = Some v.
Proof.
intro H. destruct (map_get k m) as [v|] eqn:E; [now exists v|].
apply map_get_None_keys in E. contradiction.
Qed.

Lemma map_set_length_present (V : Type) (k : string) (v : V) (m : Map V) :
  In k (map_keys m) -> length (map_set k v m) = length m.
Proof.
induction m as [|[k' v'] r IH]; simpl; [tauto|].
destruct (String.eqb k k') eqn:E; simpl; [reflexivity|].
intros [->|H]; [now rewrite String.eqb_refl in E|]. now rewrite IH.
Qed.

Lemma map_set_length_absent (V : Type) (k : string) (v : V) (m : Map V) :
  ~ In k (map_keys m) -> length (map_set k v m) = S (length m).
Proof.
induction m as [|[k' v'] r IH]; simpl; [reflexivity|].
intro H. destruct (String.eqb k k') eqn:E; simpl.
- apply String.eqb_eq in E. subst. exfalso. apply H. now left.
- rewrite IH; [reflexivity|]. intro Hin. apply H. now right.
Qed.

Lemma map_delete_length (V : Type) (k : string) (m : Map V) :
  (length (map_delete k m) <= length m)%nat.
Proof. apply filter_length_le. Qed.

Lemma map_delete_shorter (V : Type) (k : string) (m : Map V) :
  In k (map_keys m) -> (length (map_delete k m) < length m)%nat.
Proof.
intro H. apply in_map_iff in H. destruct H as ([k' v] & E & Hin).
simpl in E. subst k'. apply (filter_shorter _ _ _ Hin).
simpl. now rewrite String.eqb_refl.
Qed.

Lemma NoDup_map_delete (V : Type) (k : string) (m : Map V) :
  NoDup (map_keys m) -> NoDup (map_keys (map_delete k m)).
Proof.
unfold map_keys, map_delete. induction m as [|[k' v] r IH]; simpl; intro H;
  [constructor|].
inversion H as [|? ? Hnin Hnd]; subst.
destruct (negb (String.eqb k k')); simpl; [|now apply IH].
constructor; [|now apply IH]. intro Hin. apply Hnin.
apply in_map_iff in Hin. destruct Hin as (e & <- & He).
apply filter_In in He. apply in_map. exact (proj1 He).
Qed.

Lemma NoDup_filter_map (V : Type) (g : string * V -> bool) (m : Map V) :
  NoDup (map_keys m) -> NoDup (map_keys (filter g m)).
Proof.
unfold map_keys. induction m as [|[k v] r IH]; simpl; intro H; [constructor|].
inversion H as [|? ? Hnin Hnd]; subst.
destruct (g (k, v)); simpl; [|now apply IH].
constructor; [|now apply IH]. intro Hin. apply Hnin.
apply in_map_iff in Hin. destruct Hin as (e & <- & He).
apply filter_In in He. apply in_map. exact (proj1 He).
Qed.

(** Deleting the key of an entry of a map without repeated keys removes
    that entry and nothing else. *)
Lemma map_delete_split (V : Type) (pre post : Map V) (k : string) (v : V) :
  NoDup (map_keys (pre ++ (k, v) :: post)) ->
  map_delete k (pre ++ (k, v) :: post) = pre ++ post.
Proof.
intro Hnd. unfold map_delete. rewrite filter_app. simpl.
rewrite String.eqb_refl. simpl.
unfold map_keys in Hnd. rewrite map_app in Hnd. simpl in Hnd.
pose proof (NoDup_remove_2 _ _ _ Hnd) as Hnin.
rewrite !filter_all; [reflexivity| |].
- intros [k' v'] Hin. simpl. rewrite negb_true_iff. apply String.eqb_neq.
  intros ->. apply Hnin, in_or_app. right.
  apply (in_map fst) in Hin. exact Hin.
- intros [k' v'] Hin. simpl. rewrite negb_true_iff. apply String.eqb_neq.
  intros ->. apply Hnin, in_or_app. left.
  apply (in_map fst) in Hin. exact Hin.
Qed.

(** *** Lookup after insertion *)

Lemma delete_options (key : string) (st : State T) :
  options (snd (delete key st)) = options st.
Proof. unfold delete. now destruct (map_get key (cache st)). Qed.

Lemma evictLRU_options (st : State T) : options (evictLRU st) = options st.
Proof.
unfold evictLRU. destruct (oldest_loop _ _ _) as [k|]; [|reflexivity].
destruct (String.eqb k EmptyString); [reflexivity|apply delete_options].
Qed.

Lemma set_options (key : string) (v : T) (now : Z) (st : State T) :
  options (set key v now st) = options st.
Proof.
unfold set. simpl. destruct (_ <=? _)%Z; [apply evictLRU_options|reflexivity].
Qed.

Lemma set_lookup (key : string) (v : T) (now : Z) (st : State T) :
  map_get key (cache (set key v now st))
  = Some {| value := v; timestamp := now; accessCount := 0;
            lastAccessed := now |}.
Proof. unfold set. simpl. apply map_get_set_same. Qed.

Lemma has_after_set (key : string) (v : T) (t t' : Z) (st : State T) :
  (t' - t <= ttl (options st))%Z ->
  has key t' (set key v t st) = (true, set key v t st).
Proof.
intro H. unfold has. rewrite set_lookup. unfold isExpired.
rewrite set_options. simpl.
assert (E : (ttl (options st) <? t' - t)%Z = false) by (apply Z.ltb_ge; lia).
now rewrite E.
Qed.

(** X1.  A value that was [set] is returned by [get], and seen by [has], as
    long as no more than [ttl] milliseconds have passed; after that [get]
    returns nothing, removes the entry and reports it to [onEvict]. *)
Theorem X1_cache_get_after_set (key : string) (v : T) (t t' : Z)
        (st : State T) :
  ((t' - t <= ttl (options st))%Z ->
   fst (get key t' (set key v t st)) = Some v
   /\ fst (has key t' (set key v t st)) = true
   /\ map_get key (cache (snd (get key t' (set key v t st))))
      = Some {| value := v; timestamp := t; accessCount := 1;
                lastAccessed := t' |})
  /\ ((ttl (options st) < t' - t)%Z ->
      fst (get key t' (set key v t st)) = None
      /\ fst (has key t' (set key v t st)) = false
      /\ map_get key (cache (snd (get key t' (set key v t st)))) = None
      /\ evictions (snd (get key t' (set key v t st)))
         = evictions (set key v t st) ++ [(key, v)]).
Proof.
split; intro H.
- unfold get, has. rewrite set_lookup. unfold isExpired.
  rewrite set_options. simpl.
  assert (E : (ttl (options st) <? t' - t)%Z = false)
    by (apply Z.ltb_ge; lia).
  rewrite E. simpl. repeat split. apply map_get_set_same.
- unfold get, has. rewrite set_lookup. unfold isExpired.
  rewrite set_options. simpl.
  assert (E : (ttl (options st) <? t' - t)%Z = true)
    by (apply Z.ltb_lt; lia).
  rewrite E. unfold delete. rewrite set_lookup. simpl.
  repeat split. apply map_get_delete_same.
Qed.

(** *** The size bound *)

Lemma delete_cache (key : string) (st : State T) :
  cache (snd (delete key st)) = map_delete key (cache st).
Proof.
unfold delete. destruct (map_get key (cache st)) eqn:E; [reflexivity|].
simpl. symmetry. apply filter_all. intros [k v] Hin. simpl.
rewrite negb_true_iff. apply String.eqb_neq. intros ->.
apply map_get_None_keys in E. apply E. exact (map_In_keys _ _ _ Hin).
Qed.

Lemma oldest_loop_key (es : Map (CacheEntry T)) (ok : option string)
      (ot : option Z) (k : string) :
  oldest_loop es ok ot = Some k -> ok = Some k \/ In k (map_keys es).
Proof.
revert ok ot. induction es as [|[key e] r IH]; intros ok ot; simpl.
- now left.
- destruct ot as [t|].
  + destruct (lastAccessed e <? t)%Z; intro H; apply IH in H.
    * destruct H as [[= ->]|H]; right; [now left|now right].
    * destruct H as [H|H]; [now left|right; now right].
  + intro H. apply IH in H.
    destruct H as [[= ->]|H]; right; [now left|now right].
Qed.

Lemma oldest_loop_found (es : Map (CacheEntry T)) :
  es <> [] -> exists k, oldest_loop es None None = Some k
                        /\ In k (map_keys es).
Proof.
destruct es as [|[key e] r]; [congruence|]. intros _. simpl.
destruct (oldest_loop r (Some key) (Some (lastAccessed e))) as [k|] eqn:E.
- exists k. split; [reflexivity|]. apply oldest_loop_key in E.
  destruct E as [[= ->]|H]; [now left|now right].
- exfalso. clear -E. revert E.
  generalize (Some (lastAccessed e)). generalize key.
  induction r as [|[k' e'] r IH]; intros k0 ot; simpl; [discriminate|].
  destruct ot as [t|]; [destruct (_ <? _)%Z|]; apply IH.
Qed.

Lemma bounded_delete (key : string) (st : State T) :
  bounded st -> bounded (snd (delete key st)).
Proof.
intros [Hs Hk]. unfold bounded. rewrite delete_cache, delete_options.
split.
- pose proof (map_delete_length key (cache st)). unfold map_size in *. lia.
- rewrite map_delete_keys_In. tauto.
Qed.

Lemma bounded_set (key : string) (v : T) (now : Z) (st : State T) :
  (1 <= maxSize (options st))%Z -> key <> EmptyString ->
  bounded st -> bounded (set key v now st).
Proof.
intros Hmax Hkey [Hs Hk]. unfold bounded. rewrite set_options.
unfold set. cbn [cache with_cache].
match goal with |- context [map_set key ?e _] => set (entry := e) end.
destruct (maxSize (options st) <=? map_size (cache st))%Z eqn:E.
- apply Z.leb_le in E.
  assert (Hne : cache st <> []).
  { intro H0. rewrite H0 in E. unfold map_size in E. simpl in E. lia. }
  destruct (oldest_loop_found Hne) as (k & Hk1 & Hk2).
  unfold evictLRU. rewrite Hk1.
  assert (Hkne : String.eqb k EmptyString = false).
  { apply String.eqb_neq. intros ->. exact (Hk Hk2). }
  rewrite Hkne, delete_cache. split.
  + pose proof (map_set_length key entry (map_delete k (cache st))).
    pose proof (map_delete_shorter k (cache st) Hk2).
    unfold map_size in *. lia.
  + rewrite map_set_keys_In, map_delete_keys_In.
    intros [H|[_ H]]; [now apply Hkey|now apply Hk].
- apply Z.leb_gt in E. split.
  + pose proof (map_set_length key entry (cache st)).
    unfold map_size in *. lia.
  + rewrite map_set_keys_In. intros [H|H]; [now apply Hkey|now apply Hk].
Qed.

Lemma bounded_get (key : string) (now : Z) (st : State T) :
  bounded st -> bounded (snd (get key now st)).
Proof.
intros Hb. unfold get. destruct (map_get key (cache st)) as [e|] eqn:E;
  [|exact Hb].
destruct (isExpired now st e); [now apply bounded_delete|].
destruct Hb as [Hs Hk]. split; simpl.
- unfold map_size in *.
  rewrite map_set_length_present; [exact Hs|].
  exact (map_get_Some_keys _ _ E).
- rewrite map_set_keys_In. intros [H|H]; [|now apply Hk].
  apply Hk. rewrite H. exact (map_get_Some_keys _ _ E).
Qed.

Lemma bounded_has (key : string) (now : Z) (st : State T) :
  bounded st -> bounded (snd (has key now st)).
Proof.
intros Hb. unfold has. destruct (map_get key (cache st)) as [e|];
  [|exact Hb].
destruct (isExpired now st e); [now apply bounded_delete|exact Hb].
Qed.

Lemma prune_options (now : Z) (st : State T) :
  options (snd (prune now st)) = options st.
Proof.
unfold prune. generalize (ttl (options st)). intro limit.
assert (G : forall (es : Map (CacheEntry T)) (acc : Z * State T),
          options (snd acc) = options st ->
          options (snd (fold_left
            (fun acc e =>
               if (limit <? now - timestamp (snd e))%Z
               then ((fst acc + 1)%Z, snd (delete (fst e) (snd acc)))
               else acc) es acc)) = options st).
{ induction es as [|e es IH]; intros acc H; simpl; [exact H|].
  apply IH. destruct (_ <? _)%Z; [|exact H]. simpl.
  now rewrite delete_options. }
now apply G.
Qed.

Lemma bounded_prune (now : Z) (st : State T) :
  bounded st -> bounded (snd (prune now st)).
Proof.
intro Hb. unfold prune. generalize (ttl (options st)). intro limit.
assert (G : forall (es : Map (CacheEntry T)) (acc : Z * State T),
          bounded (snd acc) ->
          bounded (snd (fold_left
            (fun acc e =>
               if (limit <? now - timestamp (snd e))%Z
               then ((fst acc + 1)%Z, snd (delete (fst e) (snd acc)))
               else acc) es acc))).
{ induction es as [|e es IH]; intros acc H; simpl; [exact H|].
  apply IH. destruct (_ <? _)%Z; [|exact H]. simpl.
  now apply bounded_delete. }
now apply G.
Qed.

Lemma step_options (st : State T) (op : Op T) :
  options (step st op) = options st.
Proof.
destruct op as [key v now|key now|key now|key|now|]; cbn [step].
- apply set_options.
- unfold get. destruct (map_get key (cache st)) as [e|]; [|reflexivity].
  destruct (isExpired now st e); [apply delete_options|reflexivity].
- unfold has. destruct (map_get key (cache st)) as [e|]; [|reflexivity].
  destruct (isExpired now st e); [apply delete_options|reflexivity].
- apply delete_options.
- apply prune_options.
- reflexivity.
Qed.

Lemma bounded_step (st : State T) (op : Op T) :
  (1 <= maxSize (options st))%Z -> setsEmptyKey op = false ->
  bounded st -> bounded (step st op).
Proof.
intros Hmax Hop Hb.
destruct op as [key v now|key now|key now|key|now|]; cbn [step].
- apply bounded_set; try assumption. simpl in Hop.
  now apply String.eqb_neq.
- now apply bounded_get.
- now apply bounded_has.
- now apply bounded_delete.
- now apply bounded_prune.
- split; simpl; [|tauto]. destruct Hb as [Hs _]. unfold map_size. simpl. lia.
Qed.

Lemma loadFromStorage_options (stored : list (string * CacheEntry T))
      (now : Z) (st : State T) :
  options (loadFromStorage stored now st) = options st.
Proof.
revert st. induction stored as [|e r IH]; intro st; simpl; [reflexivity|].
rewrite IH. now destruct (isExpired now st (snd e)).
Qed.

Lemma loadFromStorage_keeps (stored : list (string * CacheEntry T))
      (now : Z) (st : State T) (k : string) :
  In k (map_keys (cache st)) ->
  In k (map_keys (cache (loadFromStorage stored now st))).
Proof.
revert st. induction stored as [|e r IH]; intros st H; simpl; [exact H|].
apply IH. destruct (isExpired now st (snd e)); [exact H|]. simpl.
apply map_set_keys_In. now right.
Qed.

(** Every stored entry that has not expired is loaded. *)
Lemma loadFromStorage_live (stored : list (string * CacheEntry T))
      (now : Z) (st : State T) (k : string) (e : CacheEntry T) :
  In (k, e) stored -> (now - timestamp e <= ttl (options st))%Z ->
  In k (map_keys (cache (loadFromStorage stored now st))).
Proof.
revert st. induction stored as [|e0 r IH]; intros st Hin Hlive;
  [contradiction|].
simpl. destruct Hin as [->|Hin].
- apply loadFromStorage_keeps. unfold isExpired. simpl.
  apply Z.ltb_ge in Hlive. rewrite Hlive. simpl.
  apply map_set_keys_In. now left.
- apply IH; [exact Hin|].
  now destruct (isExpired now st (snd e0)).
Qed.

(** Live entries under distinct keys are loaded as they are stored. *)
Lemma loadFromStorage_all (stored : list (string * CacheEntry T))
      (now : Z) (st : State T) :
  NoDup (map_keys (cache st) ++ map fst stored) ->
  (forall k e, In (k, e) stored ->
               (now - timestamp e <= ttl (options st))%Z) ->
  cache (loadFromStorage stored now st) = cache st ++ stored.
Proof.
revert st. induction stored as [|[k e] r IH]; intros st Hnd Hlive; simpl.
- now rewrite app_nil_r.
- assert (Hl : isExpired now st e = false).
  { unfold isExpired. apply Z.ltb_ge. apply (Hlive k e). now left. }
  rewrite Hl.
  assert (Hk : ~ In k (map_keys (cache st))).
  { intro H. simpl in Hnd.
    apply NoDup_remove_2 in Hnd. apply Hnd, in_or_app. now left. }
  rewrite IH; simpl.
  + rewrite (@map_set_fresh _ k e (cache st) Hk), <- app_assoc. reflexivity.
  + rewrite (@map_set_fresh _ k e (cache st) Hk).
    unfold map_keys. rewrite map_app, <- app_assoc. exact Hnd.
  + intros k' e' Hin. apply (Hlive k' e'). now right.
Qed.

(** X2.  A cache that is not persistent never holds more than [maxSize]
    entries, whatever calls are made, when there is room for at least one
    entry and no value is set under the empty key; neither does a persistent
    cache whose constructor loaded no more than [maxSize] entries and none
    under the empty key.  The constructor of a persistent cache loads every
    stored entry that has not expired without looking at [maxSize]: entries
    under distinct keys make up the cache as they are stored, however many
    they are. *)
Theorem X2_cache_never_exceeds_maxSize (opts : CacheOptions)
        (ops : list (Op T)) :
  (1 <= maxSize opts)%Z ->
  (forall op, In op ops -> setsEmptyKey op = false) ->
  (map_size (cache (run ops (new T opts))) <= maxSize opts)%Z
  /\ (forall (stored : list (string * CacheEntry T)) now,
        create false opts stored now = new T opts)
  /\ (forall (stored : list (string * CacheEntry T)) now,
        bounded (create true opts stored now) ->
        (map_size (cache (run ops (create true opts stored now)))
         <= maxSize opts)%Z)
  /\ (forall (stored : list (string * CacheEntry T)) now k e,
        In (k, e) stored -> (now - timestamp e <= ttl opts)%Z ->
        In k (map_keys (cache (create true opts stored now))))
  /\ (forall (stored : list (string * CacheEntry T)) now,
        NoDup (map fst stored) ->
        (forall k e, In (k, e) stored -> (now - timestamp e <= ttl opts)%Z) ->
        cache (create true opts stored now) = stored).
Proof.
intros Hmax Hops.
assert (G : forall (ops : list (Op T)) (st : State T),
          options st = opts -> bounded st ->
          (forall op, In op ops -> setsEmptyKey op = false) ->
          options (run ops st) = opts /\ bounded (run ops st)).
{ clear ops Hops. induction ops as [|op ops IH]; intros st Ho Hb Hall.
  - now split.
  - simpl. apply IH.
    + now rewrite step_options.
    + apply bounded_step; [now rewrite Ho| |exact Hb].
      apply Hall. now left.
    + intros op' Hin. apply Hall. now right. }
split; [|split; [|split; [|split]]].
- destruct (G ops (new T opts) eq_refl) as [Ho [Hs _]].
  + split; simpl; [|tauto]. unfold map_size. simpl. lia.
  + exact Hops.
  + now rewrite Ho in Hs.
- reflexivity.
- intros stored now Hb.
  destruct (G ops (create true opts stored now)) as [Ho [Hs _]].
  + unfold create. now rewrite loadFromStorage_options.
  + exact Hb.
  + exact Hops.
  + now rewrite Ho in Hs.
- intros stored now k e Hin Hlive. unfold create.
  exact (@loadFromStorage_live stored now (new T opts) k e Hin Hlive).
- intros stored now Hnd Hlive. unfold create.
  exact (@loadFromStorage_all stored now (new T opts) Hnd Hlive).
Qed.

(** *** Eviction of the least recently used entry *)

Lemma oldest_loop_spec (es : Map (CacheEntry T)) (k0 : string) (t0 : Z)
      (k : string) :
  oldest_loop es (Some k0) (Some t0) = Some k ->
  (k = k0 /\ forall p, In p es -> (t0 <= lastAccessed (snd p))%Z)
  \/ exists pre e post,
       es = pre ++ (k, e) :: post
       /\ (lastAccessed e < t0)%Z
       /\ (forall p, In p pre -> (lastAccessed e < lastAccessed (snd p))%Z)
       /\ (forall p, In p post -> (lastAccessed e <= lastAccessed (snd p))%Z).
Proof.
revert k0 t0. induction es as [|[key e] r IH]; intros k0 t0; simpl.
- intros [= ->]. left. split; [reflexivity|]. intros p [].
- destruct (lastAccessed e <? t0)%Z eqn:E; intro H; apply IH in H.
  + apply Z.ltb_lt in E. right.
    destruct H as [[-> Hall]|(pre & e' & post & -> & Hlt & Hpre & Hpost)].
    * exists [], e, r. repeat split; try assumption. intros p [].
    * exists ((key, e) :: pre), e', post. split; [reflexivity|].
      split; [lia|]. split; [|exact Hpost].
      intros p [<-|Hp]; [exact Hlt|now apply Hpre].
  + apply Z.ltb_ge in E.
    destruct H as [[-> Hall]|(pre & e' & post & -> & Hlt & Hpre & Hpost)].
    * left. split; [reflexivity|]. intros p [<-|Hp]; [exact E|now apply Hall].
    * right. exists ((key, e) :: pre), e', post. split; [reflexivity|].
      split; [exact Hlt|]. split; [|exact Hpost].
      intros p [<-|Hp]; [simpl; lia|now apply Hpre].
Qed.

Lemma oldest_loop_least (es : Map (CacheEntry T)) (k : string) :
  oldest_loop es None None = Some k ->
  exists pre e post,
    es = pre ++ (k, e) :: post
    /\ (forall p, In p pre -> (lastAccessed e < lastAccessed (snd p))%Z)
    /\ (forall p, In p post -> (lastAccessed e <= lastAccessed (snd p))%Z).
Proof.
destruct es as [|[key e] r]; simpl; [discriminate|]. intro H.
apply oldest_loop_spec in H.
destruct H as [[-> Hall]|(pre & e' & post & -> & Hlt & Hpre & Hpost)].
- exists [], e, r. repeat split; [intros p []|exact Hall].
- exists ((key, e) :: pre), e', post. split; [reflexivity|].
  split; [|exact Hpost]. intros p [<-|Hp]; [exact Hlt|now apply Hpre].
Qed.

(** X3.  A [set] on a full cache first removes the entry that was accessed
    longest ago, the earliest inserted one among several such, reports it to
    [onEvict] and then stores the new value. *)
Theorem X3_cache_set_evicts_least_recently_used (key : string) (v : T)
        (now : Z) (st : State T) :
  (1 <= maxSize (options st))%Z ->
  (maxSize (options st) <= map_size (cache st))%Z ->
  NoDup (map_keys (cache st)) ->
  ~ In EmptyString (map_keys (cache st)) ->
  exists pre k e post,
    cache st = pre ++ (k, e) :: post
    /\ (forall p, In p pre -> (lastAccessed e < lastAccessed (snd p))%Z)
    /\ (forall p, In p post -> (lastAccessed e <= lastAccessed (snd p))%Z)
    /\ cache (set key v now st)
       = map_set key {| value := v; timestamp := now; accessCount := 0;
                        lastAccessed := now |} (pre ++ post)
    /\ evictions (set key v now st) = evictions st ++ [(k, value e)].
Proof.
intros Hmax Hfull Hnd Hne.
assert (Hcache : cache st <> []).
{ intro H0. rewrite H0 in Hfull. unfold map_size in Hfull. simpl in Hfull.
  lia. }
destruct (oldest_loop_found Hcache) as (k & Hk & Hin).
destruct (oldest_loop_least _ Hk) as (pre & e & post & Hsplit & Hpre & Hpost).
exists pre, k, e, post. split; [exact Hsplit|].
split; [exact Hpre|]. split; [exact Hpost|].
assert (Hkne : String.eqb k EmptyString = false).
{ apply String.eqb_neq. intros ->. exact (Hne Hin). }
assert (Hget : map_get k (cache st) = Some e).
{ rewrite Hsplit. apply map_get_app_skip.
  rewrite Hsplit in Hnd. unfold map_keys in Hnd. rewrite map_app in Hnd.
  simpl in Hnd. intro H. apply (NoDup_remove_2 _ _ _ Hnd).
  apply in_or_app. now left. }
unfold set. apply Z.leb_le in Hfull. rewrite Hfull.
unfold evictLRU. rewrite Hk, Hkne. unfold delete. rewrite Hget. simpl.
split; [|reflexivity]. f_equal. rewrite Hsplit.
apply map_delete_split. now rewrite <- Hsplit.
Qed.

(** *** Pruning *)

Lemma prune_loop (now limit : Z) (l kept : Map (CacheEntry T)) (n : Z)
      (s : State T) :
  cache s = kept ++ l ->
  NoDup (map_keys (kept ++ l)) ->
  let expired := fun e : string * CacheEntry T =>
                   (limit <? now - timestamp (snd e))%Z in
  let r := fold_left
             (fun acc e =>
                if (limit <? now - timestamp (snd e))%Z
                then ((fst acc + 1)%Z, snd (delete (fst e) (snd acc)))
                else acc) l (n, s) in
  fst r = (n + Z.of_nat (length (filter expired l)))%Z
  /\ cache (snd r) = kept ++ filter (fun e => negb (expired e)) l
  /\ evictions (snd r)
     = evictions s ++ map (fun e => (fst e, value (snd e))) (filter expired l)
  /\ options (snd r) = options s.
Proof.
cbv zeta. revert kept n s.
induction l as [|[k e] l IH]; intros kept n s Hc Hnd.
- simpl. rewrite !app_nil_r in *. split; [lia|]. now repeat split.
- cbn [fold_left filter fst snd].
  destruct (limit <? now - timestamp e)%Z eqn:E; cbn [negb fst snd].
  + assert (Hget : map_get k (cache s) = Some e).
    { rewrite Hc. apply map_get_app_skip.
      unfold map_keys in Hnd. rewrite map_app in Hnd. simpl in Hnd.
      intro H. apply (NoDup_remove_2 _ _ _ Hnd). apply in_or_app. now left. }
    assert (Hdel : cache (snd (delete k s)) = kept ++ l).
    { rewrite delete_cache, Hc. now apply map_delete_split. }
    assert (Hnd' : NoDup (map_keys (kept ++ l))).
    { unfold map_keys in *. rewrite map_app in *. simpl in Hnd.
      exact (NoDup_remove_1 _ _ _ Hnd). }
    destruct (IH kept (n + 1)%Z (snd (delete k s)) Hdel Hnd')
      as (H1 & H2 & H3 & H4).
    rewrite H1, H2, H3, H4. unfold delete. rewrite Hget.
    cbn [snd evictions options length map fst].
    split; [lia|]. split; [reflexivity|]. split; [|reflexivity].
    now rewrite <- app_assoc.
  + assert (Hc' : cache s = (kept ++ [(k, e)]) ++ l)
      by (now rewrite <- app_assoc).
    assert (Hnd' : NoDup (map_keys ((kept ++ [(k, e)]) ++ l)))
      by (now rewrite <- app_assoc).
    destruct (IH (kept ++ [(k, e)]) n s Hc' Hnd') as (H1 & H2 & H3 & H4).
    rewrite H1, H2, H3, H4.
    split; [reflexivity|]. split; [|now split].
    now rewrite <- app_assoc.
Qed.

(** X4.  [prune] removes exactly the entries older than [ttl], keeps the
    others in their order, reports every removed entry to [onEvict] and
    returns their number; pruning again at the same time removes nothing. *)
Theorem X4_cache_prune_removes_the_expired (now : Z) (st : State T) :
  NoDup (map_keys (cache st)) ->
  let expired := fun e : string * CacheEntry T => isExpired now st (snd e) in
  cache (snd (prune now st)) = filter (fun e => negb (expired e)) (cache st)
  /\ fst (prune now st) = Z.of_nat (length (filter expired (cache st)))
  /\ evictions (snd (prune now st))
     = evictions st
       ++ map (fun e => (fst e, value (snd e))) (filter expired (cache st))
  /\ fst (prune now (snd (prune now st))) = 0%Z.
Proof.
intros Hnd expired.
destruct (@prune_loop now (ttl (options st)) (cache st) [] 0%Z st
            eq_refl Hnd) as (H1 & H2 & H3 & H4).
cbv zeta in *. fold (prune now st) in H1, H2, H3, H4.
split; [exact H2|]. split; [exact H1|]. split; [exact H3|].
assert (Hnd2 : NoDup (map_keys (cache (snd (prune now st))))).
{ rewrite H2. simpl. now apply NoDup_filter_map. }
destruct (@prune_loop now (ttl (options (snd (prune now st))))
            (cache (snd (prune now st))) [] 0%Z (snd (prune now st))
            eq_refl Hnd2) as (G1 & _).
cbv zeta in G1. fold (prune now (snd (prune now st))) in G1.
rewrite G1, H4, H2. simpl. rewrite filter_none; [reflexivity|].
intros e He. apply filter_In in He. destruct He as [_ He].
now apply negb_true_iff in He.
Qed.

(** What calls for other keys leave of an entry. *)
Lemma has_options (key : string) (now : Z) (st : State T) :
  options (snd (has key now st)) = options st.
Proof.
unfold has. destruct (map_get key (cache st)) as [e|]; [|reflexivity].
destruct (isExpired now st e); [apply delete_options|reflexivity].
Qed.

Lemma has_keeps (key k : string) (now : Z) (st : State T) :
  k <> key ->
  map_get k (cache (snd (has key now st))) = map_get k (cache st).
Proof.
intro Hne. unfold has. destruct (map_get key (cache st)) as [e|];
  [|reflexivity].
destruct (isExpired now st e); [|reflexivity].
cbn [snd]. rewrite delete_cache. now apply map_get_delete_other.
Qed.

Lemma has_size (key : string) (now : Z) (st : State T) :
  (map_size (cache (snd (has key now st))) <= map_size (cache st))%Z.
Proof.
unfold has. destruct (map_get key (cache st)) as [e|]; [|simpl; lia].
destruct (isExpired now st e); [|simpl; lia].
cbn [snd]. rewrite delete_cache. unfold map_size.
pose proof (map_delete_length key (cache st)). lia.
Qed.

Lemma get_options (key : string) (now : Z) (st : State T) :
  options (snd (get key now st)) = options st.
Proof.
unfold get. destruct (map_get key (cache st)) as [e|]; [|reflexivity].
destruct (isExpired now st e); [apply delete_options|reflexivity].
Qed.

Lemma get_keeps (key k : string) (now : Z) (st : State T) :
  k <> key ->
  map_get k (cache (snd (get key now st))) = map_get k (cache st).
Proof.
intro Hne. unfold get. destruct (map_get key (cache st)) as [e|] eqn:E;
  [|reflexivity].
destruct (isExpired now st e).
- cbn [snd]. rewrite delete_cache. now apply map_get_delete_other.
- cbn [snd cache with_cache]. now apply map_get_set_other.
Qed.

Lemma get_size (key : string) (now : Z) (st : State T) :
  (map_size (cache (snd (get key now st))) <= map_size (cache st))%Z.
Proof.
unfold get. destruct (map_get key (cache st)) as [e|] eqn:E; [|simpl; lia].
destruct (isExpired now st e).
- cbn [snd]. rewrite delete_cache. unfold map_size.
  pose proof (map_delete_length key (cache st)). lia.
- cbn [snd cache with_cache]. unfold map_size.
  rewrite map_set_length_present by exact (map_get_Some_keys _ _ E). lia.
Qed.

(** With room left [set] evicts nothing. *)
Lemma set_room (key : string) (v : T) (now : Z) (st : State T) :
  (map_size (cache st) < maxSize (options st))%Z ->
  cache (set key v now st)
  = map_set key {| value := v; timestamp := now; accessCount := 0;
                   lastAccessed := now |} (cache st).
Proof.
intro H. unfold set. apply Z.leb_gt in H. now rewrite H.
Qed.

Lemma set_room_keeps (key k : string) (v : T) (now : Z) (st : State T) :
  (map_size (cache st) < maxSize (options st))%Z -> k <> key ->
  map_get k (cache (set key v now st)) = map_get k (cache st).
Proof.
intros H Hne. rewrite set_room by exact H. now apply map_get_set_other.
Qed.

Lemma set_room_size (key : string) (v : T) (now : Z) (st : State T) :
  (map_size (cache st) < maxSize (options st))%Z ->
  (map_size (cache (set key v now st)) <= map_size (cache st) + 1)%Z.
Proof.
intro H. rewrite set_room by exact H. unfold map_size.
match goal with |- context [map_set ?i ?e ?m] =>
  pose proof (map_set_length i e m) end.
lia.
Qed.

(** Lookups and insertions under other keys, made while the cache has room,
    keep an entry. *)
Lemma step_keeps (key : string) (op : Op T) (st : State T) :
  besides key op = true ->
  (map_size (cache st) < maxSize (options st))%Z ->
  map_get key (cache (step st op)) = map_get key (cache st)
  /\ (map_size (cache (step st op)) <= map_size (cache st) + 1)%Z.
Proof.
intros Hop Hroom.
destruct op as [k v now|k now|k now|k|now|]; cbn [step besides] in *;
  try discriminate; apply negb_true_iff, String.eqb_neq in Hop;
  assert (Hne : key <> k) by congruence.
- split; [now apply set_room_keeps|now apply set_room_size].
- split; [now apply get_keeps|]. pose proof (get_size k now st). lia.
- split; [now apply has_keeps|]. pose proof (has_size k now st). lia.
Qed.

Lemma run_cons (op : Op T) (ops : list (Op T)) (st : State T) :
  run (op :: ops) st = run ops (step st op).
Proof. reflexivity. Qed.

Lemma run_options (ops : list (Op T)) (st : State T) :
  options (run ops st) = options st.
Proof.
revert st. induction ops as [|op ops IH]; intro st; [reflexivity|].
now rewrite run_cons, IH, step_options.
Qed.

Lemma run_keeps (key : string) (ops : list (Op T)) (st : State T) :
  (forall op, In op ops -> besides key op = true) ->
  (ops = [] \/ (map_size (cache st) + Z.of_nat (length ops)
                <= maxSize (options st))%Z) ->
  map_get key (cache (run ops st)) = map_get key (cache st).
Proof.
revert st. induction ops as [|op ops IH]; intros st Hops Hroom;
  [reflexivity|].
destruct Hroom as [Hnil|Hroom]; [discriminate|].
cbn [length] in Hroom.
assert (Hr : (map_size (cache st) < maxSize (options st))%Z) by lia.
destruct (@step_keeps key op st (Hops op (or_introl eq_refl)) Hr)
  as [Hk Hs].
rewrite run_cons, IH, Hk; [reflexivity| |].
- intros op' Hin. apply Hops. now right.
- right. rewrite step_options. lia.
Qed.

(** *** The cache of task outputs *)

(** X5.  Once a task was run and its output cached, [executeTask] does not
    run the agent for a task of the same id during the next ten minutes: not
    when it is called next, and not after lookups and insertions for other
    tasks as long as the cache, with room for a hundred outputs, has not
    filled up (a full cache drops an output to take the next one).  It leaves
    the cached output as it is; a run that throws caches nothing. *)
Theorem X5_executeTask_skips_cached_task (taskId : string) (out : T)
        (outcome : option T) (t0 t0' t1 t1' : Z) (st : State T)
        (between : list (Op T)) :
  options st = coordinationOptions ->
  fst (executeTask taskId (Some out) t0 t0' st) = Completed ->
  (t1 - t0' <= 600000)%Z ->
  let st1 := snd (executeTask taskId (Some out) t0 t0' st) in
  (forall op, In op between -> besides (taskKey taskId) op = true) ->
  (between = []
   \/ (map_size (cache st1) + Z.of_nat (length between) <= 100)%Z) ->
  let st2 := run between st1 in
  executeTask taskId outcome t1 t1' st2 = (Skipped, st2)
  /\ fst (executeTask taskId None t0 t0' st) = Threw
  /\ map_get (taskKey taskId)
             (cache (snd (executeTask taskId None t0 t0' st))) = None.
Proof.
intros Ho Hfirst Hfresh st1 Hother Hroom st2.
assert (Hst1 : options st1 = coordinationOptions
               /\ map_get (taskKey taskId) (cache st1)
                  = Some {| value := out; timestamp := t0';
                            accessCount := 0; lastAccessed := t0' |}
               /\ fst (executeTask taskId None t0 t0' st) = Threw
               /\ map_get (taskKey taskId)
                     (cache (snd (executeTask taskId None t0 t0' st)))
                  = None).
{ subst st1. clear st2 Hroom. revert Hfirst. unfold executeTask.
  destruct (has (taskKey taskId) t0 st) as [[|] s0] eqn:Eh; cbn [fst snd];
    [discriminate|]. intros _.
  assert (Hs0 : options s0 = coordinationOptions
                /\ map_get (taskKey taskId) (cache s0) = None).
  { revert Eh. unfold has.
    destruct (map_get (taskKey taskId) (cache st)) as [e|] eqn:Eg.
    - destruct (isExpired t0 st e); [|discriminate]. intros [= <-].
      rewrite delete_options, delete_cache. split; [exact Ho|].
      apply map_get_delete_same.
    - intros [= <-]. now split. }
  destruct Hs0 as [Ho0 Hnone]. cbn [fst snd].
  split; [now rewrite set_options|]. split; [apply set_lookup|].
  now split. }
destruct Hst1 as (Ho1 & Hl1 & Hthrew & Hnone).
split; [|now split].
assert (Hk2 : map_get (taskKey taskId) (cache st2)
              = map_get (taskKey taskId) (cache st1)).
{ apply run_keeps; [exact Hother|].
  destruct Hroom as [Hnil|Hroom]; [now left|right].
  rewrite Ho1. exact Hroom. }
assert (Ho2 : options st2 = options st1) by apply run_options.
unfold executeTask, has.
rewrite Hk2, Hl1. unfold isExpired. rewrite Ho2, Ho1. simpl.
assert (E : (600000 <? t1 - t0')%Z = false) by (apply Z.ltb_ge; lia).
now rewrite E.
Qed.

End CacheFacts.

Section CacheScenarios.
Import JS ResultCache.

Lemma X1_cache_witness :
  fst (get "k" 10 (set "k" 7%Z 0 (new Z {| ttl := 10; maxSize := 1 |})))
  = Some 7%Z.
Proof.
refine (proj1 (proj1 (X1_cache_get_after_set "k" 7%Z 0 10
                        (new Z {| ttl := 10; maxSize := 1 |})) _)).
simpl. lia.
Defined.

Lemma X2_cache_bound_witness :
  (map_size (cache (run [OpSet "a" 1%Z 0; OpSet "b" 2%Z 1; OpGet Z "a" 2]
                        (new Z {| ttl := 10; maxSize := 1 |}))) <= 1)%Z.
Proof.
apply (@X2_cache_never_exceeds_maxSize Z {| ttl := 10; maxSize := 1 |}
         [OpSet "a" 1%Z 0; OpSet "b" 2%Z 1; OpGet Z "a" 2]).
- simpl. lia.
- intros op [<-|[<-|[<-|[]]]]; reflexivity.
Defined.

Lemma X3_cache_lru_witness :
  exists pre k e post,
    cache (set "b" 2%Z 1 (set "a" 1%Z 0 (new Z {| ttl := 10; maxSize := 2 |})))
    = pre ++ (k, e) :: post
    /\ (forall p, In p pre -> (lastAccessed e < lastAccessed (snd p))%Z)
    /\ (forall p, In p post -> (lastAccessed e <= lastAccessed (snd p))%Z)
    /\ cache (set "c" 3%Z 2
                 (set "b" 2%Z 1
                      (set "a" 1%Z 0 (new Z {| ttl := 10; maxSize := 2 |}))))
       = map_set "c" {| value := 3%Z; timestamp := 2; accessCount := 0;
                        lastAccessed := 2 |} (pre ++ post)
    /\ evictions (set "c" 3%Z 2
                     (set "b" 2%Z 1
                          (set "a" 1%Z 0
                               (new Z {| ttl := 10; maxSize := 2 |}))))
       = evictions (set "b" 2%Z 1
                        (set "a" 1%Z 0 (new Z {| ttl := 10; maxSize := 2 |})))
         ++ [(k, value e)].
Proof.
apply (@X3_cache_set_evicts_least_recently_used Z "c" 3%Z 2
         (set "b" 2%Z 1 (set "a" 1%Z 0 (new Z {| ttl := 10; maxSize := 2 |})))).
- simpl. lia.
- vm_compute. discriminate.
- vm_compute. repeat constructor; simpl; intuition discriminate.
- vm_compute. intuition discriminate.
Defined.

Lemma X4_cache_prune_witness :
  fst (prune 20 (set "b" 2%Z 15
                     (set "a" 1%Z 0 (new Z {| ttl := 10; maxSize := 2 |}))))
  = Z.of_nat
      (length
         (filter
            (fun e : string * CacheEntry Z =>
               isExpired 20
                 (set "b" 2%Z 15
                      (set "a" 1%Z 0 (new Z {| ttl := 10; maxSize := 2 |})))
                 (snd e))
            (cache (set "b" 2%Z 15
                        (set "a" 1%Z 0
                             (new Z {| ttl := 10; maxSize := 2 |})))))).
Proof.
refine (proj1 (proj2 (@X4_cache_prune_removes_the_expired Z 20
         (set "b" 2%Z 15 (set "a" 1%Z 0 (new Z {| ttl := 10; maxSize := 2 |})))
         _))).
vm_compute. repeat constructor; simpl; intuition discriminate.
Defined.

Lemma X5_executeTask_witness :
  executeTask "t1" (Some 8%Z) 50 51
    (run [OpHas Z "task_t2" 10; OpSet "task_t2" 9%Z 11]
         (snd (executeTask "t1" (Some 7%Z) 0 1 (new Z coordinationOptions))))
  = (Skipped,
     run [OpHas Z "task_t2" 10; OpSet "task_t2" 9%Z 11]
         (snd (executeTask "t1" (Some 7%Z) 0 1 (new Z coordinationOptions)))).
Proof.
refine (proj1 (@X5_executeTask_skips_cached_task Z "t1" 7%Z (Some 8%Z)
                 0 1 50 51 (new Z coordinationOptions)
                 [OpHas Z "task_t2" 10; OpSet "task_t2" 9%Z 11]
                 eq_refl eq_refl _ _ _)).
- lia.
- intros op [<-|[<-|[]]]; reflexivity.
- right. vm_compute. discriminate.
Defined.

End CacheScenarios.

(** ** Accounts of the coordinator *)

Section CoordinatorAccountsFacts.
Import JS Coordinator CoordinatorSpec CoordinatorAccounts.

Lemma shiftTask_waiting (q q' : TaskQueue) (t : Task) :
  shiftTask q = Some (t, q') ->
  (length (q_high q) + length (q_medium q) + length (q_low q)
   = S (length (q_high q') + length (q_medium q') + length (q_low q')))%nat.
Proof.
unfold shiftTask.
destruct (q_high q) as [|h rh]; [|intros [= <- <-]; reflexivity].
destruct (q_medium q) as [|m rm]; [|intros [= <- <-]; reflexivity].
destruct (q_low q) as [|l rl]; [discriminate|intros [= <- <-]; reflexivity].
Qed.

Lemma processTasks_metrics (c : State) :
  metrics (fst (processTasks c)) = metrics c.
Proof.
unfold processTasks. destruct (_ <=? _)%Z; [reflexivity|].
destruct (shiftTask (taskQueue c)) as [[task q']|]; [|reflexivity].
destruct (getBestAgentForTask (with_queue q' c) task); reflexivity.
Qed.

Lemma processTasks_maxConcurrent (c : State) :
  maxConcurrentTasks (fst (processTasks c)) = maxConcurrentTasks c.
Proof.
unfold processTasks. destruct (_ <=? _)%Z; [reflexivity|].
destruct (shiftTask (taskQueue c)) as [[task q']|]; [|reflexivity].
destruct (getBestAgentForTask (with_queue q' c) task); reflexivity.
Qed.

Lemma processTasks_waiting (c : State) :
  (waiting (fst (processTasks c))
   + Z.of_nat (length (started (snd (processTasks c)))) = waiting c)%Z.
Proof.
unfold processTasks. destruct (_ <=? _)%Z; [simpl; lia|].
destruct (shiftTask (taskQueue c)) as [[task q']|] eqn:Es; [|simpl; lia].
apply shiftTask_waiting in Es.
destruct (getBestAgentForTask (with_queue q' c) task); unfold waiting; simpl.
- lia.
- rewrite length_app. simpl. lia.
Qed.

Lemma remove_first_length (id : string) (l : list string) :
  In id l -> length l = S (length (remove_first id l)).
Proof.
induction l as [|x r IH]; simpl; [tauto|].
destruct (String.eqb_spec id x) as [->|Hne]; [reflexivity|].
intros [->|Hin]; [congruence|]. simpl. now rewrite <- IH.
Qed.

Lemma ledger_reachable (c : State) (running : list string) (lost : Z) :
  ledger c running lost -> reachable c running.
Proof.
induction 1; [apply reach_new|now apply reach_register
              |now apply reach_unregister|now apply reach_submit
              |now apply reach_finish|now apply reach_uncounted].
Qed.

Lemma reachable_ledger (c : State) (running : list string) :
  reachable c running -> exists lost, ledger c running lost.
Proof.
induction 1 as [n|c r a _ [l IH] Hna|c r id _ [l IH] Hnr|c r t p _ [l IH]
               |c r ok id _ [l IH] Hin|c r id _ [l IH] Hin].
- exists 0%Z. apply ledger_new.
- exists l. now apply ledger_register.
- exists l. now apply ledger_unregister.
- exists l. now apply ledger_submit.
- exists l. now apply ledger_finish.
- exists (l + 1)%Z. now apply ledger_uncounted.
Qed.

Lemma ledger_balance (c : State) (running : list string) (lost : Z) :
  ledger c running lost ->
  (0 <= lost)%Z
  /\ (totalTasks (metrics c)
      = completedTasks (metrics c) + failedTasks (metrics c)
        + Z.of_nat (length running) + waiting c + lost)%Z.
Proof.
induction 1 as [n|c r l a _ IH Hna|c r l id _ IH Hnr|c r l t p _ IH
               |c r l ok id _ IH Hin|c r l id _ IH Hin].
- split; [lia|reflexivity].
- exact IH.
- exact IH.
- destruct IH as [H0 IH]. split; [exact H0|].
  unfold submitTask. cbv zeta. rewrite length_app.
  match goal with |- context [processTasks ?x] =>
    rewrite (processTasks_metrics x);
    pose proof (processTasks_waiting x) as Hw; set (c1 := x) in * end.
  assert (Hc1 : waiting c1 = (waiting c + 1)%Z).
  { unfold c1, waiting. destruct p; simpl; rewrite length_app; simpl; lia. }
  simpl metrics. simpl totalTasks. simpl completedTasks. simpl failedTasks.
  lia.
- destruct IH as [H0 IH]. split; [exact H0|].
  unfold finishTask. rewrite length_app.
  match goal with |- context [processTasks ?x] =>
    rewrite (processTasks_metrics x);
    pose proof (processTasks_waiting x) as Hw; set (c1 := x) in * end.
  assert (Hc1 : waiting c1 = waiting c
                /\ totalTasks (metrics c1) = totalTasks (metrics c)
                /\ (completedTasks (metrics c1) + failedTasks (metrics c1)
                    = completedTasks (metrics c) + failedTasks (metrics c) + 1)%Z).
  { unfold c1, markAgentIdle. destruct (_ <=? 1)%Z; destruct ok;
      unfold waiting; simpl; repeat split; lia. }
  pose proof (remove_first_length _ _ Hin) as Hl.
  lia.
- destruct IH as [H0 IH]. split; [lia|].
  unfold finishTaskUncounted. rewrite length_app.
  match goal with |- context [processTasks ?x] =>
    rewrite (processTasks_metrics x);
    pose proof (processTasks_waiting x) as Hw; set (c1 := x) in * end.
  assert (Hc1 : waiting c1 = waiting c /\ metrics c1 = metrics c).
  { unfold c1, markAgentIdle. destruct (_ <=? 1)%Z;
      unfold waiting; simpl; now split. }
  destruct Hc1 as [Hw1 Hm1]. rewrite Hm1.
  pose proof (remove_first_length _ _ Hin) as Hl.
  lia.
Qed.

(** X6.  Every submitted task is accounted for: in every reachable state
    the tasks submitted so far are those completed, those failed, those
    being executed, those waiting in the three tiers and those whose
    execution was rejected with [null] or [undefined], which the error
    handler cannot report: it throws, and the task is counted neither as
    completed nor as failed.  The tasks counted, executed and waiting thus
    never exceed the tasks submitted, and make them up when no execution
    ended that way. *)
Theorem X6_submitted_tasks_are_accounted_for (c : State)
        (running : list string) :
  reachable c running ->
  (exists lost,
     ledger c running lost
     /\ (0 <= lost)%Z
     /\ (totalTasks (metrics c)
         = completedTasks (metrics c) + failedTasks (metrics c)
           + Z.of_nat (length running) + waiting c + lost)%Z)
  /\ (completedTasks (metrics c) + failedTasks (metrics c)
      + Z.of_nat (length running) + waiting c <= totalTasks (metrics c))%Z
  /\ (forall lost, ledger c running lost ->
        (totalTasks (metrics c)
         = completedTasks (metrics c) + failedTasks (metrics c)
           + Z.of_nat (length running) + waiting c + lost)%Z).
Proof.
intro Hreach. destruct (reachable_ledger Hreach) as [lost Hl].
destruct (ledger_balance Hl) as [H0 Hb].
split; [exists lost; now repeat split|]. split; [lia|].
intros lost' Hl'. exact (proj2 (ledger_balance Hl')).
Qed.

Lemma remove_first_NoDup (id x : string) (l : list string) :
  NoDup l -> In x (remove_first id l) <-> x <> id /\ In x l.
Proof.
induction 1 as [|y r Hy Hnd IH]; simpl; [tauto|].
destruct (String.eqb_spec id y) as [->|Hne].
- split.
  + intro Hx. split; [|now right]. intros ->. exact (Hy Hx).
  + intros [Hx [->|Hin]]; [congruence|exact Hin].
- simpl. rewrite IH. split.
  + intros [->|[H1 H2]]; [split; [congruence|now left]|tauto].
  + intros [H1 [->|H2]]; [now left|tauto].
Qed.

Lemma NoDup_remove_first (id : string) (l : list string) :
  NoDup l -> NoDup (remove_first id l).
Proof.
induction 1 as [|y r Hy Hnd IH]; simpl; [constructor|].
destruct (String.eqb id y); [exact Hnd|].
constructor; [|exact IH]. intro Hin. apply Hy.
exact (remove_first_In _ _ _ Hin).
Qed.

Lemma getBest_idle (c : State) (t : Task) (a : Agent) :
  keyed c -> getBestAgentForTask c t = Some a ->
  In (agent_id a) (idleAgents (agentPool c)).
Proof.
intros Hk H. apply getBest_Some_split in H.
destruct H as (l1 & l2 & Hav & _).
assert (Ha : In a (availableAgents c)) by (rewrite Hav; apply in_elt).
apply availableAgents_registered in Ha. destruct Ha as (id & Hid & Hin).
now rewrite (Hk _ _ Hin).
Qed.

Lemma metered_processTasks (c : State) (running : list string) :
  coherent c running -> metered c running ->
  metered (fst (processTasks c)) (started (snd (processTasks c)) ++ running).
Proof.
intros (Hp & Hk & Hr) ((Hnd & Hact & Hbusy & Hone) & Hsize).
unfold processTasks.
destruct (_ <=? _)%Z eqn:Efull;
  [exact (conj (conj Hnd (conj Hact (conj Hbusy Hone))) Hsize)|].
destruct (shiftTask (taskQueue c)) as [[task q']|];
  [|exact (conj (conj Hnd (conj Hact (conj Hbusy Hone))) Hsize)].
destruct (getBestAgentForTask (with_queue q' c) task) as [a|] eqn:E;
  [|exact (conj (conj Hnd (conj Hact (conj Hbusy Hone))) Hsize)].
assert (Hidle : In (agent_id a) (idleAgents (agentPool c))).
{ exact (getBest_idle (c := with_queue q' c) task Hk E). }
assert (Hnew : ~ In (agent_id a) running).
{ intro Hin. apply Hact in Hin. exact (proj1 Hp _ Hidle Hin). }
assert (Hnone : map_get (agent_id a) (busyAgents (agentPool c)) = None).
{ apply map_get_None_keys. intro Hin. apply Hnew. now apply Hbusy. }
simpl. unfold metered, exclusive, markAgentBusy. simpl. rewrite Hnone.
repeat split.
- constructor; assumption.
- intros [<-|Hin]; apply set_add_In; [now left|right; now apply Hact].
- intro Hin. apply set_add_In in Hin.
  destruct Hin as [->|Hin]; [now left|right; now apply Hact].
- intros [<-|Hin]; apply map_set_keys_In; [now left|right; now apply Hbusy].
- intro Hin. apply map_set_keys_In in Hin.
  destruct Hin as [->|Hin]; [now left|right; now apply Hbusy].
- intros id n Hin. apply map_set_In in Hin.
  destruct Hin as [[= _ ->]|Hin]; [reflexivity|exact (Hone _ _ Hin)].
- apply Z.leb_gt in Efull. unfold map_size in *.
  rewrite map_set_length_absent; [lia|].
  now apply map_get_None_keys.
Qed.

Lemma reachable_metered (c : State) (running : list string) :
  reachable c running -> metered c running.
Proof.
induction 1 as [n|c r a Hreach IH Hna|c r id Hreach IH Hnr|c r t p Hreach IH
               |c r ok id Hreach IH Hin|c r id Hreach IH Hin].
- split; [|change (0 <= Z.max 0 n)%Z; lia].
  unfold exclusive. simpl. repeat split; try tauto. constructor.
- exact IH.
- destruct IH as ((Hnd & Hact & Hbusy & Hone) & Hsize).
  unfold metered, exclusive. simpl. repeat split.
  + exact Hnd.
  + intro Hin. apply set_delete_In. split; [|now apply Hact].
    intros ->. exact (Hnr Hin).
  + intro Hin. apply set_delete_In in Hin. now apply Hact.
  + intro Hin. apply map_delete_keys_In. split; [|now apply Hbusy].
    intros ->. exact (Hnr Hin).
  + intro Hin. apply map_delete_keys_In in Hin. now apply Hbusy.
  + intros x n Hin. apply filter_In in Hin. exact (Hone _ _ (proj1 Hin)).
  + pose proof (map_delete_length id (busyAgents (agentPool c))) as Hl.
    unfold map_size in *. lia.
- unfold submitTask. cbv zeta. apply metered_processTasks.
  + apply reachable_coherent in Hreach. exact Hreach.
  + exact IH.
- unfold finishTask.
  pose proof (reachable_coherent Hreach) as (Hp & Hk & Hr).
  destruct IH as ((Hnd & Hact & Hbusy & Hone) & Hsize).
  assert (Hcount : map_get id (busyAgents (agentPool c)) = Some 1%Z).
  { destruct (map_get_of_key id (busyAgents (agentPool c))) as [n Hn];
      [now apply Hbusy|].
    rewrite Hn. f_equal. exact (Hone _ _ (map_get_Some_In _ _ Hn)). }
  apply metered_processTasks.
  + split; [|split].
    * apply partitioned_markAgentIdle; [exact Hp|]. exact (Hr id Hin).
    * unfold keyed, markAgentIdle. simpl.
      destruct (_ <=? 1)%Z; exact Hk.
    * intros x Hx. apply remove_first_In in Hx. unfold markAgentIdle.
      destruct (_ <=? 1)%Z; simpl; now apply Hr.
  + unfold metered, exclusive, markAgentIdle. simpl. rewrite Hcount. simpl.
    split; [split; [|split; [|split]]|].
    * now apply NoDup_remove_first.
    * intro x. rewrite (remove_first_NoDup id x Hnd), set_delete_In, Hact.
      tauto.
    * intro x. rewrite (remove_first_NoDup id x Hnd), map_delete_keys_In, Hbusy.
      tauto.
    * intros x n Hx. apply filter_In in Hx. exact (Hone _ _ (proj1 Hx)).
    * pose proof (map_delete_length id (busyAgents (agentPool c))) as Hl.
      unfold map_size in *. lia.
- unfold finishTaskUncounted.
  pose proof (reachable_coherent Hreach) as (Hp & Hk & Hr).
  destruct IH as ((Hnd & Hact & Hbusy & Hone) & Hsize).
  assert (Hcount : map_get id (busyAgents (agentPool c)) = Some 1%Z).
  { destruct (map_get_of_key id (busyAgents (agentPool c))) as [n Hn];
      [now apply Hbusy|].
    rewrite Hn. f_equal. exact (Hone _ _ (map_get_Some_In _ _ Hn)). }
  apply metered_processTasks.
  + split; [|split].
    * apply partitioned_markAgentIdle; [exact Hp|]. exact (Hr id Hin).
    * unfold keyed, markAgentIdle. simpl.
      destruct (_ <=? 1)%Z; exact Hk.
    * intros x Hx. apply remove_first_In in Hx. unfold markAgentIdle.
      destruct (_ <=? 1)%Z; simpl; now apply Hr.
  + unfold metered, exclusive, markAgentIdle. simpl. rewrite Hcount. simpl.
    split; [split; [|split; [|split]]|].
    * now apply NoDup_remove_first.
    * intro x. rewrite (remove_first_NoDup id x Hnd), set_delete_In, Hact.
      tauto.
    * intro x. rewrite (remove_first_NoDup id x Hnd), map_delete_keys_In, Hbusy.
      tauto.
    * intros x n Hx. apply filter_In in Hx. exact (Hone _ _ (proj1 Hx)).
    * pose proof (map_delete_length id (busyAgents (agentPool c))) as Hl.
      unfold map_size in *. lia.
Qed.

(** X7.  In every reachable state the agents executing a task are the
    active agents, each of them executes one task (its busy count is 1),
    and no more than [maxConcurrentTasks] tasks are executed at a time. *)
Theorem X7_at_most_maxConcurrentTasks_run (c : State)
        (running : list string) :
  reachable c running ->
  exclusive c running
  /\ (Z.of_nat (length running) <= Z.max 0 (maxConcurrentTasks c))%Z
  /\ forall id, In id running ->
                map_get id (busyAgents (agentPool c)) = Some 1%Z.
Proof.
intro Hreach.
destruct (reachable_metered Hreach) as ((Hnd & Hact & Hbusy & Hone) & Hsize).
split; [exact (conj Hnd (conj Hact (conj Hbusy Hone)))|]. split.
- assert (Hl : (length running
                <= length (map_keys (busyAgents (agentPool c))))%nat).
  { apply NoDup_incl_length; [exact Hnd|]. intros x Hx. now apply Hbusy. }
  unfold map_keys in Hl. rewrite length_map in Hl. unfold map_size in Hsize.
  lia.
- intros id Hin.
  destruct (map_get_of_key id (busyAgents (agentPool c))) as [n Hn];
    [now apply Hbusy|].
  rewrite Hn. f_equal. exact (Hone _ _ (map_get_Some_In _ _ Hn)).
Qed.

(** No step of the coordinator writes a utilization other than the 0 of
    [registerAgent]. *)
Lemma reachable_utilization (c : State) (running : list string) :
  reachable c running ->
  forall k u, In (k, u) (agentUtilization (metrics c)) -> u = 0.
Proof.
induction 1 as [n|c r a _ IH Hna|c r id _ IH Hnr|c r t p _ IH
               |c r ok id _ IH Hin|c r id _ IH Hin]; intros k u Hu.
- destruct Hu.
- simpl in Hu. apply map_set_In in Hu.
  destruct Hu as [[= _ ->]|Hu]; [reflexivity|exact (IH _ _ Hu)].
- simpl in Hu. apply filter_In in Hu. exact (IH _ _ (proj1 Hu)).
- unfold submitTask in Hu. cbv zeta in Hu.
  rewrite processTasks_metrics in Hu. exact (IH _ _ Hu).
- unfold finishTask in Hu. rewrite processTasks_metrics in Hu.
  unfold markAgentIdle in Hu.
  destruct (_ <=? 1)%Z; simpl in Hu; exact (IH _ _ Hu).
- unfold finishTaskUncounted in Hu. rewrite processTasks_metrics in Hu.
  unfold markAgentIdle in Hu.
  destruct (_ <=? 1)%Z; simpl in Hu; exact (IH _ _ Hu).
Qed.

(** X8.  The load term of the agent score never takes effect: in every
    reachable state the recorded utilization of every agent is 0, so an
    agent with all required skills scores the sum of the confidences of its
    matching capabilities, and any other agent scores -1. *)
Theorem X8_utilization_is_always_zero (c : State) (running : list string)
        (t : Task) (a : Agent) :
  reachable c running ->
  utilization c a = 0
  /\ agentScore c t a
     == if hasRequiredSkills t a then capabilityScore t a else -1.
Proof.
intro Hreach.
assert (Hu : utilization c a = 0).
{ unfold utilization.
  destruct (map_get (agent_id a) (agentUtilization (metrics c))) as [u|] eqn:E;
    [|reflexivity].
  exact (reachable_utilization Hreach _ _ (map_get_Some_In _ _ E)). }
split; [exact Hu|]. rewrite agentScore_formula, Hu.
destruct (hasRequiredSkills t a); [|reflexivity].
unfold Binary64.fsub, Binary64.fmul.
assert (Z0 : Binary64.round64 (0 * Binary64.literal (1 # 10)) = 0)
  by (apply round64_zero; ring).
rewrite Z0.
assert (E : capabilityScore t a - 0 == capabilityScore t a) by ring.
rewrite (round64_comp E). apply capabilityScore_rounded.
Qed.

End CoordinatorAccountsFacts.

Section CoordinatorAccountsScenarios.
Import JS Coordinator CoordinatorSpec CoordinatorAccounts.

Lemma busyA_reachable : reachable busyA ["A"%string].
Proof.
exact (reach_submit (needs_x "t0") medium
         (reach_register agentA (reach_new 10) (fun H => H))).
Qed.

Lemma X6_accounts_witness :
  (completedTasks (metrics lostOne) + failedTasks (metrics lostOne)
   + Z.of_nat (@length string []) + waiting lostOne
   <= totalTasks (metrics lostOne))%Z.
Proof.
exact (proj1 (proj2 (@X6_submitted_tasks_are_accounted_for lostOne []
                       (reach_uncounted "A" busyA_reachable
                                        (or_introl eq_refl))))).
Defined.

Lemma X7_concurrency_witness :
  (Z.of_nat (length ["A"%string]) <= Z.max 0 (maxConcurrentTasks busyA))%Z.
Proof.
exact (proj1 (proj2 (X7_at_most_maxConcurrentTasks_run busyA_reachable))).
Defined.

Lemma X8_utilization_witness : utilization busyA agentA = 0.
Proof.
exact (proj1 (X8_utilization_is_always_zero (needs_x "t1") agentA
                busyA_reachable)).
Defined.

End CoordinatorAccountsScenarios.

(** ** The job queue of the inference coordinator *)

Section InferenceQueueFacts.
Import JS Inference InferenceRuns.

Lemma enqueueJob_loop_perm (job : InferenceJob) (q : list InferenceJob) :
  Permutation (job :: q) (enqueueJob_loop job q).
Proof.
induction q as [|j r IH]; simpl; [apply Permutation_refl|].
destruct (priority j <? priority job)%Z; [apply Permutation_refl|].
apply perm_trans with (j :: job :: r); [apply perm_swap|].
now apply perm_skip.
Qed.

Lemma enqueueJob_loop_sorted (job : InferenceJob) (q : list InferenceJob) :
  StronglySorted falling q -> StronglySorted falling (enqueueJob_loop job q).
Proof.
induction 1 as [|j r Hs IH Hall]; simpl.
- constructor; constructor.
- destruct (priority j <? priority job)%Z eqn:E.
  + apply Z.ltb_lt in E. constructor; [constructor; assumption|].
    constructor; [unfold falling; lia|].
    rewrite Forall_forall in *. intros x Hx. specialize (Hall x Hx).
    unfold falling in *. lia.
  + apply Z.ltb_ge in E. constructor; [exact IH|].
    rewrite Forall_forall in *. intros x Hx.
    apply (Permutation_in _ (Permutation_sym (enqueueJob_loop_perm job r)))
      in Hx.
    destruct Hx as [<-|Hx]; [exact E|exact (Hall x Hx)].
Qed.

(** Among the jobs of one priority the new job comes last. *)
Lemma enqueueJob_loop_stable (job : InferenceJob) (q : list InferenceJob)
      (p : Z) :
  StronglySorted falling q ->
  filter (hasPriority p) (enqueueJob_loop job q)
  = filter (hasPriority p) (q ++ [job]).
Proof.
induction 1 as [|j r Hs IH Hall]; simpl; [reflexivity|].
destruct (priority j <? priority job)%Z eqn:E.
- apply Z.ltb_lt in E. cbn [filter].
  destruct (hasPriority p job) eqn:Ep.
  + assert (Hnone : forall x, In x (j :: r) -> hasPriority p x = false).
    { unfold hasPriority in *. apply Z.eqb_eq in Ep.
      rewrite Forall_forall in Hall.
      intros x [<-|Hx]; apply Z.eqb_neq; [lia|].
      specialize (Hall x Hx). unfold falling in Hall. lia. }
    rewrite filter_app. cbn [filter]. rewrite Ep.
    replace (hasPriority p j) with false by (symmetry; apply Hnone; now left).
    assert (Hr : filter (hasPriority p) r = []).
    { apply filter_none. intros x Hx. apply Hnone. now right. }
    rewrite Hr. reflexivity.
  + rewrite filter_app. cbn [filter]. rewrite Ep. now rewrite app_nil_r.
- cbn [filter]. rewrite IH. reflexivity.
Qed.

Lemma enqueueAll_queue (js : list InferenceJob) (st : State) :
  jobQueue (enqueueAll js st)
  = fold_left (fun q j => enqueueJob_loop j q) js (jobQueue st).
Proof.
revert st. induction js as [|j r IH]; intro st; [reflexivity|].
simpl. rewrite IH. reflexivity.
Qed.

Lemma enqueueAll_ordered (js q0 : list InferenceJob) :
  StronglySorted falling q0 ->
  let q := fold_left (fun q j => enqueueJob_loop j q) js q0 in
  Permutation (q0 ++ js) q
  /\ StronglySorted falling q
  /\ forall p, filter (hasPriority p) q = filter (hasPriority p) (q0 ++ js).
Proof.
revert q0. induction js as [|j r IH]; intros q0 Hs; simpl.
- rewrite app_nil_r. repeat split; [apply Permutation_refl|exact Hs].
- destruct (IH (enqueueJob_loop j q0) (enqueueJob_loop_sorted j Hs))
    as (H1 & H2 & H3).
  split; [|split; [exact H2|]].
  + apply perm_trans with (enqueueJob_loop j q0 ++ r); [|exact H1].
    apply perm_trans with ((j :: q0) ++ r).
    * apply Permutation_sym. apply Permutation_middle.
    * apply Permutation_app_tail. apply enqueueJob_loop_perm.
  + intro p. rewrite H3. rewrite !filter_app.
    rewrite (enqueueJob_loop_stable j p Hs). rewrite filter_app.
    rewrite <- app_assoc. cbn [filter]. now destruct (hasPriority p j).
Qed.

(** X9.  The job queue is a priority queue: jobs enqueued into an empty
    queue are kept, all of them, in the order of falling priority, jobs of
    the same priority in the order of their arrival; so [dequeueJob] hands
    out a job of the highest priority waiting, the one that arrived first
    among those. *)
Theorem X9_job_queue_is_ordered_by_priority (js : list InferenceJob)
        (st : State) :
  jobQueue st = [] ->
  let q := jobQueue (enqueueAll js st) in
  Permutation js q
  /\ StronglySorted falling q
  /\ (forall p, filter (hasPriority p) q = filter (hasPriority p) js)
  /\ forall j, fst (dequeueJob (enqueueAll js st)) = Some j ->
       (forall j', In j' js -> (priority j' <= priority j)%Z)
       /\ hd_error (filter (hasPriority (priority j)) js) = Some j.
Proof.
intros Hempty q. subst q. rewrite enqueueAll_queue, Hempty.
destruct (@enqueueAll_ordered js [] (SSorted_nil _)) as (H1 & H2 & H3).
simpl in H1, H3.
split; [exact H1|]. split; [exact H2|]. split; [exact H3|].
intros j Hj. unfold dequeueJob in Hj. rewrite enqueueAll_queue, Hempty in Hj.
destruct (fold_left _ js []) as [|j0 r] eqn:E; [discriminate|].
injection Hj as ->. split.
- intros j' Hin. apply (Permutation_in _ H1) in Hin.
  destruct Hin as [<-|Hin]; [lia|].
  apply StronglySorted_inv in H2. destruct H2 as [_ Hall].
  rewrite Forall_forall in Hall. exact (Hall _ Hin).
- rewrite <- H3. cbn [filter]. unfold hasPriority at 1.
  rewrite Z.eqb_refl. reflexivity.
Qed.

End InferenceQueueFacts.

Section InferenceQueueScenarios.
Import JS Inference InferenceSpec InferenceRuns.

Lemma X9_job_queue_witness :
  Permutation
    [jobFor (ask "a") 1 "j1" 0; jobFor (ask "b") 9 "j2" 1;
     jobFor (ask "c") 1 "j3" 2]
    (jobQueue
       (enqueueAll [jobFor (ask "a") 1 "j1" 0; jobFor (ask "b") 9 "j2" 1;
                    jobFor (ask "c") 1 "j3" 2] (new roundRobin3))).
Proof.
exact (proj1 (@X9_job_queue_is_ordered_by_priority
                [jobFor (ask "a") 1 "j1" 0; jobFor (ask "b") 9 "j2" 1;
                 jobFor (ask "c") 1 "j3" 2] (new roundRobin3) eq_refl)).
Defined.

End InferenceQueueScenarios.

(** ** The choice of an engine *)

Section LowestLoop.
Import JS Inference InferenceRuns.
Variable M : Type.
Variable key : EngineStatus -> M.
Variable ltb : M -> M -> bool.
Variables lt le : M -> M -> Prop.
Hypothesis ltb_true : forall a b, ltb a b = true -> lt a b.
Hypothesis ltb_false : forall a b, ltb a b = false -> le b a.
Hypothesis lt_trans : forall a b c, lt a b -> lt b c -> lt a c.
Hypothesis lt_le_trans : forall a b c, lt a b -> le b c -> lt a c.

Lemma lowest_loop_cons (st : State) (e : string * EngineStatus)
      (es : Map EngineStatus) (acc : option M * option Engine) :
  lowest_loop key ltb st (e :: es) acc
  = lowest_loop key ltb st es
      match status (snd e) with
      | idle =>
          match fst acc with
          | Some lowest =>
              if ltb (key (snd e)) lowest
              then (Some (key (snd e)), engineOf st (fst e)) else acc
          | None => (Some (key (snd e)), engineOf st (fst e))
          end
      | _ => acc
      end.
Proof. reflexivity. Qed.

(** Either no idle engine beats the accumulator, or the loop ends on the
    first idle engine of the least measure. *)
Lemma lowest_loop_spec (st : State) (es : Map EngineStatus)
      (acc : option M * option Engine) :
  (lowest_loop key ltb st es acc = acc
   /\ forall p, In p es -> status (snd p) = idle ->
                exists l, fst acc = Some l /\ le l (key (snd p)))
  \/ exists pre id s post,
       es = pre ++ (id, s) :: post
       /\ status s = idle
       /\ lowest_loop key ltb st es acc = (Some (key s), engineOf st id)
       /\ (forall p, In p pre -> status (snd p) = idle ->
                     lt (key s) (key (snd p)))
       /\ (forall l, fst acc = Some l -> lt (key s) l)
       /\ (forall p, In p post -> status (snd p) = idle ->
                     le (key s) (key (snd p))).
Proof.
revert acc. induction es as [|[id0 s0] r IH]; intro acc.
- left. split; [reflexivity|]. intros p [].
- rewrite lowest_loop_cons. cbn [fst snd].
  assert (Hskip : status s0 <> idle ->
    (lowest_loop key ltb st r acc = acc
     /\ forall p, In p ((id0, s0) :: r) -> status (snd p) = idle ->
                  exists l, fst acc = Some l /\ le l (key (snd p)))
    \/ exists pre id s post,
         (id0, s0) :: r = pre ++ (id, s) :: post
         /\ status s = idle
         /\ lowest_loop key ltb st r acc = (Some (key s), engineOf st id)
         /\ (forall p, In p pre -> status (snd p) = idle ->
                       lt (key s) (key (snd p)))
         /\ (forall l, fst acc = Some l -> lt (key s) l)
         /\ (forall p, In p post -> status (snd p) = idle ->
                       le (key s) (key (snd p)))).
  { intro Hs0.
    destruct (IH acc)
      as [[Hsame Hall]|(pre & id & s & post & H1 & H2 & H3 & H4 & H5 & H6)].
    - left. split; [exact Hsame|].
      intros p [<-|Hp] Hi; [simpl in Hi; congruence|now apply Hall].
    - right. exists ((id0, s0) :: pre), id, s, post.
      split; [now rewrite H1|]. split; [exact H2|]. split; [exact H3|].
      split; [|split; [exact H5|exact H6]].
      intros p [<-|Hp] Hi; [simpl in Hi; congruence|now apply H4]. }
  destruct (status s0) eqn:Es0;
    [|apply Hskip; discriminate..]. clear Hskip.
  destruct acc as [[l|] best]; cbn [fst snd] in *.
  + destruct (ltb (key s0) l) eqn:Elt.
    * destruct (IH (Some (key s0), engineOf st id0))
        as [[Hsame Hall]|(pre & id & s & post & H1 & H2 & H3 & H4 & H5 & H6)];
        cbn [fst snd] in *.
      -- right. exists [], id0, s0, r.
         split; [reflexivity|]. split; [exact Es0|]. split; [exact Hsame|].
         split; [intros p []|]. split.
         ++ intros l' [= <-]. now apply ltb_true.
         ++ intros p Hp Hi. destruct (Hall p Hp Hi) as (l' & [= <-] & Hle).
            exact Hle.
      -- right. exists ((id0, s0) :: pre), id, s, post.
         split; [now rewrite H1|]. split; [exact H2|]. split; [exact H3|].
         split; [|split; [|exact H6]].
         ++ intros p [<-|Hp] Hi; [apply H5; reflexivity|now apply H4].
         ++ intros l' [= <-]. apply lt_trans with (key s0).
            ** now apply H5.
            ** now apply ltb_true.
    * destruct (IH (Some l, best))
        as [[Hsame Hall]|(pre & id & s & post & H1 & H2 & H3 & H4 & H5 & H6)];
        cbn [fst snd] in *.
      -- left. split; [exact Hsame|].
         intros p [<-|Hp] Hi; [|now apply Hall].
         exists l. split; [reflexivity|]. now apply ltb_false.
      -- right. exists ((id0, s0) :: pre), id, s, post.
         split; [now rewrite H1|]. split; [exact H2|]. split; [exact H3|].
         split; [|split; [exact H5|exact H6]].
         intros p [<-|Hp] Hi; [|now apply H4].
         apply lt_le_trans with l; [now apply H5|now apply ltb_false].
  + destruct (IH (Some (key s0), engineOf st id0))
      as [[Hsame Hall]|(pre & id & s & post & H1 & H2 & H3 & H4 & H5 & H6)];
      cbn [fst snd] in *.
    * right. exists [], id0, s0, r.
      split; [reflexivity|]. split; [exact Es0|]. split; [exact Hsame|].
      split; [intros p []|]. split; [discriminate|].
      intros p Hp Hi. destruct (Hall p Hp Hi) as (l' & [= <-] & Hle).
      exact Hle.
    * right. exists ((id0, s0) :: pre), id, s, post.
      split; [now rewrite H1|]. split; [exact H2|]. split; [exact H3|].
      split; [|split; [discriminate|exact H6]].
      intros p [<-|Hp] Hi; [apply H5; reflexivity|now apply H4].
Qed.

End LowestLoop.

Section EngineChoice.
Import JS Inference InferenceRuns.

Lemma In_map_get (V : Type) (k : string) (v : V) (m : Map V) :
  NoDup (map_keys m) -> In (k, v) m -> map_get k m = Some v.
Proof.
induction m as [|[k' v'] r IH]; simpl; [tauto|].
intros Hnd [[= -> ->]|Hin].
- now rewrite String.eqb_refl.
- inversion Hnd as [|? ? Hk' Hr]; subst.
  destruct (String.eqb_spec k k') as [->|Hne]; [|now apply IH].
  exfalso. apply Hk'. exact (map_In_keys _ _ _ Hin).
Qed.

Lemma getEngineId_loop_unique (e : Engine) (id : string) (m : Map Engine) :
  NoDup (map_values m) -> In (id, e) m -> getEngineId_loop e m = id.
Proof.
induction m as [|[k' v'] r IH]; simpl; [tauto|].
intros Hnd [[= -> ->]|Hin].
- now rewrite Nat.eqb_refl.
- inversion Hnd as [|? ? Hv' Hr]; subst.
  destruct (Nat.eqb_spec v' e) as [->|Hne]; [|now apply IH].
  exfalso. apply Hv'. apply (in_map snd) in Hin. exact Hin.
Qed.

Lemma paired_engine (st : State) (id : string) (s : EngineStatus) :
  paired st -> In (id, s) (engineStatus st) ->
  exists e, map_get id (engines st) = Some e /\ getEngineId st e = id.
Proof.
intros (Hk & Hnk & Hnv) Hin.
destruct (map_get_of_key id (engines st)) as [e He].
{ rewrite <- Hk. exact (map_In_keys _ _ _ Hin). }
exists e. split; [exact He|]. unfold getEngineId.
apply getEngineId_loop_unique; [exact Hnv|]. exact (map_get_Some_In _ _ He).
Qed.

Lemma findRoundRobin_loop_spec (st : State) (es : Map EngineStatus) :
  (findRoundRobin_loop st es = None
   /\ forall p, In p es -> status (snd p) <> idle)
  \/ exists pre id s post,
       es = pre ++ (id, s) :: post
       /\ status s = idle
       /\ findRoundRobin_loop st es = engineOf st id
       /\ forall p, In p pre -> status (snd p) <> idle.
Proof.
induction es as [|[id0 s0] r IH]; simpl.
- left. split; [reflexivity|]. intros p [].
- destruct (status s0) eqn:Es0;
    [right; exists [], id0, s0, r; repeat split; [exact Es0|intros p []]|..];
    (destruct IH as [[Hn Hall]|(pre & id & s & post & H1 & H2 & H3 & H4)];
     [left; split; [exact Hn|];
      intros p [<-|Hp]; [simpl; congruence|now apply Hall]
     |right; exists ((id0, s0) :: pre), id, s, post;
      split; [now rewrite H1|]; split; [exact H2|]; split; [exact H3|];
      intros p [<-|Hp]; [simpl; congruence|now apply H4]]).
Qed.

Lemma Zltb_load (a b : Z) : (a <? b)%Z = true -> inject_Z a < inject_Z b.
Proof. intro H. apply Z.ltb_lt in H. now rewrite <- Zlt_Qlt. Qed.

Lemma Zgeb_load (a b : Z) : (a <? b)%Z = false -> inject_Z b <= inject_Z a.
Proof. intro H. apply Z.ltb_ge in H. now rewrite <- Zle_Qle. Qed.

Lemma Qltb_load (a b : Q) : Qlt_bool a b = true -> a < b.
Proof. apply Qlt_bool_iff. Qed.

Lemma Qgeb_load (a b : Q) : Qlt_bool a b = false -> b <= a.
Proof.
unfold Qlt_bool. intro H. apply Qle_bool_iff.
now destruct (Qle_bool b a).
Qed.

(** Whatever the strategy, the engine chosen is the engine of an idle
    record. *)
Lemma findAvailableEngine_found (st : State) (e : Engine) :
  findAvailableEngine st = Some e ->
  exists id s, In (id, s) (engineStatus st) /\ status s = idle
               /\ map_get id (engines st) = Some e.
Proof.
unfold findAvailableEngine. destruct (loadBalancing (config st)).
- unfold findRoundRobin.
  destruct (findRoundRobin_loop_spec st (engineStatus st))
    as [[Hn _]|(pre & id & s & post & H1 & H2 & H3 & _)].
  + rewrite Hn. discriminate.
  + rewrite H3. intro He. exists id, s. rewrite H1.
    split; [apply in_elt|]. split; [exact H2|exact He].
- change (findLeastLoaded st)
    with (snd (lowest_loop processedJobs Z.ltb st (engineStatus st)
                           (None, None))).
  destruct (@lowest_loop_spec Z processedJobs Z.ltb
              (fun a b => inject_Z a < inject_Z b)
              (fun a b => inject_Z a <= inject_Z b)
              Zltb_load Zgeb_load
              (fun a b c => @Qlt_trans (inject_Z a) (inject_Z b) (inject_Z c))
              (fun a b c => @Qlt_le_trans (inject_Z a) (inject_Z b)
                                          (inject_Z c))
              st (engineStatus st) (None, None))
    as [[Hn _]|(pre & id & s & post & H1 & H2 & H3 & _)].
  + rewrite Hn. discriminate.
  + rewrite H3. intro He. exists id, s. rewrite H1.
    split; [apply in_elt|]. split; [exact H2|exact He].
- change (findByPriority st)
    with (snd (lowest_loop averageLatency Qlt_bool st (engineStatus st)
                           (None, None))).
  destruct (@lowest_loop_spec Q averageLatency Qlt_bool Qlt Qle
              Qltb_load Qgeb_load Qlt_trans Qlt_le_trans
              st (engineStatus st) (None, None))
    as [[Hn _]|(pre & id & s & post & H1 & H2 & H3 & _)].
  + rewrite Hn. discriminate.
  + rewrite H3. intro He. exists id, s. rewrite H1.
    split; [apply in_elt|]. split; [exact H2|exact He].
Qed.

Lemma chosen_idle (st : State) (e : Engine) :
  paired st -> findAvailableEngine st = Some e ->
  statusOf st (getEngineId st e) = Some idle.
Proof.
intros Hp He.
destruct (@findAvailableEngine_found st e He) as (id & s & Hin & Hs & Hg).
destruct (@paired_engine st id s Hp Hin) as (e' & He' & Hid).
rewrite Hg in He'. injection He' as <-. rewrite Hid.
unfold statusOf. destruct Hp as (Hk & Hnk & _).
rewrite (@In_map_get _ id s (engineStatus st)); [simpl; now rewrite Hs| |exact Hin].
now rewrite Hk.
Qed.

(** X10.  An engine is chosen only among the idle ones, and it is the first
    of those that is best for the strategy: the first idle engine for
    round-robin, the first with the fewest processed jobs for least-loaded,
    the first with the lowest average latency for priority.  No engine is
    chosen exactly when none is idle. *)
Theorem X10_chosen_engine_is_first_best_idle (st : State) :
  paired st ->
  match findAvailableEngine st with
  | None => forall p, In p (engineStatus st) -> status (snd p) <> idle
  | Some e =>
      exists pre id s post,
        engineStatus st = pre ++ (id, s) :: post
        /\ status s = idle
        /\ map_get id (engines st) = Some e
        /\ getEngineId st e = id
        /\ (forall p, In p pre -> status (snd p) = idle ->
              load (loadBalancing (config st)) s
              < load (loadBalancing (config st)) (snd p))
        /\ (forall p, In p post -> status (snd p) = idle ->
              load (loadBalancing (config st)) s
              <= load (loadBalancing (config st)) (snd p))
  end.
Proof.
intro Hp. unfold findAvailableEngine.
destruct (loadBalancing (config st)).
- unfold findRoundRobin.
  destruct (findRoundRobin_loop_spec st (engineStatus st))
    as [[Hn Hall]|(pre & id & s & post & H1 & H2 & H3 & H4)].
  + rewrite Hn. exact Hall.
  + destruct (@paired_engine st id s Hp) as (e & He & Hid).
    { rewrite H1. apply in_elt. }
    rewrite H3. unfold engineOf. rewrite He.
    exists pre, id, s, post. repeat split; try assumption.
    * intros p Hin Hi. exfalso. exact (H4 p Hin Hi).
    * intros p Hin Hi. simpl. apply Qle_refl.
- change (findLeastLoaded st)
    with (snd (lowest_loop processedJobs Z.ltb st (engineStatus st)
                           (None, None))).
  destruct (@lowest_loop_spec Z processedJobs Z.ltb
              (fun a b => inject_Z a < inject_Z b)
              (fun a b => inject_Z a <= inject_Z b)
              Zltb_load Zgeb_load
              (fun a b c => @Qlt_trans (inject_Z a) (inject_Z b) (inject_Z c))
              (fun a b c => @Qlt_le_trans (inject_Z a) (inject_Z b)
                                          (inject_Z c))
              st (engineStatus st) (None, None))
    as [[Hn Hall]|(pre & id & s & post & H1 & H2 & H3 & H4 & _ & H6)].
  + rewrite Hn. simpl. intros p Hin Hi.
    destruct (Hall p Hin Hi) as (l & Hl & _). discriminate.
  + destruct (@paired_engine st id s Hp) as (e & He & Hid).
    { rewrite H1. apply in_elt. }
    rewrite H3. unfold engineOf. simpl. rewrite He.
    exists pre, id, s, post. repeat split; assumption.
- change (findByPriority st)
    with (snd (lowest_loop averageLatency Qlt_bool st (engineStatus st)
                           (None, None))).
  destruct (@lowest_loop_spec Q averageLatency Qlt_bool Qlt Qle
              Qltb_load Qgeb_load Qlt_trans Qlt_le_trans
              st (engineStatus st) (None, None))
    as [[Hn Hall]|(pre & id & s & post & H1 & H2 & H3 & H4 & _ & H6)].
  + rewrite Hn. simpl. intros p Hin Hi.
    destruct (Hall p Hin Hi) as (l & Hl & _). discriminate.
  + destruct (@paired_engine st id s Hp) as (e & He & Hid).
    { rewrite H1. apply in_elt. }
    rewrite H3. unfold engineOf. simpl. rewrite He.
    exists pre, id, s, post. repeat split; assumption.
Qed.

End EngineChoice.

(** ** Runs of the inference coordinator *)

Section InferenceRunsFacts.
Import JS Inference InferenceRuns.
Import CoordinatorSpec (remove_first).
Variable stringify : CacheKeyObject -> string.

Lemma map_set_keys_alike (V W : Type) (k : string) (v : V) (w : W)
      (m : Map V) (n : Map W) :
  map_keys m = map_keys n ->
  map_keys (map_set k v m) = map_keys (map_set k w n).
Proof.
revert n. induction m as [|[k1 v1] r IH]; intros [|[k2 w2] n]; simpl;
  try discriminate; [reflexivity|].
intros [= -> H]. destruct (String.eqb k k2); simpl; [now rewrite H|].
f_equal. now apply IH.
Qed.

Lemma map_set_keys_present (V : Type) (k : string) (v v0 : V) (m : Map V) :
  map_get k m = Some v0 -> map_keys (map_set k v m) = map_keys m.
Proof.
induction m as [|[k1 v1] r IH]; simpl; [discriminate|].
destruct (String.eqb_spec k k1) as [->|Hne]; [reflexivity|].
intro H. simpl. f_equal. now apply IH.
Qed.

Lemma map_set_values (V : Type) (k : string) (v x : V) (m : Map V) :
  In x (map_values (map_set k v m)) -> x = v \/ In x (map_values m).
Proof.
induction m as [|[k1 v1] r IH]; simpl.
- intros [<-|[]]. now left.
- destruct (String.eqb k k1); simpl.
  + intros [<-|H]; [now left|right; now right].
  + intros [H|H]; [right; now left|]. apply IH in H. tauto.
Qed.

Lemma NoDup_values_set (V : Type) (k : string) (v : V) (m : Map V) :
  NoDup (map_values m) -> ~ In v (map_values m) ->
  NoDup (map_values (map_set k v m)).
Proof.
induction m as [|[k1 v1] r IH]; simpl; intros Hnd Hv.
- constructor; [tauto|constructor].
- inversion Hnd as [|? ? Hv1 Hr]; subst.
  destruct (String.eqb k k1); simpl.
  + constructor; [tauto|exact Hr].
  + constructor; [|apply IH; tauto].
    intro H. apply map_set_values in H. destruct H as [->|H]; tauto.
Qed.

Lemma addEngines_paired (modelPath : string) (now : Z) (l : list nat)
      (st : State) :
  paired st -> NoDup l ->
  (forall i, In i l -> ~ In i (map_values (engines st))) ->
  paired (fold_left (fun s i => addEngine modelPath now i s) l st).
Proof.
revert st. induction l as [|i r IH]; intros st Hp Hnd Hfresh; [exact Hp|].
simpl. inversion Hnd as [|? ? Hi Hr]; subst. apply IH; [|exact Hr|].
- destruct Hp as (Hk & Hnk & Hnv). unfold paired. simpl.
  split; [|split].
  + now apply map_set_keys_alike.
  + now apply NoDup_map_set.
  + apply NoDup_values_set; [exact Hnv|]. apply Hfresh. now left.
- intros j Hj Hin. simpl in Hin. apply map_set_values in Hin.
  destruct Hin as [->|Hin]; [exact (Hi Hj)|].
  exact (Hfresh j (or_intror Hj) Hin).
Qed.

Lemma initialize_paired (modelPath : string) (n now : Z) (st : State) :
  paired st -> engines st = [] -> paired (initialize modelPath n now st).
Proof.
intros Hp He. unfold initialize. cbv zeta.
match goal with |- paired {| config := _ ?s; engines := _; engineStatus := _;
                             jobQueue := _; responseCache := _;
                             metrics := _; isRunning := _ |} =>
  assert (H : paired s) end.
{ apply addEngines_paired; [exact Hp|apply seq_NoDup|].
  intros i _. rewrite He. simpl. tauto. }
exact H.
Qed.

(** *** What the steps leave as it is *)

Lemma updateEngineStatus_frame (id : string) (s : EngineState)
      (j : option string) (now : Z) (st : State) :
  let st' := updateEngineStatus id s j now st in
  engines st' = engines st
  /\ map_keys (engineStatus st') = map_keys (engineStatus st)
  /\ config st' = config st /\ jobQueue st' = jobQueue st
  /\ responseCache st' = responseCache st /\ metrics st' = metrics st
  /\ isRunning st' = isRunning st.
Proof.
unfold updateEngineStatus.
destruct (map_get id (engineStatus st)) as [es|] eqn:E; simpl;
  repeat split. eapply map_set_keys_present. exact E.
Qed.

Lemma updateEngineStatus_status (id id' : string) (s : EngineState)
      (j : option string) (now : Z) (st : State) :
  statusOf (updateEngineStatus id s j now st) id'
  = if String.eqb id' id then option_map (fun _ => s) (statusOf st id)
    else statusOf st id'.
Proof.
unfold updateEngineStatus, statusOf.
destruct (String.eqb_spec id' id) as [->|Hne].
- destruct (map_get id (engineStatus st)) as [es|] eqn:E; simpl.
  + now rewrite map_get_set_same.
  + now rewrite E.
- destruct (map_get id (engineStatus st)) as [es|] eqn:E; simpl.
  + now rewrite map_get_set_other.
  + reflexivity.
Qed.

Lemma framed_refl (st : State) : framed st st.
Proof. repeat split. Qed.

Lemma framed_trans (a b c : State) : framed a b -> framed b c -> framed a c.
Proof.
intros (H1 & H2 & H3) (H4 & H5 & H6). unfold framed.
rewrite H4, H5, H6. auto.
Qed.

Lemma updateEngineStatus_framed (id : string) (s : EngineState)
      (j : option string) (now : Z) (st : State) :
  framed st (updateEngineStatus id s j now st).
Proof.
destruct (updateEngineStatus_frame id s j now st) as (H1 & H2 & H3 & _).
exact (conj H1 (conj H2 H3)).
Qed.

Lemma processed_status (id id' : string) (es es' : EngineStatus)
      (m : Map EngineStatus) :
  map_get id m = Some es -> status es' = status es ->
  option_map status (map_get id' (map_set id es' m))
  = option_map status (map_get id' m).
Proof.
intros Hm Hs. destruct (String.eqb_spec id' id) as [->|Hne].
- rewrite map_get_set_same, Hm. simpl. now rewrite Hs.
- now rewrite map_get_set_other.
Qed.

(** [executeJob] after the engine has answered: the engine is idle again,
    the other records keep their status; one more job is completed. *)
Lemma executeJobResolved_effect (job : InferenceJob) (e : Engine)
      (resp : InferenceResponse) (latency now : Z) (st : State) :
  let st' := executeJobResolved stringify job e resp latency now st in
  framed st st'
  /\ (forall id, statusOf st' id
                 = if String.eqb id (getEngineId st e)
                   then option_map (fun _ => idle)
                                   (statusOf st (getEngineId st e))
                   else statusOf st id)
  /\ jobQueue st' = jobQueue st
  /\ totalJobs (metrics st') = totalJobs (metrics st)
  /\ completedJobs (metrics st') = (completedJobs (metrics st) + 1)%Z
  /\ failedJobs (metrics st') = failedJobs (metrics st)
  /\ isRunning st' = isRunning st
  /\ responseCache st'
     = if enableCaching (config st)
       then responseCache (cacheResponse stringify (request job) resp now st)
       else responseCache st.
Proof.
unfold executeJobResolved. cbv zeta.
set (eid := getEngineId st e).
match goal with |- context [updateEngineStatus eid idle None now ?x] =>
  set (st3 := x) end.
match goal with st3 := (if _ then cacheResponse _ _ _ _ ?x else _) |- _ =>
  set (st2 := x) in * end.
assert (H2 : framed st st2
             /\ (forall id, statusOf st2 id = statusOf st id)
             /\ jobQueue st2 = jobQueue st
             /\ totalJobs (metrics st2) = totalJobs (metrics st)
             /\ completedJobs (metrics st2) = (completedJobs (metrics st) + 1)%Z
             /\ failedJobs (metrics st2) = failedJobs (metrics st)
             /\ isRunning st2 = isRunning st
             /\ responseCache st2 = responseCache st).
{ unfold st2. cbn [engineStatus with_metrics].
  destruct (map_get eid (engineStatus st)) as [es|] eqn:E.
  - unfold framed, statusOf. cbn. repeat split.
    + eapply map_set_keys_present. exact E.
    + intro id. now apply processed_status with es.
  - unfold framed, statusOf. cbn. repeat split. }
destruct H2 as (Hf2 & Hs2 & Hq2 & Ht2 & Hc2 & Hx2 & Hr2 & Hy2).
assert (H3 : framed st st3
             /\ (forall id, statusOf st3 id = statusOf st id)
             /\ jobQueue st3 = jobQueue st
             /\ metrics st3 = metrics st2
             /\ isRunning st3 = isRunning st
             /\ responseCache st3
                = if enableCaching (config st)
                  then responseCache
                         (cacheResponse stringify (request job) resp now st)
                  else responseCache st).
{ unfold st3. destruct Hf2 as (F1 & F2 & F3). rewrite F3.
  destruct (enableCaching (config st)).
  - unfold cacheResponse. cbv zeta. unfold framed, statusOf. cbn.
    rewrite F3, Hy2. repeat split; try assumption.
    all: try (intro id; apply Hs2).
  - split; [exact (conj F1 (conj F2 F3))|]. repeat split; assumption. }
destruct H3 as (Hf3 & Hs3 & Hq3 & Hm3 & Hr3 & Hy3).
destruct (updateEngineStatus_frame eid idle None now st3)
  as (G1 & G2 & G3 & G4 & G5 & G6 & G7). cbv zeta in *.
split; [|split; [|repeat split]].
- apply framed_trans with st3; [exact Hf3|].
  apply updateEngineStatus_framed.
- intro id. rewrite updateEngineStatus_status, !Hs3. reflexivity.
- now rewrite G4.
- now rewrite G6, Hm3.
- now rewrite G6, Hm3.
- now rewrite G6, Hm3.
- now rewrite G7.
- now rewrite G5.
Qed.

Lemma executeJobRejected_effect (job : InferenceJob) (e : Engine) (now : Z)
      (st : State) :
  let st' := executeJobRejected job e now st in
  framed st st'
  /\ (forall id, statusOf st' id
                 = if String.eqb id (getEngineId st e)
                   then option_map (fun _ => idle)
                                   (statusOf st (getEngineId st e))
                   else statusOf st id)
  /\ jobQueue st' = jobQueue st
  /\ totalJobs (metrics st') = totalJobs (metrics st)
  /\ completedJobs (metrics st') = completedJobs (metrics st)
  /\ failedJobs (metrics st') = (failedJobs (metrics st) + 1)%Z
  /\ responseCache st' = responseCache st
  /\ isRunning st' = isRunning st.
Proof.
unfold executeJobRejected. cbv zeta.
set (eid := getEngineId st e).
match goal with |- context [updateEngineStatus eid idle None now ?x] =>
  set (st1 := x) end.
destruct (updateEngineStatus_frame eid idle None now st1)
  as (G1 & G2 & G3 & G4 & G5 & G6 & G7). cbv zeta in *.
split; [|split; [|repeat split]].
- exact (conj G1 (conj G2 G3)).
- intro id. rewrite updateEngineStatus_status. reflexivity.
- now rewrite G4.
- now rewrite G6.
- now rewrite G6.
- now rewrite G6.
- now rewrite G5.
- now rewrite G7.
Qed.

Lemma executeJobStart_effect (job : InferenceJob) (e : Engine) (now : Z)
      (st : State) :
  let st' := executeJobStart job e now st in
  framed st st'
  /\ (forall id, statusOf st' id
                 = if String.eqb id (getEngineId st e)
                   then option_map (fun _ => processing)
                                   (statusOf st (getEngineId st e))
                   else statusOf st id)
  /\ jobQueue st' = jobQueue st
  /\ metrics st' = metrics st
  /\ responseCache st' = responseCache st
  /\ isRunning st' = isRunning st.
Proof.
unfold executeJobStart.
destruct (updateEngineStatus_frame (getEngineId st e) processing
            (Some (job_id job)) now st)
  as (G1 & G2 & G3 & G4 & G5 & G6 & G7). cbv zeta in *.
split; [exact (conj G1 (conj G2 G3))|]. split; [|repeat split; assumption].
intro id. apply updateEngineStatus_status.
Qed.

Lemma enqueueJob_loop_length (job : InferenceJob) (q : list InferenceJob) :
  length (enqueueJob_loop job q) = S (length q).
Proof.
induction q as [|j r IH]; simpl; [reflexivity|].
destruct (_ <? _)%Z; simpl; [reflexivity|now rewrite IH].
Qed.

(** [submit] up to its first suspension. *)
Lemma submit_effect (r : InferenceRequest) (prio : Z) (jobId : string)
      (now : Z) (st : State) :
  let o := fst (submit stringify r prio jobId now st) in
  let st' := snd (submit stringify r prio jobId now st) in
  framed st st' /\ isRunning st' = isRunning st
  /\ responseCache st' = responseCache st
  /\ match o with
     | CacheHit _ =>
         (forall id, statusOf st' id = statusOf st id)
         /\ jobQueue st' = jobQueue st
         /\ outstanding st' = outstanding st
     | Dispatched job e =>
         findAvailableEngine st = Some e
         /\ (forall id, statusOf st' id
                        = if String.eqb id (getEngineId st e)
                          then option_map (fun _ => processing)
                                          (statusOf st (getEngineId st e))
                          else statusOf st id)
         /\ jobQueue st' = jobQueue st
         /\ outstanding st' = (outstanding st + 1)%Z
     | Queued job =>
         findAvailableEngine st = None
         /\ (forall id, statusOf st' id = statusOf st id)
         /\ jobQueue st' = enqueueJob_loop job (jobQueue st)
         /\ outstanding st' = (outstanding st + 1)%Z
     end.
Proof.
unfold submit. destruct (cachedFor stringify r now st) as [resp|]; cbv zeta.
- cbn. repeat split.
- set (job := {| job_id := jobId; request := r; priority := prio;
                 createdAt := now |}).
  assert (G : forall st2,
    engines st2 = engines st -> engineStatus st2 = engineStatus st ->
    config st2 = config st -> jobQueue st2 = jobQueue st ->
    responseCache st2 = responseCache st -> isRunning st2 = isRunning st ->
    outstanding st2 = (outstanding st + 1)%Z ->
    let res := match findAvailableEngine st2 with
               | Some e => (Dispatched job e, executeJobStart job e now st2)
               | None => (Queued job, enqueueJob job st2)
               end in
    framed st (snd res) /\ isRunning (snd res) = isRunning st
    /\ responseCache (snd res) = responseCache st
    /\ match fst res with
       | CacheHit _ =>
           (forall id, statusOf (snd res) id = statusOf st id)
           /\ jobQueue (snd res) = jobQueue st
           /\ outstanding (snd res) = outstanding st
       | Dispatched job e =>
           findAvailableEngine st = Some e
           /\ (forall id, statusOf (snd res) id
                          = if String.eqb id (getEngineId st e)
                            then option_map (fun _ => processing)
                                            (statusOf st (getEngineId st e))
                            else statusOf st id)
           /\ jobQueue (snd res) = jobQueue st
           /\ outstanding (snd res) = (outstanding st + 1)%Z
       | Queued job =>
           findAvailableEngine st = None
           /\ (forall id, statusOf (snd res) id = statusOf st id)
           /\ jobQueue (snd res) = enqueueJob_loop job (jobQueue st)
           /\ outstanding (snd res) = (outstanding st + 1)%Z
       end).
  { intros st2 E1 E2 E3 E4 E5 E6 E7.
    assert (Hfind : findAvailableEngine st2 = findAvailableEngine st).
    { unfold findAvailableEngine, findRoundRobin, findLeastLoaded,
        findByPriority, engineOf. rewrite E2, E3.
      destruct (loadBalancing (config st)); [|now rewrite E1..].
      clear E2.
      induction (engineStatus st) as [|[id s] es IH]; simpl; [reflexivity|].
      unfold engineOf. rewrite E1, IH. reflexivity. }
    assert (Hid : forall e, getEngineId st2 e = getEngineId st e).
    { intro e. unfold getEngineId. now rewrite E1. }
    assert (Hst : forall id, statusOf st2 id = statusOf st id).
    { intro id. unfold statusOf. now rewrite E2. }
    rewrite Hfind. destruct (findAvailableEngine st) as [e|]; cbv zeta;
      cbn [fst snd].
    - destruct (executeJobStart_effect job e now st2)
        as ((F1 & F2 & F3) & S1 & Q1 & M1 & C1 & R1). cbv zeta in *.
      split; [unfold framed; rewrite F1, F2, F3, E1, E2, E3; auto|].
      split; [now rewrite R1|]. split; [now rewrite C1|].
      split; [reflexivity|]. split; [|split].
      + intro id. rewrite S1, Hid, !Hst. reflexivity.
      + now rewrite Q1.
      + unfold outstanding in *. rewrite M1. exact E7.
    - unfold enqueueJob, framed, statusOf. cbn.
      rewrite E1, E2, E3, E4, E5, E6. repeat split. exact E7. }
  destruct (enableCaching (config st)); apply G; try reflexivity;
    unfold outstanding; cbn; lia.
Qed.

(** A turn of [processQueue]. *)
Lemma processQueueTurn_effect (now : Z) (st : State) :
  let st' := snd (processQueueTurn now st) in
  match fst (processQueueTurn now st) with
  | None => st' = st
  | Some (job, e) =>
      findAvailableEngine st = Some e
      /\ framed st st' /\ isRunning st' = isRunning st
      /\ responseCache st' = responseCache st
      /\ (forall id, statusOf st' id
                     = if String.eqb id (getEngineId st e)
                       then option_map (fun _ => processing)
                                       (statusOf st (getEngineId st e))
                       else statusOf st id)
      /\ jobQueue st = job :: jobQueue st'
      /\ metrics st' = metrics st
  end.
Proof.
unfold processQueueTurn. destruct (isRunning st) eqn:Er; [|reflexivity].
destruct (jobQueue st) as [|j q] eqn:Eq; [reflexivity|].
destruct (findAvailableEngine st) as [e|] eqn:Ef; [|reflexivity].
unfold dequeueJob. rewrite Eq. cbv zeta. cbn [fst snd].
destruct (executeJobStart_effect j e now (with_jobQueue q st))
  as (F & S1 & Q1 & M1 & C1 & R1). cbv zeta in *.
split; [reflexivity|]. split; [exact F|]. split; [now rewrite R1|].
split; [exact C1|]. split; [exact S1|]. split; [now rewrite Q1|exact M1].
Qed.

Lemma addEngines_keeps (modelPath : string) (now : Z) (l : list nat)
      (st : State) :
  let st' := fold_left (fun s i => addEngine modelPath now i s) l st in
  config st' = config st /\ jobQueue st' = jobQueue st
  /\ responseCache st' = responseCache st /\ metrics st' = metrics st.
Proof.
revert st. induction l as [|i r IH]; intro st; [repeat split|].
simpl. destruct (IH (addEngine modelPath now i st)) as (H1 & H2 & H3 & H4).
cbv zeta in *. rewrite H1, H2, H3, H4. repeat split.
Qed.

Lemma addEngines_status (modelPath : string) (now : Z) (l : list nat)
      (st : State) (id : string) :
  statusOf (fold_left (fun s i => addEngine modelPath now i s) l st) id
  = Some processing ->
  statusOf st id = Some processing.
Proof.
revert st. induction l as [|i r IH]; intro st; [tauto|].
simpl. intro H. apply IH in H. unfold statusOf in *. simpl in H.
destruct (String.eqb_spec id (engineName i)) as [->|Hne].
- rewrite map_get_set_same in H. discriminate.
- now rewrite map_get_set_other in H.
Qed.

Lemma initialize_keeps (modelPath : string) (n now : Z) (st : State) :
  let st' := initialize modelPath n now st in
  config st' = config st /\ jobQueue st' = jobQueue st
  /\ responseCache st' = responseCache st /\ metrics st' = metrics st
  /\ forall id, statusOf st' id = Some processing ->
                statusOf st id = Some processing.
Proof.
unfold initialize. cbv zeta. cbn [config jobQueue responseCache metrics].
destruct (addEngines_keeps modelPath now
            (seq 0 (Z.to_nat (Z.min n (maxEngines (config st))))) st)
  as (H1 & H2 & H3 & H4). cbv zeta in *.
repeat split; try assumption.
intro id. unfold statusOf at 1. cbn [engineStatus].
apply addEngines_status.
Qed.

Lemma paired_framed (st st' : State) :
  framed st st' -> paired st -> paired st'.
Proof.
intros (F1 & F2 & _) (P1 & P2 & P3). unfold paired.
rewrite F1, F2. auto.
Qed.

Lemma reachable_paired (st : State) (pending : list string) :
  reachable stringify st pending -> paired st.
Proof.
induction 1 as [cfg|st p mp n now _ IH He|st p r prio jobId now _ IH
               |st p now _ IH|st p job e resp lat now _ IH Hin
               |st p job e now _ IH Hin].
- unfold paired. simpl. repeat split; constructor.
- now apply initialize_paired.
- destruct (submit_effect r prio jobId now st) as (F & _).
  exact (paired_framed F IH).
- pose proof (processQueueTurn_effect now st) as H. cbv zeta in H.
  destruct (fst (processQueueTurn now st)) as [[job e]|].
  + destruct H as (_ & F & _). exact (paired_framed F IH).
  + now rewrite H.
- destruct (executeJobResolved_effect job e resp lat now st) as (F & _).
  exact (paired_framed F IH).
- destruct (executeJobRejected_effect job e now st) as (F & _).
  exact (paired_framed F IH).
Qed.

Lemma engaged_same (st st' : State) (pending : list string) :
  (forall id, statusOf st' id = statusOf st id) ->
  engaged st pending -> engaged st' pending.
Proof.
intros Hs (Hnd & Hiff). split; [exact Hnd|].
intro id. rewrite Hs. apply Hiff.
Qed.

Lemma engaged_dispatch (st st' : State) (pending : list string)
      (e : Engine) :
  paired st -> engaged st pending -> findAvailableEngine st = Some e ->
  (forall id, statusOf st' id
              = if String.eqb id (getEngineId st e)
                then option_map (fun _ => processing)
                                (statusOf st (getEngineId st e))
                else statusOf st id) ->
  engaged st' (getEngineId st e :: pending).
Proof.
intros Hp (Hnd & Hiff) He Hs.
pose proof (chosen_idle Hp He) as Hidle.
split.
- constructor; [|exact Hnd]. intro Hin. apply Hiff in Hin.
  rewrite Hidle in Hin. discriminate.
- intro id. rewrite Hs. simpl.
  destruct (String.eqb_spec id (getEngineId st e)) as [->|Hne].
  + rewrite Hidle. simpl. split; [reflexivity|now left].
  + rewrite <- Hiff. split; [intros [H|H]; [congruence|exact H]|now right].
Qed.

Lemma engaged_release (st st' : State) (pending : list string)
      (gid : string) :
  engaged st pending ->
  (forall id, statusOf st' id
              = if String.eqb id gid
                then option_map (fun _ => idle) (statusOf st gid)
                else statusOf st id) ->
  engaged st' (remove_first gid pending).
Proof.
intros (Hnd & Hiff) Hs. split; [now apply NoDup_remove_first|].
intro id. rewrite (remove_first_NoDup gid id Hnd), Hs.
destruct (String.eqb_spec id gid) as [->|Hne].
- split; [tauto|]. destruct (statusOf st gid); discriminate.
- rewrite <- Hiff. tauto.
Qed.

(** The invariant of the runs: the pending engines are the processing ones
    and the jobs neither completed nor failed are pending or queued. *)
Lemma reachable_engaged (st : State) (pending : list string) :
  reachable stringify st pending ->
  engaged st pending
  /\ outstanding st
     = (Z.of_nat (length pending) + Z.of_nat (length (jobQueue st)))%Z.
Proof.
induction 1 as [cfg|st p mp n now Hr IH He|st p r prio jobId now Hr IH
               |st p now Hr IH|st p job e resp lat now Hr IH Hin
               |st p job e now Hr IH Hin];
  try (pose proof (reachable_paired Hr) as Hp);
  try destruct IH as (IH1 & IH2).
- split; [|reflexivity]. split; [constructor|].
  intro id. unfold statusOf. simpl. split; [tauto|discriminate].
- destruct (initialize_keeps mp n now st) as (K1 & K2 & K3 & K4 & K5).
  cbv zeta in *. split.
  + destruct IH1 as (Hnd & Hiff). split; [exact Hnd|]. intro id. split.
    * intro Hin. exfalso. apply Hiff in Hin. unfold statusOf in Hin.
      destruct Hp as (P1 & _). rewrite He in P1.
      destruct (engineStatus st); [discriminate|discriminate].
    * intro H2. apply Hiff. now apply K5.
  + unfold outstanding in *. now rewrite K4, K2.
- destruct (submit_effect r prio jobId now st) as (F & _ & _ & H).
  cbv zeta in H.
  destruct (fst (submit stringify r prio jobId now st)) as [resp|job e|job];
    cbn [handedTo dispatched app].
  + destruct H as (S1 & Q1 & O1). split; [exact (engaged_same _ S1 IH1)|].
    rewrite O1, Q1. exact IH2.
  + destruct H as (E1 & S1 & Q1 & O1).
    split; [exact (engaged_dispatch _ Hp IH1 E1 S1)|].
    rewrite O1, Q1, IH2. cbn [length]. lia.
  + destruct H as (_ & S1 & Q1 & O1). split; [exact (engaged_same _ S1 IH1)|].
    rewrite O1, Q1, IH2, enqueueJob_loop_length. lia.
- pose proof (processQueueTurn_effect now st) as H. cbv zeta in H.
  destruct (fst (processQueueTurn now st)) as [[job e]|];
    cbn [handedTo app].
  + destruct H as (E1 & F & R1 & C1 & S1 & Q1 & M1).
    split; [exact (engaged_dispatch _ Hp IH1 E1 S1)|].
    unfold outstanding in *. rewrite M1, IH2, Q1. cbn [length]. lia.
  + rewrite H. split; assumption.
- destruct (executeJobResolved_effect job e resp lat now st)
    as (F & S1 & Q1 & T1 & C1 & X1 & _). cbv zeta in *.
  split; [exact (engaged_release _ _ IH1 S1)|].
  unfold outstanding in *. rewrite T1, C1, X1, Q1.
  pose proof (remove_first_length _ _ Hin). lia.
- destruct (executeJobRejected_effect job e now st)
    as (F & S1 & Q1 & T1 & C1 & X1 & _). cbv zeta in *.
  split; [exact (engaged_release _ _ IH1 S1)|].
  unfold outstanding in *. rewrite T1, C1, X1, Q1.
  pose proof (remove_first_length _ _ Hin). lia.
Qed.

(** X11.  No engine runs two jobs at a time: in every reachable state the
    engines whose [infer] is awaited are distinct, they are the engines
    recorded as processing, and the engine chosen for the next job is none
    of them. *)
Theorem X11_no_engine_runs_two_jobs (st : State) (pending : list string) :
  reachable stringify st pending ->
  NoDup pending
  /\ (forall id, In id pending <-> statusOf st id = Some processing)
  /\ (length pending <= length (engines st))%nat
  /\ forall e, findAvailableEngine st = Some e ->
               ~ In (getEngineId st e) pending.
Proof.
intro Hr. pose proof (reachable_paired Hr) as Hp.
destruct (reachable_engaged Hr) as ((Hnd & Hiff) & _).
split; [exact Hnd|]. split; [exact Hiff|]. split.
- destruct Hp as (P1 & _).
  replace (length (engines st)) with (length (map_keys (engineStatus st)))
    by (rewrite P1; apply length_map).
  apply NoDup_incl_length; [exact Hnd|]. intros id Hin.
  apply Hiff in Hin. unfold statusOf in Hin.
  destruct (map_get id (engineStatus st)) as [s|] eqn:E; [|discriminate].
  exact (map_get_Some_keys _ _ E).
- intros e He Hin. apply Hiff in Hin.
  rewrite (chosen_idle Hp He) in Hin. discriminate.
Qed.

(** X12.  Every job is accounted for: in every reachable state the jobs
    counted by [totalJobs] are those completed, those failed, those being
    run by an engine and those waiting in the queue. *)
Theorem X12_jobs_are_accounted_for (st : State) (pending : list string) :
  reachable stringify st pending ->
  (totalJobs (metrics st)
   = completedJobs (metrics st) + failedJobs (metrics st)
     + Z.of_nat (length pending) + Z.of_nat (length (jobQueue st)))%Z.
Proof.
intro Hr. destruct (reachable_engaged Hr) as (_ & Ho).
unfold outstanding in Ho. lia.
Qed.

Lemma cacheResponse_bounded (r : InferenceRequest) (resp : InferenceResponse)
      (now : Z) (st : State) :
  (forall o, stringify o <> EmptyString) ->
  cacheBounded st -> cacheBounded (cacheResponse stringify r resp now st).
Proof.
intros Hkey (Hne & Hsize). unfold cacheBounded, cacheResponse. cbv zeta.
cbn [responseCache config with_cache].
match goal with |- context [map_set _ ?x _] => set (entry := x) end.
set (key := getCacheKey stringify r).
assert (Hk : key <> EmptyString) by apply Hkey.
destruct (cacheSize (config st) <=? map_size (responseCache st))%Z eqn:E.
- destruct (responseCache st) as [|[k0 c0] rest] eqn:Ec.
  + simpl. split; [intros [H|[]]; now apply Hk|]. unfold map_size. simpl. lia.
  + cbn [map_keys map fst].
    assert (Hk0 : String.eqb k0 EmptyString = false).
    { apply String.eqb_neq. intros ->. apply Hne. now left. }
    rewrite Hk0. split.
    * rewrite map_set_keys_In, map_delete_keys_In.
      intros [H|[_ H]]; [now apply Hk|now apply Hne].
    * pose proof (map_set_length key entry (map_delete k0 ((k0, c0) :: rest))).
      assert (Hin : In k0 (map_keys ((k0, c0) :: rest))) by now left.
      pose proof (map_delete_shorter k0 ((k0, c0) :: rest) Hin).
      unfold map_size in *. lia.
- apply Z.leb_gt in E. split.
  + rewrite map_set_keys_In. intros [H|H]; [now apply Hk|now apply Hne].
  + pose proof (map_set_length key entry (responseCache st)).
    unfold map_size in *. lia.
Qed.

Lemma reachable_cacheBounded (st : State) (pending : list string) :
  (forall o, stringify o <> EmptyString) ->
  reachable stringify st pending -> cacheBounded st.
Proof.
intro Hkey.
induction 1 as [cfg|st p mp n now _ IH He|st p r prio jobId now _ IH
               |st p now _ IH|st p job e resp lat now _ IH Hin
               |st p job e now _ IH Hin].
- split; simpl; [tauto|]. unfold map_size. simpl. lia.
- destruct (initialize_keeps mp n now st) as (K1 & K2 & K3 & _).
  cbv zeta in *. unfold cacheBounded. now rewrite K1, K3.
- destruct (submit_effect r prio jobId now st) as ((_ & _ & F) & _ & C & _).
  unfold cacheBounded. now rewrite F, C.
- pose proof (processQueueTurn_effect now st) as H. cbv zeta in H.
  destruct (fst (processQueueTurn now st)) as [[job e]|].
  + destruct H as (_ & (_ & _ & F) & _ & C & _).
    unfold cacheBounded. now rewrite F, C.
  + now rewrite H.
- destruct (executeJobResolved_effect job e resp lat now st)
    as ((_ & _ & F) & _ & _ & _ & _ & _ & _ & C). cbv zeta in *.
  unfold cacheBounded. rewrite F, C.
  destruct (enableCaching (config st)); [|exact IH].
  exact (cacheResponse_bounded (request job) resp now Hkey IH).
- destruct (executeJobRejected_effect job e now st)
    as ((_ & _ & F) & _ & _ & _ & _ & _ & C & _). cbv zeta in *.
  unfold cacheBounded. now rewrite F, C.
Qed.

(** X13.  The response cache is bounded: as no cache key is the empty
    string, in every reachable state it holds no more than [cacheSize]
    responses, or one when [cacheSize] is below 1. *)
Theorem X13_response_cache_is_bounded (st : State) (pending : list string) :
  (forall o, stringify o <> EmptyString) ->
  reachable stringify st pending ->
  (map_size (responseCache st) <= Z.max 1 (cacheSize (config st)))%Z.
Proof.
intros Hkey Hr. exact (proj2 (reachable_cacheBounded Hkey Hr)).
Qed.

(** X14.  A response cached while the cache is full first drops the
    response cached first, whether or not the request is cached already, and
    is then put into the map.  For a request cached among the later entries
    the entry is replaced where it is and the cache shrinks by one entry.
    Otherwise the new entry takes the last place and the size stays: so for
    a request that was not cached and for the request cached first, whose
    entry thus moves from the first place to the last. *)
Theorem X14_full_cache_drops_the_oldest_response (r : InferenceRequest)
        (resp : InferenceResponse) (now : Z) (st : State) (k0 : string)
        (c0 : CachedResponse) (rest : Map CachedResponse) :
  responseCache st = (k0, c0) :: rest ->
  NoDup (map_keys (responseCache st)) ->
  k0 <> EmptyString ->
  (cacheSize (config st) <= map_size (responseCache st))%Z ->
  let key := getCacheKey stringify r in
  let entry := {| response := resp; cached_at := now |} in
  let after := responseCache (cacheResponse stringify r resp now st) in
  after = map_set key entry rest
  /\ (In key (map_keys rest) ->
      map_keys after = map_keys rest
      /\ map_size after = (map_size (responseCache st) - 1)%Z)
  /\ (~ In key (map_keys rest) ->
      after = rest ++ [(key, entry)]
      /\ map_size after = map_size (responseCache st))
  /\ (key = k0 -> after = rest ++ [(k0, entry)]).
Proof.
intros Hc Hnd Hk0 Hfull key entry after.
assert (Hafter : after = map_set key entry rest).
{ unfold after, cacheResponse. cbv zeta.
  cbn [responseCache with_cache].
  apply Z.leb_le in Hfull. rewrite Hfull, Hc. cbn [map_keys map fst].
  apply String.eqb_neq in Hk0. rewrite Hk0.
  assert (Hd : map_delete k0 ((k0, c0) :: rest) = rest).
  { rewrite Hc in Hnd.
    exact (@map_delete_split _ [] rest k0 c0 Hnd). }
  now rewrite Hd. }
assert (Hfresh : ~ In key (map_keys rest) ->
                 after = rest ++ [(key, entry)]
                 /\ map_size after = map_size (responseCache st)).
{ intro Hnin. rewrite Hafter, (@map_set_fresh _ key entry rest Hnin), Hc.
  split; [reflexivity|]. unfold map_size.
  rewrite length_app. cbn [length]. lia. }
split; [exact Hafter|]. split; [|split; [exact Hfresh|]].
- intro Hin. rewrite Hafter. split.
  + destruct (@map_get_of_key _ key rest Hin) as [v0 Hv0].
    exact (@map_set_keys_present _ key entry v0 rest Hv0).
  + unfold map_size. rewrite map_set_length_present by exact Hin.
    rewrite Hc. cbn [length]. lia.
- intro Ek.
  assert (Hnin : ~ In key (map_keys rest)).
  { rewrite Ek. rewrite Hc in Hnd. cbn [map_keys map fst] in Hnd.
    now inversion Hnd. }
  rewrite <- Ek. exact (proj1 (Hfresh Hnin)).
Qed.

End InferenceRunsFacts.

Section InferenceRunsScenarios.
Import JS Inference InferenceSpec InferenceRuns.

Lemma threeIdle_paired : paired threeIdle.
Proof.
unfold paired. vm_compute.
repeat split; repeat constructor; simpl; intuition discriminate.
Qed.

Lemma promptKey_not_empty (o : CacheKeyObject) : promptKey o <> EmptyString.
Proof. unfold promptKey. now destruct (k_prompt o). Qed.

(** The request "a" has been handed to engine 0. *)
Lemma oneJob_reachable :
  reachable promptKey (snd (submit promptKey (ask "a") 5 "j1" 1 threeIdle))
            ["engine_0"%string].
Proof.
exact (reach_submit (ask "a") 5 "j1" 1
         (reach_initialize "model.gguf" 3 0 (reach_new promptKey roundRobin3)
                           eq_refl)).
Qed.

Lemma X10_chosen_engine_witness :
  match findAvailableEngine threeIdle with
  | None => forall p, In p (engineStatus threeIdle) -> status (snd p) <> idle
  | Some e =>
      exists pre id s post,
        engineStatus threeIdle = pre ++ (id, s) :: post
        /\ status s = idle
        /\ map_get id (engines threeIdle) = Some e
        /\ getEngineId threeIdle e = id
        /\ (forall p, In p pre -> status (snd p) = idle ->
              load (loadBalancing (config threeIdle)) s
              < load (loadBalancing (config threeIdle)) (snd p))
        /\ (forall p, In p post -> status (snd p) = idle ->
              load (loadBalancing (config threeIdle)) s
              <= load (loadBalancing (config threeIdle)) (snd p))
  end.
Proof.
exact (X10_chosen_engine_is_first_best_idle threeIdle_paired).
Defined.

Lemma X11_engines_witness :
  (length ["engine_0"%string]
   <= length (engines (snd (submit promptKey (ask "a") 5 "j1" 1 threeIdle))))%nat.
Proof.
exact (proj1 (proj2 (proj2 (X11_no_engine_runs_two_jobs oneJob_reachable)))).
Defined.

Lemma X12_jobs_witness :
  (totalJobs (metrics (snd (submit promptKey (ask "a") 5 "j1" 1 threeIdle)))
   = completedJobs
       (metrics (snd (submit promptKey (ask "a") 5 "j1" 1 threeIdle)))
     + failedJobs
         (metrics (snd (submit promptKey (ask "a") 5 "j1" 1 threeIdle)))
     + Z.of_nat (length ["engine_0"%string])
     + Z.of_nat
         (length
            (jobQueue (snd (submit promptKey (ask "a") 5 "j1" 1 threeIdle)))))%Z.
Proof.
exact (X12_jobs_are_accounted_for oneJob_reachable).
Defined.

Lemma X13_response_cache_witness :
  (map_size
     (responseCache (snd (submit promptKey (ask "a") 5 "j1" 1 threeIdle)))
   <= Z.max 1
        (cacheSize
           (config (snd (submit promptKey (ask "a") 5 "j1" 1 threeIdle)))))%Z.
Proof.
exact (X13_response_cache_is_bounded promptKey_not_empty oneJob_reachable).
Defined.

Lemma X14_full_cache_witness :
  responseCache
    (cacheResponse promptKey (ask "a") (answer "no") 40
       (cacheResponse promptKey (ask "b") (answer "fine") 35
          (cacheResponse promptKey (ask "a") (answer "ok") 30
             (new {| maxEngines := 1; loadBalancing := round_robin;
                     enableCaching := true; cacheSize := 2 |}))))
  = [(getCacheKey promptKey (ask "b"),
      {| response := answer "fine"; cached_at := 35 |});
     (getCacheKey promptKey (ask "a"),
      {| response := answer "no"; cached_at := 40 |})].
Proof.
refine (proj2 (proj2 (proj2
          (@X14_full_cache_drops_the_oldest_response promptKey
             (ask "a") (answer "no") 40
             (cacheResponse promptKey (ask "b") (answer "fine") 35
                (cacheResponse promptKey (ask "a") (answer "ok") 30
                   (new {| maxEngines := 1; loadBalancing := round_robin;
                           enableCaching := true; cacheSize := 2 |})))
             (getCacheKey promptKey (ask "a"))
             {| response := answer "ok"; cached_at := 30 |}
             [(getCacheKey promptKey (ask "b"),
               {| response := answer "fine"; cached_at := 35 |})]
             eq_refl _ _ _))) eq_refl).
- vm_compute. repeat constructor; simpl; intuition discriminate.
- vm_compute. discriminate.
- vm_compute. discriminate.
Defined.

End InferenceRunsScenarios.

(** ** More of the memory manager *)

Section MemoryOpsFacts.
Import JS MemoryManager MemorySpec MemoryOps.

Lemma map_delete_fresh (V : Type) (k : string) (m : Map V) :
  ~ In k (map_keys m) -> map_delete k m = m.
Proof.
unfold map_delete.
induction m as [|[k' v'] r IH]; simpl; [reflexivity|]. intro H.
destruct (String.eqb_spec k k') as [->|Hne]; [tauto|].
simpl. f_equal. apply IH. tauto.
Qed.

Lemma map_delete_set_fresh (V : Type) (k : string) (v : V) (m : Map V) :
  ~ In k (map_keys m) -> map_delete k (map_set k v m) = m.
Proof.
intro H. rewrite map_set_fresh by exact H. unfold map_delete.
rewrite filter_app. simpl. rewrite String.eqb_refl. simpl.
rewrite app_nil_r. now apply map_delete_fresh.
Qed.

(** Records with fresh, distinct identifiers are appended in their order. *)
Lemma import_fresh (ms : list Memory) (st : State) :
  NoDup (map_keys (memories st) ++ map mem_id ms) ->
  memories (import ms st)
  = memories st ++ map (fun m => (mem_id m, m)) ms.
Proof.
revert st. induction ms as [|m r IH]; intros st Hnd.
- simpl. now rewrite app_nil_r.
- rewrite import_cons, IH; cbn [memories].
  + rewrite map_set_fresh.
    * now rewrite <- app_assoc.
    * apply NoDup_remove_2 in Hnd. intro H. apply Hnd.
      apply in_or_app. now left.
  + rewrite map_set_fresh.
    * unfold map_keys. rewrite map_app. simpl. rewrite <- app_assoc. exact Hnd.
    * apply NoDup_remove_2 in Hnd. intro H. apply Hnd.
      apply in_or_app. now left.
Qed.

(** The index of embeddings after an import of records with distinct
    identifiers. *)
Lemma import_embeddings (ms : list Memory) (st : State) (id : string) :
  NoDup (map mem_id ms) ->
  map_get id (embeddings (import ms st))
  = match find (fun m => String.eqb id (mem_id m)) ms with
    | Some m => match embedding m with
                | Some e => Some e
                | None => map_get id (embeddings st)
                end
    | None => map_get id (embeddings st)
    end.
Proof.
revert st. induction ms as [|m r IH]; intros st Hnd; [reflexivity|].
inversion Hnd as [|? ? Hm Hr]; subst.
rewrite import_cons, IH by exact Hr. cbn [embeddings find].
destruct (String.eqb_spec id (mem_id m)) as [->|Hne].
- assert (Hnone : find (fun m0 => String.eqb (mem_id m) (mem_id m0)) r = None).
  { destruct (find _ r) as [m'|] eqn:E; [|reflexivity]. exfalso.
    apply find_some in E. destruct E as [Hin Heq].
    apply String.eqb_eq in Heq. apply Hm. rewrite Heq. now apply in_map. }
  rewrite Hnone. destruct (embedding m); [apply map_get_set_same|reflexivity].
- assert (Hsame : map_get id match embedding m with
                              | Some e => map_set (mem_id m) e (embeddings st)
                              | None => embeddings st
                              end = map_get id (embeddings st)).
  { destruct (embedding m); [now apply map_get_set_other|reflexivity]. }
  rewrite Hsame. reflexivity.
Qed.

Lemma keyed_entries (st : State) :
  keyed st ->
  map (fun m => (mem_id m, m)) (map_values (memories st)) = memories st.
Proof.
unfold keyed, map_values. intro Hk. rewrite map_map.
induction (memories st) as [|[k m] r IH]; [reflexivity|]. simpl.
rewrite (Hk k m) by now left. f_equal. apply IH.
intros k' m' Hin. apply Hk. now right.
Qed.

Lemma keyed_find (st : State) (id : string) :
  keyed st ->
  find (fun m => String.eqb id (mem_id m)) (map_values (memories st))
  = map_get id (memories st).
Proof.
unfold keyed, map_values. intro Hk.
induction (memories st) as [|[k m] r IH]; [reflexivity|]. simpl.
rewrite (Hk k m) by now left.
destruct (String.eqb id k); [reflexivity|]. apply IH.
intros k' m' Hin. apply Hk. now right.
Qed.

(** X15.  Export and import are a round trip: the records exported from a
    store, imported into an empty store of any configuration, give the same
    records under the same keys in the same order, and the index of
    embeddings holds the embedding of every record that has one. *)
Theorem X15_export_import_round_trip (st : State) (cfg : MemoryConfig) :
  keyed st -> unique st ->
  memories (import (export st) (new cfg)) = memories st
  /\ export (import (export st) (new cfg)) = export st
  /\ config (import (export st) (new cfg)) = cfg
  /\ forall id,
       map_get id (embeddings (import (export st) (new cfg)))
       = match map_get id (memories st) with
         | Some m => embedding m
         | None => None
         end.
Proof.
intros Hk Hu.
assert (Hids : map mem_id (export st) = map_keys (memories st)).
{ unfold export, map_values. rewrite map_map. now apply keyed_ids. }
assert (Hm : memories (import (export st) (new cfg)) = memories st).
{ rewrite import_fresh.
  - simpl. unfold export. now apply keyed_entries.
  - simpl. rewrite Hids. exact Hu. }
split; [exact Hm|]. split; [unfold export at 1; now rewrite Hm|].
split; [apply import_config|].
intro id. rewrite import_embeddings by (rewrite Hids; exact Hu).
unfold export. rewrite keyed_find by exact Hk. simpl.
destruct (map_get id (memories st)) as [m|]; [|reflexivity].
now destruct (embedding m).
Qed.

(** X16.  A stored record is found under its identifier, with the content
    given, no access counted and the time of the call; when the store has
    room and the identifier is new, deleting the record again reports
    success and leaves the store as it was before. *)
Theorem X16_store_then_delete_round_trip (g : string -> list Q)
        (id : string) (now now' : Z) (input : MemoryInput) (st : State) :
  let m := fst (store g id now now' input st) in
  let st' := snd (store g id now now' input st) in
  map_get id (memories st') = Some m
  /\ mem_id m = id /\ content m = in_content input
  /\ accessCount m = 0%Z /\ timestamp m = now
  /\ ((map_size (memories st) < maxMemories (config st))%Z ->
      ~ In id (map_keys (memories st)) ->
      ~ In id (map_keys (embeddings st)) ->
      deleted id st' = true /\ delete id st' = st).
Proof.
unfold store. cbv zeta. cbn [fst snd memories].
split; [apply map_get_set_same|]. repeat split.
- unfold deleted, map_has. simpl. now rewrite map_get_set_same.
- apply Z.leb_gt in H. destruct st as [ms cfg es].
  cbn [memories config embeddings] in *.
  destruct (enabled cfg); cbn [memories config embeddings]; rewrite H;
    unfold delete; cbn [memories config embeddings].
  + now rewrite !map_delete_set_fresh.
  + rewrite map_delete_set_fresh by assumption.
    now rewrite map_delete_fresh.
Qed.

Lemma map_set_keys_kept (V : Type) (k : string) (v : V) (m : Map V) :
  In k (map_keys m) -> map_keys (map_set k v m) = map_keys m.
Proof.
induction m as [|[k1 v1] r IH]; simpl; [tauto|].
destruct (String.eqb_spec k k1) as [->|Hne]; [reflexivity|].
intros [H|H]; [congruence|]. simpl. f_equal. now apply IH.
Qed.

(** X17.  [update] changes one record in place: for an unknown identifier
    it returns nothing and changes nothing; for a known one the keys of the
    store and their order stay, the other records stay, the record read
    back is the one returned, and the embedding is computed anew exactly
    when a content other than the empty string is given and the store is
    enabled. *)
Theorem X17_update_replaces_in_place (g : string -> list Q) (id : string)
        (u : MemoryUpdates) (st : State) :
  (map_get id (memories st) = None -> update g id u st = (None, st))
  /\ forall memory, map_get id (memories st) = Some memory ->
       let st' := snd (update g id u st) in
       exists updated,
         fst (update g id u st) = Some updated
         /\ map_keys (memories st') = map_keys (memories st)
         /\ map_get id (memories st') = Some updated
         /\ (forall k, k <> id ->
               map_get k (memories st') = map_get k (memories st))
         /\ config st' = config st
         /\ content updated = override (up_content u) (content memory)
         /\ mem_id updated = override (up_id u) (mem_id memory)
         /\ match regenerated u st with
            | Some c => embedding updated = Some (g c)
                        /\ map_get id (embeddings st') = Some (g c)
            | None => embedding updated = embedding (spread memory u)
                      /\ embeddings st' = embeddings st
            end.
Proof.
split.
- intro Hnone. unfold update. now rewrite Hnone.
- intros memory Hsome. unfold update. rewrite Hsome.
  assert (Hin : In id (map_keys (memories st)))
    by exact (map_get_Some_keys _ _ Hsome).
  destruct (regenerated u st) as [c|]; cbv zeta; cbn [fst snd memories].
  + eexists. split; [reflexivity|]. split; [now apply map_set_keys_kept|].
    split; [apply map_get_set_same|]. split.
    { intros k Hk. now apply map_get_set_other. }
    repeat split. simpl. apply map_get_set_same.
  + eexists. split; [reflexivity|]. split; [now apply map_set_keys_kept|].
    split; [apply map_get_set_same|]. split.
    { intros k Hk. now apply map_get_set_other. }
    repeat split.
Qed.

(** *** Clusters *)

Section Clusters.
Variable cosineSimilarity : list Q -> list Q -> Q.

Local Abbreviation gathered := (gather cosineSimilarity).
Local Abbreviation similar := (alike cosineSimilarity).

Lemma gather_spec (memory : Memory) (others cluster : list Memory)
      (assigned : Set_) :
  exists added,
    fst (gathered memory others cluster assigned) = cluster ++ added
    /\ (forall x, In x (snd (gathered memory others cluster assigned))
                  <-> In x assigned \/ In x (map mem_id added))
    /\ NoDup (map mem_id added)
    /\ (forall o, In o added ->
          In o others /\ ~ In (mem_id o) assigned /\ similar memory o)
    /\ (forall o, In o others ->
          In (mem_id o) (snd (gathered memory others cluster assigned))
          \/ ~ similar memory o).
Proof.
revert cluster assigned.
induction others as [|other r IH]; intros cluster assigned.
- exists []. simpl. rewrite app_nil_r. repeat split; try tauto.
  constructor.
- cbn [gather].
  assert (Hskip : In (mem_id other) assigned \/ ~ similar memory other ->
    exists added,
      fst (gathered memory r cluster assigned) = cluster ++ added
      /\ (forall x, In x (snd (gathered memory r cluster assigned))
                    <-> In x assigned \/ In x (map mem_id added))
      /\ NoDup (map mem_id added)
      /\ (forall o, In o added ->
            In o (other :: r) /\ ~ In (mem_id o) assigned /\ similar memory o)
      /\ (forall o, In o (other :: r) ->
            In (mem_id o) (snd (gathered memory r cluster assigned))
            \/ ~ similar memory o)).
  { intro why. destruct (IH cluster assigned)
      as (added & H1 & H2 & H3 & H4 & H5).
    exists added. split; [exact H1|]. split; [exact H2|]. split; [exact H3|].
    split.
    - intros o Ho. destruct (H4 o Ho) as (A & B & C).
      split; [now right|]. split; assumption.
    - intros o [<-|Ho]; [|now apply H5].
      destruct why as [H|H]; [left; apply H2; now left|now right]. }
  destruct (set_has (mem_id other) assigned) eqn:Eh.
  { apply Hskip. left. now apply set_has_In. }
  assert (Hnew : ~ In (mem_id other) assigned).
  { intro H. apply set_has_In in H. congruence. }
  destruct (embedding memory) as [a|] eqn:Ea;
    [|apply Hskip; right; intros (a & b & H & _); congruence].
  destruct (embedding other) as [b|] eqn:Eb;
    [|apply Hskip; right; intros (a' & b' & _ & H & _); congruence].
  destruct (Qlt_bool threshold (cosineSimilarity a b)) eqn:Elt.
  + apply Qlt_bool_iff in Elt.
    destruct (IH (cluster ++ [other]) (set_add (mem_id other) assigned))
      as (added & H1 & H2 & H3 & H4 & H5).
    exists (other :: added). split; [now rewrite H1, <- app_assoc|].
    split; [|split; [|split]].
    * intro x. rewrite H2, set_add_In. simpl. split.
      -- intros [[->|H]|H]; tauto.
      -- intros [H|[<-|H]]; tauto.
    * simpl. constructor; [|exact H3]. intro Hin.
      apply in_map_iff in Hin. destruct Hin as (o & Heq & Ho).
      destruct (H4 o Ho) as (_ & B & _). apply B. apply set_add_In.
      now left.
    * intros o [<-|Ho].
      -- split; [now left|]. split; [exact Hnew|].
         exists a, b. repeat split; assumption.
      -- destruct (H4 o Ho) as (A & B & C). split; [now right|].
         split; [|exact C]. intro H. apply B. apply set_add_In. now right.
    * intros o [<-|Ho]; [|now apply H5].
      left. apply H2. left. apply set_add_In. now left.
  + apply Hskip. right. intros (a' & b' & Ha' & Hb' & Hlt).
    rewrite Ea in Ha'. rewrite Eb in Hb'. injection Ha' as <-.
    injection Hb' as <-. apply Qlt_bool_iff in Hlt. congruence.
Qed.

Lemma greedy_snoc (clusters : list (list Memory)) (c : list Memory) :
  greedy cosineSimilarity clusters ->
  (forall c0 seed, In c0 clusters -> hd_error c0 = Some seed ->
     forall o, In o c -> ~ similar seed o) ->
  greedy cosineSimilarity (clusters ++ [c]).
Proof.
intros Hg Hnew l1 c0 l2 seed Heq Hseed o Ho.
destruct (exists_last (l := c0 :: l2)) as (front & lastc & Hf);
  [discriminate|].
assert (Hsplit : clusters = l1 ++ front /\ c = lastc).
{ rewrite Hf, app_assoc in Heq. apply app_inj_tail in Heq.
  destruct Heq as [-> ->]. tauto. }
destruct Hsplit as [-> <-].
destruct front as [|f0 front'].
- simpl in Hf. injection Hf as -> ->. destruct Ho.
- simpl in Hf. injection Hf as <- ->.
  rewrite concat_app in Ho. simpl in Ho. rewrite app_nil_r in Ho.
  apply in_app_or in Ho. destruct Ho as [Ho|Ho].
  + exact (Hg l1 c0 front' seed eq_refl Hseed o Ho).
  + apply (Hnew c0 seed); [apply in_elt|exact Hseed|exact Ho].
Qed.

Lemma cluster_loop_spec (todo all : list Memory)
      (clusters : list (list Memory)) (assigned : Set_) :
  incl todo all ->
  clustering cosineSimilarity all clusters assigned ->
  exists assigned',
    clustering cosineSimilarity all
               (cluster_loop cosineSimilarity todo all clusters assigned)
               assigned'
    /\ (forall x, In x assigned -> In x assigned')
    /\ forall m, In m todo -> In (mem_id m) assigned'.
Proof.
revert clusters assigned.
induction todo as [|memory r IH]; intros clusters assigned Hincl Hc.
- exists assigned. split; [exact Hc|]. split; [tauto|]. intros m [].
- assert (Hr : incl r all) by (intros x Hx; apply Hincl; now right).
  cbn [cluster_loop].
  destruct (set_has (mem_id memory) assigned) eqn:Eh.
  + destruct (IH clusters assigned Hr Hc) as (a' & H1 & H2 & H3).
    exists a'. split; [exact H1|]. split; [exact H2|].
    intros m [<-|Hm]; [|now apply H3]. apply H2. now apply set_has_In.
  + assert (Hnew : ~ In (mem_id memory) assigned).
    { intro H. apply set_has_In in H. congruence. }
    cbv zeta.
    destruct (gather_spec memory all [memory]
                          (set_add (mem_id memory) assigned))
      as (added & G1 & G2 & G3 & G4 & G5).
    set (ca := gather cosineSimilarity memory all [memory]
                      (set_add (mem_id memory) assigned)) in *.
    destruct Hc as (C1 & C2 & C3 & C4 & C5 & C6).
    assert (Hc' : clustering cosineSimilarity all (clusters ++ [fst ca])
                             (snd ca)).
    { rewrite G1. cbn [app].
      assert (Hfresh : forall o, In o (memory :: added) ->
                                 ~ In (mem_id o) assigned).
      { intros o [<-|Ho]; [exact Hnew|].
        destruct (G4 o Ho) as (_ & B & _). intro H. apply B.
        apply set_add_In. now right. }
      split; [|split; [|split; [|split; [|split]]]].
      - intro x. rewrite G2, set_add_In, concat_app, map_app, in_app_iff.
        simpl. rewrite app_nil_r, <- C1. simpl.
        split; [intros [[->|H]|H]|intros [H|[<-|H]]]; tauto.
      - rewrite concat_app, map_app. simpl. rewrite app_nil_r.
        apply NoDup_app; [exact C2| |].
        + simpl. constructor; [|exact G3]. intro Hin.
          apply in_map_iff in Hin. destruct Hin as (o & Heq & Ho).
          destruct (G4 o Ho) as (_ & B & _). apply B. apply set_add_In.
          now left.
        + intros x Hx Hx'. apply C1 in Hx.
          change (In x (map mem_id (memory :: added))) in Hx'.
          apply in_map_iff in Hx'. destruct Hx' as (o & <- & Ho).
          exact (Hfresh o Ho Hx).
      - apply Forall_app. split; [exact C3|]. constructor; [|constructor].
        exists memory, added. split; [reflexivity|].
        intros o Ho. now destruct (G4 o Ho) as (_ & _ & C).
      - intros m Hm. rewrite concat_app in Hm. simpl in Hm.
        rewrite app_nil_r in Hm. apply in_app_or in Hm.
        destruct Hm as [Hm|[<-|Hm]].
        + now apply C4.
        + apply Hincl. now left.
        + now destruct (G4 m Hm) as (A & _).
      - intros c seed Hin Hseed o Ho. apply in_app_or in Hin.
        destruct Hin as [Hin|[<-|[]]].
        + destruct (C5 c seed Hin Hseed o Ho) as [H|H]; [|now right].
          left. apply G2. left. apply set_add_In. now right.
        + simpl in Hseed. injection Hseed as <-. exact (G5 o Ho).
      - apply greedy_snoc; [exact C6|].
        intros c0 seed Hin Hseed o Ho.
        assert (Hall : In o all).
        { destruct Ho as [<-|Ho]; [apply Hincl; now left|].
          now destruct (G4 o Ho) as (A & _). }
        destruct (C5 c0 seed Hin Hseed o Hall) as [H|H]; [|exact H].
        exfalso. exact (Hfresh o Ho H). }
    destruct (IH (clusters ++ [fst ca]) (snd ca) Hr Hc')
      as (a' & H1 & H2 & H3).
    exists a'. split; [exact H1|]. split.
    * intros x Hx. apply H2. apply G2. left. apply set_add_In. now right.
    * intros m [<-|Hm]; [|now apply H3].
      apply H2. apply G2. left. apply set_add_In. now left.
Qed.

Lemma clusterMemories_clustering (st : State) :
  exists assigned,
    clustering cosineSimilarity (map_values (memories st))
               (clusterMemories cosineSimilarity st) assigned.
Proof.
unfold clusterMemories. set (all := map_values (memories st)).
assert (H0 : clustering cosineSimilarity all [] []).
{ unfold clustering. simpl. repeat split; try tauto; try constructor.
  intros l1 c l2 seed Heq. now destruct l1. }
destruct (@cluster_loop_spec all all [] [] (incl_refl all) H0)
  as (a' & Hc & _). now exists a'.
Qed.

(** X18.  [clusterMemories] sorts the records into clusters: every stored
    record is in one cluster and in one only, a cluster is its seed followed
    by the records whose embedding is similar to the seed's beyond 0.8, and
    no record of a later cluster is that similar to the seed of an earlier
    one. *)
Theorem X18_clusters_partition_the_records (st : State) :
  keyed st -> unique st ->
  Permutation (concat (clusterMemories cosineSimilarity st)) (export st)
  /\ Forall (seeded cosineSimilarity) (clusterMemories cosineSimilarity st)
  /\ greedy cosineSimilarity (clusterMemories cosineSimilarity st).
Proof.
intros Hk Hu. unfold clusterMemories, export.
set (all := map_values (memories st)).
assert (Hids : NoDup (map mem_id all)).
{ unfold all, map_values. rewrite map_map, keyed_ids by exact Hk. exact Hu. }
assert (H0 : clustering cosineSimilarity all [] []).
{ unfold clustering. simpl. repeat split; try tauto; try constructor.
  intros l1 c l2 seed Heq. now destruct l1. }
destruct (@cluster_loop_spec all all [] [] (incl_refl all) H0)
  as (a' & (C1 & C2 & C3 & C4 & C5 & C6) & _ & Hdone).
split; [|split; [exact C3|exact C6]].
apply NoDup_Permutation.
- exact (NoDup_map_inv _ _ C2).
- exact (NoDup_map_inv _ _ Hids).
- intro m. split; [apply C4|].
  intro Hm. pose proof (Hdone m Hm) as Hin. apply C1 in Hin.
  apply in_map_iff in Hin. destruct Hin as (m' & Heq & Hm').
  assert (m' = m); [|now subst].
  pose proof (C4 m' Hm') as Hall.
  clear -Hids Heq Hall Hm. induction all as [|x r IH]; [destruct Hm|].
  simpl in Hids. inversion Hids as [|? ? Hx Hr]; subst.
  destruct Hm as [->|Hm], Hall as [->|Hall]; try reflexivity.
  + exfalso. apply Hx. rewrite <- Heq. now apply in_map.
  + exfalso. apply Hx. rewrite Heq. now apply in_map.
  + now apply IH.
Qed.

End Clusters.

End MemoryOpsFacts.

(** ** The hash of a word *)

Section HashFacts.
Import MemoryOps.
Local Open Scope Z_scope.

Lemma toInt32_range (z : Z) : - 2 ^ 31 <= toInt32 z < 2 ^ 31.
Proof.
unfold toInt32.
pose proof (Z.mod_pos_bound (z + 2 ^ 31) (2 ^ 32) eq_refl). lia.
Qed.

Lemma toInt32_mod (z : Z) : toInt32 z mod 2 ^ 32 = z mod 2 ^ 32.
Proof.
unfold toInt32. rewrite Zminus_mod_idemp_l. f_equal. lia.
Qed.

Lemma toInt32_eq_mod (a b : Z) :
  a mod 2 ^ 32 = b mod 2 ^ 32 -> toInt32 a = toInt32 b.
Proof.
intro H. unfold toInt32. f_equal.
rewrite (Zplus_mod a), (Zplus_mod b), H. reflexivity.
Qed.

(** One turn of the loop multiplies by 31 and adds the code unit, in 32-bit
    arithmetic. *)
Lemma hashStep_31 (hash char : Z) :
  hashStep hash char = toInt32 (31 * hash + char).
Proof.
unfold hashStep. cbv zeta. rewrite Z.land_diag.
apply toInt32_eq_mod.
rewrite Z.shiftl_mul_pow2 by lia.
rewrite <- Zplus_mod_idemp_l, <- Zminus_mod_idemp_l, toInt32_mod.
rewrite <- Zmult_mod_idemp_l, toInt32_mod, Zmult_mod_idemp_l.
rewrite Zminus_mod_idemp_l, Zplus_mod_idemp_l. f_equal. lia.
Qed.

Lemma poly31_mod (str : list Z) (a b : Z) :
  a mod 2 ^ 32 = b mod 2 ^ 32 ->
  poly31 a str mod 2 ^ 32 = poly31 b str mod 2 ^ 32.
Proof.
revert a b. induction str as [|c r IH]; intros a b H; [exact H|].
simpl. apply IH.
rewrite <- (Zplus_mod_idemp_l (31 * a)), <- (Zplus_mod_idemp_l (31 * b)).
rewrite <- (Zmult_mod_idemp_r a), <- (Zmult_mod_idemp_r b), H. reflexivity.
Qed.

Lemma hash_loop_31 (str : list Z) (a : Z) :
  toInt32 a = a -> fold_left hashStep str a = toInt32 (poly31 a str).
Proof.
revert a. induction str as [|c r IH]; intros a Ha; [simpl; congruence|].
simpl. rewrite IH.
- apply toInt32_eq_mod, poly31_mod. rewrite hashStep_31. apply toInt32_mod.
- rewrite hashStep_31. apply toInt32_eq_mod, toInt32_mod.
Qed.

(** X19.  [hashString] is the absolute value of the polynomial hash with
    base 31 in 32-bit arithmetic.  It is never negative, so that the index
    [hash % 256] lies within the 256 entries of an embedding; it can be
    2^31, which is no 32-bit integer. *)
Theorem X19_hashString_is_the_polynomial_hash (str : list Z) :
  hashString str = Z.abs (toInt32 (poly31 0 str))
  /\ 0 <= hashString str <= 2 ^ 31
  /\ 0 <= hashString str mod 256 < 256
  /\ hashString (codes "polygenelubricants") = 2 ^ 31.
Proof.
assert (H : hashString str = Z.abs (toInt32 (poly31 0 str))).
{ unfold hashString. now rewrite hash_loop_31. }
split; [exact H|]. split; [|split].
- rewrite H. pose proof (toInt32_range (poly31 0 str)). lia.
- apply Z.mod_pos_bound. lia.
- vm_compute. reflexivity.
Qed.

End HashFacts.

(** ** A flush in which handlers throw *)

Section NetworkFlushFacts.
Import JS Network NetworkSpec NetworkFlush.
Variable World : Type.
Variable receiveMessage :
  World -> string -> AgentMessage -> World * Reaction.

Local Abbreviation made := (upToThrow receiveMessage).
Local Abbreviation replies := (repliesAlong receiveMessage).

Lemma upToThrow_app (ds ds' : list Delivery) (w : World) :
  made (ds ++ ds') w
  = if snd (made ds w) then made ds w
    else (fst (made ds w) ++ fst (made ds' (fst (replies ds w))),
          snd (made ds' (fst (replies ds w)))).
Proof.
revert w. induction ds as [|d r IH]; intro w; simpl.
- now destruct (made ds' w).
- destruct (receiveMessage w (fst d) (snd d)) as [w0 re].
  destruct (throws re); [reflexivity|]. rewrite IH.
  destruct (made r w0) as [m1 t1]. simpl.
  destruct t1; simpl.
  + reflexivity.
  + now destruct (replies r w0).
Qed.

(** As long as no handler throws, what was made is what was to be made. *)
Lemma upToThrow_all (ds : list Delivery) (w : World) :
  snd (made ds w) = false -> fst (made ds w) = ds.
Proof.
revert w. induction ds as [|d r IH]; intro w; simpl; [reflexivity|].
destruct (receiveMessage w (fst d) (snd d)) as [w0 re].
destruct (throws re); [discriminate|].
specialize (IH w0). destruct (made r w0) as [m1 t1]. simpl in *.
intro H. now rewrite IH.
Qed.

Lemma upToThrow_prefix (ds : list Delivery) (w : World) :
  exists dropped, ds = fst (made ds w) ++ dropped.
Proof.
revert w. induction ds as [|d r IH]; intro w; simpl.
- now exists [].
- destruct (receiveMessage w (fst d) (snd d)) as [w0 re].
  destruct (throws re); [now exists r|].
  destruct (IH w0) as [dropped H]. destruct (made r w0) as [m1 t1].
  exists dropped. simpl in *. now rewrite <- H.
Qed.

Section WhileFlushing.
Variable nested : World -> State -> option (Run World).
Hypothesis nested_blocked :
  forall w st, isProcessing st = true -> nested w st = Some (w, st, []).

Lemma deliverAll_upToThrow (ds : list Delivery) (w : World) (st : State) :
  isProcessing st = true ->
  deliverAll receiveMessage nested ds w st
  = Some (fst (replies (fst (made ds w)) w),
          enqueued (snd (replies (fst (made ds w)) w)) st,
          fst (made ds w), snd (made ds w)).
Proof.
revert w st. induction ds as [|d r IH]; intros w st H; simpl.
- now rewrite enqueued_nil.
- destruct (receiveMessage w (fst d) (snd d)) as [w0 re] eqn:Er.
  rewrite (@runBroadcasts_blocked World nested nested_blocked) by exact H.
  destruct (throws re) eqn:Et.
  + simpl. rewrite Er. simpl. now rewrite app_nil_r.
  + rewrite (IH w0 (enqueued (broadcasts re) st)) by exact H.
    destruct (made r w0) as [m1 t1]. simpl. rewrite Er.
    destruct (replies m1 w0) as [w2 ms]. simpl.
    now rewrite enqueued_app.
Qed.

Lemma dispatchLoop_upToThrow (msgs : list AgentMessage) (w : World)
      (st : State) :
  isProcessing st = true ->
  dispatchLoop receiveMessage nested msgs w st
  = Some (fst (replies (fst (made (flat_map (fanout st) msgs) w)) w),
          enqueued (snd (replies (fst (made (flat_map (fanout st) msgs) w))
                                 w)) st,
          fst (made (flat_map (fanout st) msgs) w),
          snd (made (flat_map (fanout st) msgs) w)).
Proof.
revert w st. induction msgs as [|m r IH]; intros w st H; simpl.
- now rewrite enqueued_nil.
- rewrite deliverAll_upToThrow by exact H.
  rewrite upToThrow_app.
  destruct (snd (made (fanout st m) w)) eqn:Et;
    [rewrite ?Et; reflexivity|].
  rewrite (IH _ (enqueued (snd (replies (fst (made (fanout st m) w)) w)) st))
    by exact H.
  rewrite (upToThrow_all _ _ Et). cbn [fst snd].
  rewrite enqueued_app, repliesAlong_app. reflexivity.
Qed.
End WhileFlushing.

(** X20.  A flush in which a handler throws: the deliveries planned for the
    messages queued at its start are made in order up to the one whose
    [receiveMessage] throws; the others are not made and their messages are
    gone from the queue, which holds the messages broadcast by the handlers
    that ran; the flush flag is released. *)
Theorem X20_flush_stops_at_the_first_throw (fuel : nat) (w : World)
        (st : State) :
  isProcessing st = false ->
  let deliveries := flat_map (fanout st) (sort byUrgency (messageQueue st)) in
  let done := fst (made deliveries w) in
  processMessageQueue receiveMessage (S (S fuel)) w st
  = Some (fst (replies done w),
          {| agents := agents st; messageQueue := snd (replies done w);
             isProcessing := false |},
          done)
  /\ (exists dropped, deliveries = done ++ dropped)
  /\ (snd (made deliveries w) = false -> done = deliveries).
Proof.
intros Hidle deliveries done. split; [|split].
- rewrite processMessageQueue_S, Hidle. cbn [orb].
  subst done deliveries.
  destruct (messageQueue st) as [|m q] eqn:Eq.
  + destruct st as [ags mq ip]. simpl in *. subst. reflexivity.
  + cbn [length Nat.eqb].
    rewrite (@dispatchLoop_upToThrow
               (processMessageQueue receiveMessage (S fuel))
               (processMessageQueue_blocked receiveMessage fuel))
      by reflexivity.
    reflexivity.
- apply upToThrow_prefix.
- apply upToThrow_all.
Qed.

End NetworkFlushFacts.

Section NetworkFlushScenarios.
Import JS Network NetworkSpec NetworkFlush.

(** Agent a2 throws on whatever it is given; the message for a1 is lost. *)
Lemma X20_flush_witness :
  processMessageQueue
    (fun (seen : nat) (agentId : string) (m : AgentMessage) =>
       (S seen, {| broadcasts := []; throws := String.eqb agentId "a2" |}))
    2 0%nat twoAgents
  = Some (1%nat,
          {| agents := agents twoAgents; messageQueue := [];
             isProcessing := false |},
          [("a2"%string, note "m2" "a1" "a2" "ping" u_critical)]).
Proof.
exact (proj1 (@X20_flush_stops_at_the_first_throw nat
                (fun (seen : nat) (agentId : string) (m : AgentMessage) =>
                   (S seen, {| broadcasts := [];
                               throws := String.eqb agentId "a2" |}))
                0 0%nat twoAgents eq_refl)).
Defined.

End NetworkFlushScenarios.

(** ** [memoize] *)

Section MemoizeFacts.
Import JS ResultCache Memoize.
Variables A T : Type.
Variable fn : A -> T.
Variable stringify : A -> string.

Local Abbreviation call := (memoized fn stringify).

(** X21.  A memoized function computes a value once per lifetime of its
    entry: after a call that had to compute, a call with the same arguments
    returns the value computed then, without calling the function, as long
    as no more than [ttl] milliseconds have passed when [get] reads the
    clock; so when it is the next call, and so after lookups and insertions
    for other arguments as long as the cache has not filled up (a full cache
    drops an entry to take the next one).  When the entry is still alive for
    [has] and expired for [get], the call returns [undefined] and the
    function is not called either. *)
Theorem X21_memoized_function_computes_once (args : A)
        (t0 t0' t0s t1 t1' t1s : Z) (st : State T)
        (between : list (Op T)) :
  snd (fst (call args t0 t0' t0s st)) = true ->
  (t1 <= t1')%Z ->
  let st1 := snd (call args t0 t0' t0s st) in
  (forall op, In op between -> besides (stringify args) op = true) ->
  (between = []
   \/ (map_size (cache st1) + Z.of_nat (length between)
       <= maxSize (options st))%Z) ->
  let st2 := run between st1 in
  fst (fst (call args t0 t0' t0s st)) = Some (fn args)
  /\ ((t1' - t0s <= ttl (options st))%Z ->
      fst (call args t1 t1' t1s st2) = (Some (fn args), false))
  /\ ((t1 - t0s <= ttl (options st))%Z ->
      (ttl (options st) < t1' - t0s)%Z ->
      fst (call args t1 t1' t1s st2) = (None, false))
  /\ ((ttl (options st) < t1 - t0s)%Z ->
      fst (call args t1 t1' t1s st2) = (Some (fn args), true)).
Proof.
intros Hfirst Hle st1 Hother Hroom st2.
assert (Hst1 : fst (fst (call args t0 t0' t0s st)) = Some (fn args)
               /\ options st1 = options st
               /\ map_get (stringify args) (cache st1)
                  = Some {| value := fn args; timestamp := t0s;
                            accessCount := 0; lastAccessed := t0s |}).
{ subst st1. clear st2 Hroom. revert Hfirst. unfold memoized. cbv zeta.
  destruct (has (stringify args) t0 st) as [[|] s0] eqn:Eh.
  { destruct (get (stringify args) t0' s0). simpl. discriminate. }
  intros _. cbn [fst snd].
  assert (Ho : options s0 = options st).
  { rewrite <- (has_options (stringify args) t0 st). now rewrite Eh. }
  split; [reflexivity|]. split; [now rewrite set_options|].
  apply set_lookup. }
destruct Hst1 as (Hval & Ho1 & Hl1).
assert (Hl2 : map_get (stringify args) (cache st2)
              = Some {| value := fn args; timestamp := t0s;
                        accessCount := 0; lastAccessed := t0s |}).
{ rewrite <- Hl1. apply run_keeps; [exact Hother|].
  destruct Hroom as [Hnil|Hroom]; [now left|right]. now rewrite Ho1. }
assert (Ho2 : options st2 = options st).
{ rewrite <- Ho1. apply run_options. }
split; [exact Hval|]. unfold memoized. cbv zeta. split; [|split].
- intro Hfresh. unfold has, get. rewrite Hl2. unfold isExpired. rewrite Ho2.
  cbn [timestamp].
  assert (E1 : (ttl (options st) <? t1 - t0s)%Z = false)
    by (apply Z.ltb_ge; lia).
  rewrite E1, Hl2. cbn [timestamp].
  assert (E2 : (ttl (options st) <? t1' - t0s)%Z = false)
    by (apply Z.ltb_ge; lia).
  rewrite Ho2, E2. reflexivity.
- intros Hhas Hget. unfold has, get. rewrite Hl2. unfold isExpired.
  rewrite Ho2. cbn [timestamp].
  assert (E1 : (ttl (options st) <? t1 - t0s)%Z = false)
    by (apply Z.ltb_ge; lia).
  rewrite E1, Hl2. cbn [timestamp].
  assert (E2 : (ttl (options st) <? t1' - t0s)%Z = true)
    by (apply Z.ltb_lt; lia).
  rewrite Ho2, E2. reflexivity.
- intro Hold. unfold has. rewrite Hl2. unfold isExpired. rewrite Ho2.
  cbn [timestamp].
  assert (E1 : (ttl (options st) <? t1 - t0s)%Z = true)
    by (apply Z.ltb_lt; lia).
  rewrite E1. reflexivity.
Qed.

End MemoizeFacts.

Section MemoizeScenarios.
Import JS ResultCache Memoize.

Lemma X21_memoize_witness :
  fst (memoized Z.succ (fun n => NilEmpty.string_of_int (Z.to_int n)) 4%Z
                5 6 7
                (run [OpHas Z "9" 1; OpSet "9" 10%Z 1]
                     (snd (memoized Z.succ
                             (fun n => NilEmpty.string_of_int (Z.to_int n))
                             4%Z 0 0 0
                             (new Z {| ttl := 10; maxSize := 3 |})))))
  = (Some 5%Z, false).
Proof.
refine (proj1 (proj2 (@X21_memoized_function_computes_once Z Z Z.succ
                        (fun n => NilEmpty.string_of_int (Z.to_int n)) 4%Z
                        0 0 0 5 6 7 (new Z {| ttl := 10; maxSize := 3 |})
                        [OpHas Z "9" 1; OpSet "9" 10%Z 1]
                        eq_refl _ _ _)) _).
- lia.
- intros op [<-|[<-|[]]]; reflexivity.
- right. vm_compute. discriminate.
- simpl. lia.
Defined.

End MemoizeScenarios.

(** ** The engines [initialize] creates *)

Section InitializeFacts.
Import JS Inference InferenceRuns.

Lemma engineName_inj (i j : nat) : engineName i = engineName j -> i = j.
Proof.
unfold engineName. simpl. intros [= H].
apply Unsigned.to_uint_inj.
pose proof (NilEmpty.usu (Nat.to_uint i)) as Hi.
rewrite H, NilEmpty.usu in Hi. now injection Hi.
Qed.

Lemma engineNames_NoDup (l : list nat) :
  NoDup l -> NoDup (map engineName l).
Proof.
induction 1 as [|i r Hi Hr IH]; simpl; constructor; [|exact IH].
intro Hin. apply in_map_iff in Hin. destruct Hin as (j & Hj & Hjr).
apply engineName_inj in Hj. now subst.
Qed.

Lemma addEngines_names (modelPath : string) (now : Z) (l : list nat)
      (st : State) :
  NoDup (map_keys (engines st) ++ map engineName l) ->
  map_keys (engineStatus st) = map_keys (engines st) ->
  let st' := fold_left (fun s i => addEngine modelPath now i s) l st in
  map_keys (engines st') = map_keys (engines st) ++ map engineName l
  /\ map_keys (engineStatus st') = map_keys (engines st) ++ map engineName l
  /\ forall id s, In (id, s) (engineStatus st') ->
       In (id, s) (engineStatus st)
       \/ s = {| es_id := id; modelName := modelPath; status := idle;
                 currentJob := None; processedJobs := 0;
                 averageLatency := 0; lastActive := now |}.
Proof.
revert st. induction l as [|i r IH]; intros st Hnd Hk; cbv zeta.
- simpl. rewrite app_nil_r. repeat split; try assumption. tauto.
- assert (Hfresh : ~ In (engineName i) (map_keys (engines st))).
  { apply NoDup_remove_2 in Hnd. intro H. apply Hnd. apply in_or_app.
    now left. }
  cbn [fold_left map].
  destruct (IH (addEngine modelPath now i st)) as (H1 & H2 & H3).
  + cbn [engines addEngine]. rewrite map_set_fresh by exact Hfresh.
    unfold map_keys. rewrite map_app. simpl. rewrite <- app_assoc. exact Hnd.
  + cbn [engines engineStatus addEngine].
    apply map_set_keys_alike. exact Hk.
  + cbv zeta in *. cbn [engines engineStatus addEngine] in *.
    rewrite map_set_fresh in H1, H2 by exact Hfresh.
    unfold map_keys in H1, H2. rewrite map_app, <- app_assoc in H1, H2.
    split; [exact H1|]. split; [exact H2|].
    intros id s Hin. destruct (H3 id s Hin) as [H|H]; [|now right].
    apply map_set_In in H. destruct H as [[= -> ->]|H]; [now right|now left].
Qed.

(** X22.  [initialize] on a new coordinator creates the engines
    [engine_0], [engine_1], ... up to the smaller of [engineCount] and
    [maxEngines], none when that is not positive; their names are distinct,
    each is recorded as idle with no job processed, and the coordinator is
    running. *)
Theorem X22_initialize_creates_the_engines (cfg : CoordinatorConfig)
        (modelPath : string) (engineCount now : Z) :
  let st := initialize modelPath engineCount now (new cfg) in
  let n := Z.to_nat (Z.min engineCount (maxEngines cfg)) in
  map_keys (engines st) = map engineName (seq 0 n)
  /\ map_keys (engineStatus st) = map engineName (seq 0 n)
  /\ NoDup (map engineName (seq 0 n))
  /\ map_size (engines st) = Z.max 0 (Z.min engineCount (maxEngines cfg))
  /\ (forall id s, In (id, s) (engineStatus st) ->
        es_id s = id /\ modelName s = modelPath /\ status s = idle
        /\ currentJob s = None /\ processedJobs s = 0%Z
        /\ averageLatency s = 0)
  /\ isRunning st = true /\ jobQueue st = [] /\ config st = cfg.
Proof.
intros st n.
assert (Hnd : NoDup (map engineName (seq 0 n)))
  by (apply engineNames_NoDup, seq_NoDup).
destruct (@addEngines_names modelPath now (seq 0 n) (new cfg) Hnd eq_refl)
  as (H1 & H2 & H3).
destruct (addEngines_keeps modelPath now (seq 0 n) (new cfg))
  as (K1 & K2 & _). cbv zeta in *.
split; [exact H1|]. split; [exact H2|]. split; [exact Hnd|]. split.
- unfold map_size.
  replace (length (engines st)) with (length (map_keys (engines st)))
    by apply length_map.
  unfold st, initialize. cbn [engines config new].
  fold n. rewrite H1. simpl. rewrite length_map, length_seq.
  unfold n. lia.
- split; [|split; [reflexivity|split; [exact K2|exact K1]]].
  intros id s Hin. destruct (H3 id s Hin) as [[]|H]. subst s. repeat split.
Qed.

End InitializeFacts.

(** ** [keywordSimilarity] *)

Section KeywordFacts.
Import JS Keywords.
Variable words : string -> list string.

Lemma setOf_loop_In (l : list string) (s : Set_) (x : string) :
  In x (fold_left (fun s x => set_add x s) l s) <-> In x s \/ In x l.
Proof.
revert s. induction l as [|y r IH]; intro s; simpl; [tauto|].
rewrite IH, set_add_In. split; [intros [[->|H]|H]|intros [H|[<-|H]]]; tauto.
Qed.

Lemma setOf_In (l : list string) (x : string) : In x (setOf l) <-> In x l.
Proof. unfold setOf. rewrite setOf_loop_In. simpl. tauto. Qed.

Lemma setOf_nonempty (l : list string) : l <> [] -> setOf l <> [].
Proof.
destruct l as [|x r]; [congruence|]. intros _ H.
assert (Hin : In x (setOf (x :: r))) by (apply setOf_In; now left).
rewrite H in Hin. destruct Hin.
Qed.

Lemma matches_loop (qs cs : Set_) (n : Z) :
  fold_left (fun n word => if set_has word cs then (n + 1)%Z else n) qs n
  = (n + Z.of_nat (length (filter (fun w => set_has w cs) qs)))%Z.
Proof.
revert n. induction qs as [|q r IH]; intro n; simpl; [lia|].
rewrite IH. destruct (set_has q cs); simpl length; lia.
Qed.

Lemma matches_count (qs cs : Set_) :
  matches qs cs = Z.of_nat (length (filter (fun w => set_has w cs) qs)).
Proof. unfold matches. now rewrite matches_loop. Qed.

Lemma filter_length_all (A : Type) (g : A -> bool) (l : list A) :
  length (filter g l) = length l -> forall x, In x l -> g x = true.
Proof.
induction l as [|y r IH]; simpl; [tauto|].
pose proof (filter_length_le g r) as Hle.
destruct (g y) eqn:E; simpl; intros H x [<-|Hx]; try lia; auto.
Qed.

Lemma filter_length_none (A : Type) (g : A -> bool) (l : list A) :
  length (filter g l) = 0%nat -> forall x, In x l -> g x = false.
Proof.
induction l as [|y r IH]; simpl; [tauto|].
destruct (g y) eqn:E; simpl; intros H x [<-|Hx]; try lia; auto.
Qed.

Lemma ratio_bounds (m n : Z) :
  (0 <= m <= n)%Z -> (0 < n)%Z ->
  0 <= inject_Z m / inject_Z n <= 1
  /\ (inject_Z m / inject_Z n == 1 <-> m = n)
  /\ (inject_Z m / inject_Z n == 0 <-> m = 0%Z).
Proof.
intros Hm Hn.
assert (Hpos : 0 < inject_Z n) by (unfold Qlt; simpl; lia).
assert (Hnz : ~ inject_Z n == 0) by (intro H; rewrite H in Hpos; discriminate).
split; [split|split].
- apply Qle_shift_div_l; [exact Hpos|]. rewrite Qmult_0_l.
  unfold Qle. simpl. lia.
- apply Qle_shift_div_r; [exact Hpos|]. rewrite Qmult_1_l.
  unfold Qle. simpl. lia.
- split.
  + intro H. assert (H' : inject_Z n * (inject_Z m / inject_Z n)
                          == inject_Z n * 1) by now rewrite H.
    rewrite Qmult_div_r, Qmult_1_r in H' by exact Hnz.
    unfold Qeq in H'. simpl in H'. lia.
  + intros ->. unfold Qdiv. now apply Qmult_inv_r.
- split.
  + intro H. assert (H' : inject_Z n * (inject_Z m / inject_Z n)
                          == inject_Z n * 0) by now rewrite H.
    rewrite Qmult_div_r, Qmult_0_r in H' by exact Hnz.
    unfold Qeq in H'. simpl in H'. lia.
  + intros ->. unfold Qdiv. now rewrite Qmult_0_l.
Qed.

(** X23.  The keyword similarity is the share of the distinct words of the
    query that occur in the content: it lies between 0 and 1, it is 1
    exactly when every word of the query occurs in the content and 0
    exactly when none does. *)
Theorem X23_keyword_similarity_is_a_share (query content : string) :
  words query <> [] ->
  0 <= keywordSimilarity words query content <= 1
  /\ (keywordSimilarity words query content == 1 <->
      forall w, In w (words query) -> In w (words content))
  /\ (keywordSimilarity words query content == 0 <->
      forall w, In w (words query) -> ~ In w (words content)).
Proof.
intro Hne. unfold keywordSimilarity. cbv zeta.
set (qs := setOf (words query)). set (cs := setOf (words content)).
rewrite matches_count.
set (hits := filter (fun w => set_has w cs) qs).
assert (Hqs : qs <> []) by now apply setOf_nonempty.
assert (Hle : (length hits <= length qs)%nat) by apply filter_length_le.
assert (Hn : (0 < Z.of_nat (length qs))%Z).
{ destruct qs; [congruence|simpl length; lia]. }
destruct (@ratio_bounds (Z.of_nat (length hits)) (Z.of_nat (length qs)))
  as (Hb & H1 & H0); [lia|exact Hn|].
split; [exact Hb|]. split.
- rewrite H1. split.
  + intros Hall w Hw. apply Nat2Z.inj in Hall.
    apply setOf_In. apply set_has_In.
    apply (filter_length_all _ _ Hall). now apply setOf_In.
  + intro Hall. f_equal. unfold hits.
    rewrite filter_all; [reflexivity|].
    intros w Hw. apply set_has_In, setOf_In, Hall.
    exact (proj1 (setOf_In (words query) w) Hw).
- rewrite H0. split.
  + intros Hnone w Hw Hc.
    assert (Hl : length hits = 0%nat) by lia.
    assert (Hf : set_has w cs = false).
    { apply (filter_length_none _ _ Hl).
      exact (proj2 (setOf_In (words query) w) Hw). }
    assert (Ht : set_has w cs = true).
    { apply set_has_In. exact (proj2 (setOf_In (words content) w) Hc). }
    congruence.
  + intro Hnone. unfold hits. rewrite filter_none; [reflexivity|].
    intros w Hw. destruct (set_has w cs) eqn:E; [|reflexivity].
    exfalso. apply set_has_In in E.
    apply (Hnone w);
      [exact (proj1 (setOf_In (words query) w) Hw)
      |exact (proj1 (setOf_In (words content) w) E)].
Qed.

End KeywordFacts.

Section KeywordScenarios.
Import JS Keywords.

Lemma X23_keyword_witness :
  0 <= keywordSimilarity (fun s : string => [s]) "alpha" "beta" <= 1.
Proof.
refine (proj1 (@X23_keyword_similarity_is_a_share (fun s : string => [s])
                 "alpha" "beta" _)).
discriminate.
Defined.

End KeywordScenarios.

(** ** [consolidate] *)

Section ConsolidationFacts.
Import JS MemoryManager MemorySpec MemoryOps Consolidation.
Variable generateEmbedding : string -> list Q.
Variable cosineSimilarity : list Q -> list Q -> Q.
Variable fresh : nat -> string * Z * Z.

Local Abbreviation step := (consolidateStep generateEmbedding fresh).
Local Abbreviation keeps := (consolidating fresh).

Lemma filter_twice (A : Type) (f g : A -> bool) (l : list A) :
  filter f (filter g l) = filter (fun x => g x && f x) l.
Proof.
induction l as [|x r IH]; simpl; [reflexivity|].
destruct (g x); simpl; [destruct (f x)|]; now rewrite IH.
Qed.

Lemma deleteAll_memories (cluster : list Memory) (st : State) :
  memories (deleteAll cluster st)
  = filter (survives (map mem_id cluster)) (memories st).
Proof.
unfold deleteAll. revert st.
induction cluster as [|m r IH]; intro st; simpl.
- symmetry. now apply filter_all.
- rewrite IH. simpl. unfold map_delete.
  rewrite filter_twice. apply filter_ext. intro e.
  now rewrite survives_cons.
Qed.

Lemma deleteAll_config (cluster : list Memory) (st : State) :
  config (deleteAll cluster st) = config st.
Proof.
unfold deleteAll. revert st.
induction cluster as [|m r IH]; intro st; simpl; [reflexivity|].
now rewrite IH.
Qed.

Lemma map_delete_one (V : Type) (k : string) (m : Map V) :
  NoDup (map_keys m) -> In k (map_keys m) ->
  length m = S (length (map_delete k m)).
Proof.
unfold map_delete.
induction m as [|[k' v'] r IH]; simpl; [tauto|]. intros Hnd Hin.
inversion Hnd as [|? ? Hk' Hr]; subst.
destruct (String.eqb_spec k k') as [->|Hne]; simpl.
- f_equal. symmetry. f_equal. apply (map_delete_fresh k' r Hk').
- f_equal. apply IH; [exact Hr|]. destruct Hin as [H|H]; [congruence|exact H].
Qed.

(** Deleting distinct keys that are there takes as many entries away. *)
Lemma survivors_length (ids : list string) (ms : Map Memory) :
  NoDup ids -> NoDup (map_keys ms) ->
  (forall id, In id ids -> In id (map_keys ms)) ->
  (length (filter (survives ids) ms) + length ids = length ms)%nat.
Proof.
revert ms. induction ids as [|id r IH]; intros ms Hids Hnd Hin.
- simpl. rewrite filter_all by reflexivity. lia.
- inversion Hids as [|? ? Hid Hr]; subst.
  assert (E : filter (survives (id :: r)) ms
              = filter (survives r) (map_delete id ms)).
  { unfold map_delete. rewrite filter_twice. apply filter_ext.
    intro e. now rewrite survives_cons. }
  rewrite E.
  pose proof (map_delete_one id ms Hnd (Hin id (or_introl eq_refl))) as Hl.
  assert (Hrec : (length (filter (survives r) (map_delete id ms)) + length r
                  = length (map_delete id ms))%nat).
  { apply IH; [exact Hr|now apply NoDup_map_delete|].
    intros x Hx. apply map_delete_keys_In. split.
    - intros ->. exact (Hid Hx).
    - apply Hin. now right. }
  simpl length. lia.
Qed.

Lemma survives_In (ids : list string) (e : string * Memory) :
  survives ids e = true <-> ~ In (fst e) ids.
Proof.
unfold survives. rewrite negb_true_iff. split.
- intros H Hin. assert (Ht : existsb (fun id => String.eqb id (fst e)) ids
                             = true).
  { apply existsb_exists. exists (fst e). split; [exact Hin|].
    apply String.eqb_refl. }
  congruence.
- intro H. destruct (existsb _ ids) eqn:E; [|reflexivity].
  exfalso. apply existsb_exists in E. destruct E as (x & Hx & Heq).
  apply String.eqb_eq in Heq. subst. exact (H Hx).
Qed.

(** A cluster of fewer than three records is left alone. *)
Lemma step_small (acc : Z * nat * State) (cluster : list Memory) :
  (length cluster <= 2)%nat -> step acc cluster = acc.
Proof.
destruct cluster as [|a [|b [|c r]]]; simpl; try reflexivity. lia.
Qed.

Lemma step_large (acc : Z * nat * State) (first a b : Memory)
      (r : list Memory) (todo : list (list Memory)) (st0 : State) :
  (map_size (memories st0) <= maxMemories (config st0))%Z ->
  (forall k, ~ In (fst (fst (fresh k))) (map_keys (memories st0))) ->
  (forall j k, fst (fst (fresh j)) = fst (fst (fresh k)) -> j = k) ->
  keeps st0 acc ((first :: a :: b :: r) :: todo) ->
  keeps st0 (step acc (first :: a :: b :: r)) todo.
Proof.
intros Hcap Hnew Hinj (Hk & Hu & H0 & Hsize & Hcfg & Hin & Hkeys & Hnd).
destruct acc as [[count k] st]. cbn [fst snd] in *.
change (concat ((first :: a :: b :: r) :: todo))
  with ((first :: a :: b :: r) ++ concat todo) in Hnd.
rewrite map_app in Hnd.
unfold consolidating. cbn [consolidateStep fst snd].
set (cluster := first :: a :: b :: r) in *.
set (st1 := deleteAll cluster st).
destruct (fresh k) as [[id now] now'] eqn:Ef. cbn [fst snd].
set (merged := mergeMemories first (a :: b :: r)).
assert (Hids : NoDup (map mem_id cluster))
  by exact (NoDup_app_remove_r _ _ Hnd).
assert (Hm1 : memories st1
              = filter (survives (map mem_id cluster)) (memories st))
  by apply deleteAll_memories.
assert (Hl1 : (length (memories st1) + length cluster
               = length (memories st))%nat).
{ rewrite Hm1. rewrite <- (length_map mem_id cluster).
  apply survivors_length; [exact Hids|exact Hu|].
  intros x Hx. apply in_map_iff in Hx. destruct Hx as (m & <- & Hm).
  apply (Hin cluster m); [now left|exact Hm]. }
assert (Hlen : (3 <= length cluster)%nat) by (simpl; lia).
assert (Hc1 : config st1 = config st0).
{ unfold st1. now rewrite deleteAll_config. }
assert (Hroom : (maxMemories (config st1) <=? map_size (memories st1))%Z
                = false).
{ apply Z.leb_gt. rewrite Hc1. unfold map_size in *. lia. }
assert (Hk1 : keyed st1).
{ intros x m Hx. rewrite Hm1 in Hx. apply filter_In in Hx. now apply Hk. }
assert (Hu1 : unique st1).
{ unfold unique. rewrite Hm1. now apply NoDup_filter_keys. }
assert (Hfresh : ~ In id (map_keys (memories st1))).
{ intro Hx. rewrite Hm1 in Hx. unfold map_keys in Hx.
  apply in_map_iff in Hx. destruct Hx as (e & He & Hf).
  apply filter_In in Hf. destruct Hf as [Hf _].
  assert (Hkey : In id (map_keys (memories st)))
    by (rewrite <- He; now apply in_map).
  destruct (Hkeys id Hkey) as [Hold|(j & Hj & Hid)].
  - apply (Hnew k). now rewrite Ef.
  - assert (j = k) by (apply Hinj; rewrite Hid, Ef; reflexivity). lia. }
set (res := store generateEmbedding id now now' merged st1).
assert (Hm2 : memories (snd res) = map_set id (fst res) (memories st1)).
{ unfold res. rewrite store_memories, Hroom. reflexivity. }
fold merged. fold res.
split; [now apply store_keyed|]. split; [now apply store_unique|].
split; [lia|]. split; [|split; [|split; [|split]]].
- rewrite Hm2. unfold map_size in *.
  rewrite map_set_length_absent by exact Hfresh. lia.
- unfold res. now rewrite store_config.
- intros c m Hc Hm. rewrite Hm2. apply map_set_keys_In. right.
  rewrite Hm1.
  assert (Hkey : In (mem_id m) (map_keys (memories st)))
    by (apply (Hin c m); [now right|exact Hm]).
  unfold map_keys in *. apply in_map_iff in Hkey.
  destruct Hkey as (e & He & Hf). apply in_map_iff. exists e.
  split; [exact He|]. apply filter_In. split; [exact Hf|].
  apply survives_In. rewrite He. intro Hx.
  eapply NoDup_app_disjoint; [exact Hnd|exact Hx|].
  apply in_map. apply in_concat. exists c. split; assumption.
- intros x Hx. rewrite Hm2 in Hx. apply map_set_keys_In in Hx.
  destruct Hx as [->|Hx].
  + right. exists k. split; [lia|]. now rewrite Ef.
  + rewrite Hm1 in Hx. unfold map_keys in Hx. apply in_map_iff in Hx.
    destruct Hx as (e & He & Hf). apply filter_In in Hf.
    destruct Hf as [Hf _].
    assert (Hkey : In x (map_keys (memories st)))
      by (rewrite <- He; now apply in_map).
    destruct (Hkeys x Hkey) as [H|(j & Hj & Hid)]; [now left|].
    right. exists j. split; [lia|exact Hid].
- exact (NoDup_app_remove_l _ _ Hnd).
Qed.

Lemma consolidate_loop (st0 : State) (todo : list (list Memory))
      (acc : Z * nat * State) :
  (map_size (memories st0) <= maxMemories (config st0))%Z ->
  (forall k, ~ In (fst (fst (fresh k))) (map_keys (memories st0))) ->
  (forall j k, fst (fst (fresh j)) = fst (fst (fresh k)) -> j = k) ->
  keeps st0 acc todo -> keeps st0 (fold_left step todo acc) [].
Proof.
intros Hcap Hnew Hinj. revert acc.
induction todo as [|c r IH]; intros acc Hacc; [exact Hacc|].
simpl fold_left. apply IH.
assert (Hsmall : step acc c = acc -> keeps st0 (step acc c) r).
{ intros ->.
  destruct Hacc as (Hk & Hu & H0 & Hsize & Hcfg & Hin & Hkeys & Hnd).
  unfold consolidating. repeat (split; [assumption|]). split.
  - intros c' m Hc. apply Hin. now right.
  - split; [exact Hkeys|].
    change (concat (c :: r)) with (c ++ concat r) in Hnd.
    rewrite map_app in Hnd. exact (NoDup_app_remove_l _ _ Hnd). }
destruct c as [|first [|a [|b rest]]];
  [apply Hsmall; reflexivity..|exact (step_large Hcap Hnew Hinj Hacc)].
Qed.

Lemma fold_small (cs : list (list Memory)) (acc : Z * nat * State) :
  (forall c, In c cs -> (length c <= 2)%nat) -> fold_left step cs acc = acc.
Proof.
induction cs as [|c r IH]; intro H; [reflexivity|].
simpl fold_left. rewrite step_small by (apply H; now left).
apply IH. intros c' Hc'. apply H. now right.
Qed.

(** X24.  [consolidate] merges clusters of three records or more.  A store
    none of whose records has an embedding is left as it is, with 0
    returned.  In a store within its capacity, with every record under its
    own identifier and new identifiers generated, the number returned is
    the number of records the store has lost, as each cluster merged gives
    way to one record and nothing is evicted. *)
Theorem X24_consolidate_counts_the_records_merged (st : State) :
  ((forall m, In m (export st) -> embedding m = None) ->
   consolidate generateEmbedding cosineSimilarity fresh st = (0%Z, st))
  /\ (keyed st -> unique st ->
      (map_size (memories st) <= maxMemories (config st))%Z ->
      (forall k, ~ In (fst (fst (fresh k))) (map_keys (memories st))) ->
      (forall j k, fst (fst (fresh j)) = fst (fst (fresh k)) -> j = k) ->
      let n := fst (consolidate generateEmbedding cosineSimilarity fresh st) in
      let st' := snd (consolidate generateEmbedding cosineSimilarity fresh
                                  st) in
      (0 <= n)%Z
      /\ map_size (memories st') = (map_size (memories st) - n)%Z
      /\ keyed st' /\ unique st' /\ config st' = config st).
Proof.
destruct (clusterMemories_clustering cosineSimilarity st)
  as (assigned & C1 & C2 & C3 & C4 & C5 & C6).
split.
- intro Hnone. unfold consolidate. cbv zeta. rewrite fold_small; [reflexivity|].
  intros c Hc. rewrite Forall_forall in C3.
  destruct (C3 c Hc) as (seed & rest & -> & Hrest).
  destruct rest as [|o rest']; [simpl; lia|]. exfalso.
  destruct (Hrest o (or_introl eq_refl)) as (a & b & Ha & _).
  rewrite Hnone in Ha; [discriminate|].
  apply C4. apply in_concat. exists (seed :: o :: rest').
  split; [exact Hc|now left].
- intros Hk Hu Hcap Hnew Hinj n st'. subst n st'.
  unfold consolidate. cbv zeta. cbn [fst snd].
  assert (Hstart : keeps st (0%Z, 0%nat, st)
                         (clusterMemories cosineSimilarity st)).
  { unfold consolidating. cbn [fst snd].
    split; [exact Hk|]. split; [exact Hu|]. split; [lia|].
    split; [lia|]. split; [reflexivity|]. split; [|split; [tauto|exact C2]].
    intros c m Hc Hm.
    assert (Hall : In m (map_values (memories st))).
    { apply C4. apply in_concat. exists c. split; assumption. }
    unfold map_values in Hall. apply in_map_iff in Hall.
    destruct Hall as ([key m'] & Heq & Hin). simpl in Heq. subst m'.
    rewrite (Hk key m Hin). exact (map_In_keys _ _ _ Hin). }
  destruct (consolidate_loop Hcap Hnew Hinj Hstart)
    as (K1 & K2 & K3 & K4 & K5 & _).
  repeat split; assumption.
Qed.

End ConsolidationFacts.

Section ConsolidationScenarios.
Import JS MemoryManager MemorySpec MemoryOps Consolidation.

Lemma mergedId_inj (j k : nat) :
  fst (fst (mergedId j)) = fst (fst (mergedId k)) -> j = k.
Proof.
unfold mergedId. simpl. intros [= H].
apply Unsigned.to_uint_inj.
pose proof (NilEmpty.usu (Nat.to_uint j)) as Hj.
rewrite H, NilEmpty.usu in Hj. now injection Hj.
Qed.

(** The three records are merged into one: two records fewer. *)
Lemma X24_consolidate_witness :
  consolidate noEmbedding alwaysAlike mergedId threeAlike
  = (2%Z, snd (consolidate noEmbedding alwaysAlike mergedId threeAlike))
  /\ map_size (memories (snd (consolidate noEmbedding alwaysAlike mergedId
                                          threeAlike)))
     = (map_size (memories threeAlike)
        - fst (consolidate noEmbedding alwaysAlike mergedId threeAlike))%Z.
Proof.
split; [reflexivity|].
refine (proj1 (proj2 (proj2 (@X24_consolidate_counts_the_records_merged
                               noEmbedding alwaysAlike mergedId threeAlike)
                            _ _ _ _ mergedId_inj))).
- intros k m [[= <- <-]|[[= <- <-]|[[= <- <-]|[]]]]; reflexivity.
- unfold unique. vm_compute. repeat constructor; simpl; intuition discriminate.
- vm_compute. discriminate.
- intros k [H|[H|[H|[]]]]; discriminate.
Defined.

End ConsolidationScenarios.

Section MemoryOpsScenarios.
Import JS MemoryManager MemorySpec MemoryOps.

Lemma twoRecords_keyed :
  keyed (import [fresh; older] (new {| enabled := true; maxMemories := 10 |})).
Proof. intros k m [[= <- <-]|[[= <- <-]|[]]]; reflexivity. Qed.

Lemma twoRecords_unique :
  unique (import [fresh; older] (new {| enabled := true; maxMemories := 10 |})).
Proof.
unfold unique. vm_compute. repeat constructor; simpl; intuition discriminate.
Qed.

Lemma X15_round_trip_witness :
  memories
    (import
       (export (import [fresh; older]
                       (new {| enabled := true; maxMemories := 10 |})))
       (new {| enabled := false; maxMemories := 5 |}))
  = memories (import [fresh; older]
                     (new {| enabled := true; maxMemories := 10 |})).
Proof.
exact (proj1 (X15_export_import_round_trip
                {| enabled := false; maxMemories := 5 |}
                twoRecords_keyed twoRecords_unique)).
Defined.

Lemma X16_store_delete_witness :
  deleted "m1"
          (snd (store noEmbedding "m1" 0 0 (someInput "alpha")
                      (new {| enabled := true; maxMemories := 10 |})))
  = true
  /\ delete "m1"
            (snd (store noEmbedding "m1" 0 0 (someInput "alpha")
                        (new {| enabled := true; maxMemories := 10 |})))
     = new {| enabled := true; maxMemories := 10 |}.
Proof.
refine ((proj2 (proj2 (proj2 (proj2 (proj2
          (X16_store_then_delete_round_trip noEmbedding "m1" 0 0
             (someInput "alpha")
             (new {| enabled := true; maxMemories := 10 |}))))))) _ _ _).
- reflexivity.
- simpl. tauto.
- simpl. tauto.
Defined.

Lemma X17_update_witness :
  update noEmbedding "m9"
         {| up_id := None; up_type := None; up_content := Some "gamma"%string;
            up_embedding := None; up_metadata := None; up_timestamp := None;
            up_accessCount := None; up_relevanceScore := None |}
         (import [fresh; older]
                 (new {| enabled := true; maxMemories := 10 |}))
  = (None, import [fresh; older]
                  (new {| enabled := true; maxMemories := 10 |})).
Proof.
exact (proj1 (X17_update_replaces_in_place noEmbedding "m9"
                {| up_id := None; up_type := None;
                   up_content := Some "gamma"%string;
                   up_embedding := None; up_metadata := None;
                   up_timestamp := None; up_accessCount := None;
                   up_relevanceScore := None |}
                (import [fresh; older]
                        (new {| enabled := true; maxMemories := 10 |})))
             eq_refl).
Defined.

Lemma X18_clusters_witness :
  Permutation
    (concat (clusterMemories noCosine
               (import [fresh; older]
                       (new {| enabled := true; maxMemories := 10 |}))))
    (export (import [fresh; older]
                    (new {| enabled := true; maxMemories := 10 |}))).
Proof.
exact (proj1 (X18_clusters_partition_the_records noCosine
                twoRecords_keyed twoRecords_unique)).
Defined.

End MemoryOpsScenarios.
